(** * CartoType navigation: turns, vehicle types, location matching,
      route totals and the time-and-distance matrix

    A shallow embedding of the inline code of
    [src/main/base/cartotype_navigation.h] together with the properties
    stated about it.

    Number model.
    - A C++ [double] is a rational number ([Q]): a finite value, compared
      as the source compares it.  NaN and the infinities are outside
      [Q]; a statement over [double] is about doubles that are numbers.
    - Where a claim turns on the values outside [Q], the doubles are
      [Double.t]: numbers, the two infinities and NaN, with the
      comparisons of the hardware.  The weights and dimensions of
      [TVehicleType] are of this type.
    - Arithmetic on [Q] is exact.  Where a claim turns on the rounding of
      the hardware, the operation is followed by a rounding function:
      [TTurn.Rounded] is the seven-argument [SetTurn] read this way, and
      [Binary64.round] is the rounding to the nearest double.
    - [int32_t] counts are integers ([Z]); the code only tests them for
      equality with a constant.
    - [uint32_t] flag words are integers in [0, 2^32) with the bit
      operations of [Z]; [size_t] is an integer in [0, 2^64) and its
      multiplication and addition wrap around. *)

From Stdlib Require Import ZArith QArith Qabs Qround Qpower Lqa Lia List Bool
  String.
Import ListNotations.

Local Open Scope Q_scope.

(* ================================================================== *)
(** * Part I: the embedding                                            *)
(* ================================================================== *)

(** ** Doubles *)

Definition double : Type := Q.

(** [a > b] on doubles, as a boolean. *)
Definition dgt (a b : double) : bool := negb (Qle_bool a b).

(** [a < b] on doubles, as a boolean. *)
Definition dlt (a b : double) : bool := dgt b a.

(** [a == 0] on doubles, as a boolean. *)
Definition dzero (a : double) : bool := Qeq_bool a 0.

(** Every value a [double] member can hold: a number, an infinity or a
    NaN.  The comparisons are those of the hardware: each one is false
    when an operand is NaN.  (The two zeros compare equal and are one
    value here.) *)
Module Double.

Inductive t : Type :=
| NaN : t
| NegInf : t
| Finite (q : Q) : t
| PosInf : t.

Definition zero : t := Finite 0.

(** [a < b] *)
Definition ltb (a b : t) : bool :=
  match a, b with
  | NaN, _ | _, NaN => false
  | _, NegInf => false
  | NegInf, _ => true
  | PosInf, _ => false
  | Finite _, PosInf => true
  | Finite p, Finite q => dlt p q
  end.

(** [a > b] *)
Definition gtb (a b : t) : bool := ltb b a.

(** [a >= b] *)
Definition geb (a b : t) : bool :=
  match a, b with
  | NaN, _ | _, NaN => false
  | _, NegInf => true
  | NegInf, _ => false
  | PosInf, _ => true
  | Finite _, PosInf => false
  | Finite p, Finite q => Qle_bool q p
  end.

Definition IsNaN (a : t) : bool :=
  match a with NaN => true | _ => false end.

End Double.

(** The rounding of binary64 arithmetic: the result of an addition or a
    subtraction of two doubles is the exact result rounded to the nearest
    double, a tie going to the double whose last significand bit is 0.  A
    double has 53 significand bits and no bit finer than [2^-1074].
    (A result too large for a double, which the hardware gives as an
    infinity, is outside this model: [round] keeps 53 bits of it.) *)
Module Binary64.

(** The largest [e] with [2^e <= a], for [a > 0]. *)
Definition ilog2 (a : Q) : Z :=
  let e := (Z.log2 (Qnum a) - Z.log2 (Z.pos (Qden a)))%Z in
  if Qle_bool (2 ^ e) a then e else (e - 1)%Z.

(** The exponent of the last significand bit of the doubles near
    [a > 0]. *)
Definition ulp_exponent (a : Q) : Z := Z.max (ilog2 a - 52) (-1074).

(** The nearest integer, a tie going to the even one. *)
Definition nearest_even (m : Q) : Z :=
  let f := Qfloor m in
  match Qcompare (m - inject_Z f) (1 # 2) with
  | Lt => f
  | Gt => (f + 1)%Z
  | Eq => if Z.even f then f else (f + 1)%Z
  end.

Definition round_positive (a : Q) : Q :=
  let e := ulp_exponent a in
  inject_Z (nearest_even (a / 2 ^ e)) * 2 ^ e.

Definition round (x : Q) : Q :=
  match Qcompare x 0 with
  | Eq => 0
  | Gt => round_positive x
  | Lt => - round_positive (- x)
  end.

End Binary64.

(** ** Turn types and roundabout states (enum classes) *)

Module TTurnType.
Inductive t : Set :=
| None | Ahead | BearRight | Right | SharpRight
| Around | SharpLeft | Left | BearLeft.

Definition eqb (x y : t) : bool :=
  match x, y with
  | None, None | Ahead, Ahead | BearRight, BearRight | Right, Right
  | SharpRight, SharpRight | Around, Around | SharpLeft, SharpLeft
  | Left, Left | BearLeft, BearLeft => true
  | _, _ => false
  end.
(** How far to the right a turn type lies, from sharp left (-3) through
    ahead (0) to sharp right (3); none and around have no side. *)
Definition Rightness (x : t) : Z :=
  match x with
  | SharpLeft => -3 | Left => -2 | BearLeft => -1
  | Ahead | None | Around => 0
  | BearRight => 1 | Right => 2 | SharpRight => 3
  end.

(** The turn type with left and right exchanged. *)
Definition Mirror (x : t) : t :=
  match x with
  | SharpLeft => SharpRight | Left => Right | BearLeft => BearRight
  | SharpRight => SharpLeft | Right => Left | BearRight => BearLeft
  | Ahead => Ahead | None => None | Around => Around
  end.

End TTurnType.

Module TRoundaboutState.
Inductive t : Set := None | Enter | Continue | Exit.
End TRoundaboutState.

(** ** [class TTurn] *)

Module TTurn.

Record t : Type := mk {
  iTurnType : TTurnType.t;
  iContinue : bool;
  iRoundaboutState : TRoundaboutState.t;
  iTurnAngle : double;
  iInDirection : double;
  iOutDirection : double;
  iExitNumber : Z;
  iChoices : Z;
  iLeftAlternatives : Z;
  iRightAlternatives : Z;
  iIsFork : bool;
  iTurnOff : bool;
  iJunctionName : string;
  iJunctionRef : string
}.

(** The just-constructed state: the default member initialisers. *)
Definition init : t :=
  {| iTurnType := TTurnType.None;
     iContinue := true;
     iRoundaboutState := TRoundaboutState.None;
     iTurnAngle := 0;
     iInDirection := 0;
     iOutDirection := 0;
     iExitNumber := 0%Z;
     iChoices := 0%Z;
     iLeftAlternatives := 0%Z;
     iRightAlternatives := 0%Z;
     iIsFork := false;
     iTurnOff := false;
     iJunctionName := EmptyString;
     iJunctionRef := EmptyString |}.

(** [void Clear()] *)
Definition Clear (_ : t) : t := init.

(** The chain of comparisons of [SetTurn(double)], on the value just
    stored in [iTurnAngle].  (For a NaN, which is not a [double] here,
    every comparison of the chain is false and the source ends at sharp
    left.) *)
Definition TurnTypeOfAngle (iTurnAngle : double) : TTurnType.t :=
  if dgt iTurnAngle 120 then TTurnType.SharpRight
  else if dgt iTurnAngle 45 then TTurnType.Right
  else if dgt iTurnAngle 15 then TTurnType.BearRight
  else if dgt iTurnAngle (-15) then TTurnType.Ahead
  else if dgt iTurnAngle (-45) then TTurnType.BearLeft
  else if dgt iTurnAngle (-120) then TTurnType.Left
  else TTurnType.SharpLeft.

(** [void SetTurn(double aTurnAngle)]: sets the angle and the type and
    leaves the other members unchanged. *)
Definition SetTurnAngle (this : t) (aTurnAngle : double) : t :=
  {| iTurnType := TurnTypeOfAngle aTurnAngle;
     iContinue := iContinue this;
     iRoundaboutState := iRoundaboutState this;
     iTurnAngle := aTurnAngle;
     iInDirection := iInDirection this;
     iOutDirection := iOutDirection this;
     iExitNumber := iExitNumber this;
     iChoices := iChoices this;
     iLeftAlternatives := iLeftAlternatives this;
     iRightAlternatives := iRightAlternatives this;
     iIsFork := iIsFork this;
     iTurnOff := iTurnOff this;
     iJunctionName := iJunctionName this;
     iJunctionRef := iJunctionRef this |}.

(** The local [turn_angle] of the seven-argument [SetTurn]: the
    difference of the directions with one correction by 360, in exact
    arithmetic.  The rounding of the two operations is written out in
    [Rounded.turn_angle] below. *)
Definition turn_angle (aInDir aOutDir : double) : double :=
  let d := aInDir - aOutDir in
  if dgt d 180 then d - 360
  else if dlt d (-180) then d + 360
  else d.

(** The condition of the final [if] of the seven-argument [SetTurn]. *)
Definition override (ty : TTurnType.t) (aChoices : Z)
           (aIsFork aTurnOff : bool) : bool :=
  TTurnType.eqb ty TTurnType.Ahead
  && (aTurnOff || (aIsFork && (aChoices =? 2)%Z)).

(** [void SetTurn(double aInDir,double aOutDir,int32_t aChoices,
    int32_t aLeftAlternatives,int32_t aRightAlternatives,bool aIsFork,
    bool aTurnOff)] *)
Definition SetTurn (this : t) (aInDir aOutDir : double)
           (aChoices aLeftAlternatives aRightAlternatives : Z)
           (aIsFork aTurnOff : bool) : t :=
  let s := SetTurnAngle this (turn_angle aInDir aOutDir) in
  {| iTurnType :=
       if override (iTurnType s) aChoices aIsFork aTurnOff
       then (if (aLeftAlternatives =? 0)%Z
             then TTurnType.BearLeft else TTurnType.BearRight)
       else iTurnType s;
     iContinue := iContinue s;
     iRoundaboutState := iRoundaboutState s;
     iTurnAngle := iTurnAngle s;
     iInDirection := aInDir;
     iOutDirection := aOutDir;
     iExitNumber := iExitNumber s;
     iChoices := aChoices;
     iLeftAlternatives := aLeftAlternatives;
     iRightAlternatives := aRightAlternatives;
     iIsFork := aIsFork;
     iTurnOff := aTurnOff;
     iJunctionName := iJunctionName s;
     iJunctionRef := iJunctionRef s |}.

(** The seven-argument [SetTurn] with the rounding of its arithmetic
    written out.  [turn_angle] above reads the subtraction and the
    correction by 360 as exact; the hardware rounds each of the two
    results to a double.  Here [rnd] is that rounding ([Binary64.round]
    for the doubles of the source); with the identity for [rnd] these
    are [turn_angle] and [SetTurn] above.  The comparisons and the
    assignments are exact. *)
Module Rounded.
Section Rounding.
Variable rnd : double -> double.

Definition turn_angle (aInDir aOutDir : double) : double :=
  let d := rnd (aInDir - aOutDir) in
  if dgt d 180 then rnd (d - 360)
  else if dlt d (-180) then rnd (d + 360)
  else d.

Definition SetTurn (this : t) (aInDir aOutDir : double)
           (aChoices aLeftAlternatives aRightAlternatives : Z)
           (aIsFork aTurnOff : bool) : t :=
  let s := SetTurnAngle this (turn_angle aInDir aOutDir) in
  {| iTurnType :=
       if override (iTurnType s) aChoices aIsFork aTurnOff
       then (if (aLeftAlternatives =? 0)%Z
             then TTurnType.BearLeft else TTurnType.BearRight)
       else iTurnType s;
     iContinue := iContinue s;
     iRoundaboutState := iRoundaboutState s;
     iTurnAngle := iTurnAngle s;
     iInDirection := aInDir;
     iOutDirection := aOutDir;
     iExitNumber := iExitNumber s;
     iChoices := aChoices;
     iLeftAlternatives := aLeftAlternatives;
     iRightAlternatives := aRightAlternatives;
     iIsFork := aIsFork;
     iTurnOff := aTurnOff;
     iJunctionName := iJunctionName s;
     iJunctionRef := iJunctionRef s |}.

End Rounding.
End Rounded.

(** The thresholds as the specification words them, on the size of the
    angle, with the sign choosing the side: [|a| <= 15] ahead, [<= 45]
    bear, [<= 120] left or right, [<= 180] sharp, otherwise around;
    negative is left.  This is the specification's reading, kept apart
    from [TurnTypeOfAngle], which is the code. *)
Definition DocumentedTurnType (a : double) : TTurnType.t :=
  let left := dlt a 0 in
  if Qle_bool (Qabs a) 15 then TTurnType.Ahead
  else if Qle_bool (Qabs a) 45
       then (if left then TTurnType.BearLeft else TTurnType.BearRight)
  else if Qle_bool (Qabs a) 120
       then (if left then TTurnType.Left else TTurnType.Right)
  else if Qle_bool (Qabs a) 180
       then (if left then TTurnType.SharpLeft else TTurnType.SharpRight)
  else TTurnType.Around.

(** The side with more alternatives, as the specification words the
    override: bear right when more alternatives lie to the left, bear
    left when more lie to the right. *)
Definition DocumentedOverride (aLeftAlternatives aRightAlternatives : Z)
  : option TTurnType.t :=
  if (aRightAlternatives <? aLeftAlternatives)%Z
  then Some TTurnType.BearRight
  else if (aLeftAlternatives <? aRightAlternatives)%Z
       then Some TTurnType.BearLeft
       else Datatypes.None.

(** A U-turn as the comment on [TRouteProfile::iUTurnTime] defines it:
    a turn within 11.75 degrees of 180 degrees. *)
Definition DocumentedUTurn (a : double) : bool :=
  Qle_bool (180 - 11.75) (Qabs a) && Qle_bool (Qabs a) 180.

End TTurn.

(** ** Access flags ([uint32_t]) *)

Definition KArcWrongWayFlag : Z := 0x00100000.
Definition KArcCarAccessFlag : Z := 0x00800000.
Definition KArcOtherAccessFlag : Z := 0x80000000.
Definition KArcBicycleAccessFlag : Z := 0x00200000.
Definition KArcPedestrianAccessFlag : Z := 0x20000000.

(** The fields of the arc word. *)
Definition KArcRoadTypeMask : Z := 0x1F.
Definition KArcGradientMask : Z := 0xE0.
Definition KArcGradientDirectionFlag : Z := 0x80.
Definition KArcGradientShift : Z := 5.
Definition KArcRoadDirectionMask : Z := 0x300.
Definition KArcRoundaboutFlag : Z := 0x400.
Definition KArcTollFlag : Z := 0x800.
Definition KArcSpeedLimitMask : Z := 0xFF000.
Definition KArcSpeedLimitShift : Z := 12.
Definition KArcAccessMask : Z := 0x7FF00000.
Definition KArcRoadTypeCount : Z := 32.
Definition KArcGradientCount : Z := 8.

(** [~x] on a [uint32_t]. *)
Definition not32 (x : Z) : Z := Z.land (Z.lnot x) 0xFFFFFFFF.

(** ** [class TVehicleType] *)

Module TVehicleType.

(** The weights and dimensions are public [double] members that a caller
    may set to any value, so they range over all of [Double.t]. *)
Record t : Type := mk {
  iAccessFlags : Z;
  iWeight : Double.t;
  iAxleLoad : Double.t;
  iDoubleAxleLoad : Double.t;
  iTripleAxleLoad : Double.t;
  iHeight : Double.t;
  iWidth : Double.t;
  iLength : Double.t;
  iHazMat : bool
}.

(** The default member initialisers. *)
Definition init : t :=
  {| iAccessFlags := Z.lor KArcCarAccessFlag KArcWrongWayFlag;
     iWeight := Double.zero; iAxleLoad := Double.zero;
     iDoubleAxleLoad := Double.zero; iTripleAxleLoad := Double.zero;
     iHeight := Double.zero; iWidth := Double.zero;
     iLength := Double.zero; iHazMat := false |}.

(** The condition of the first [if] of [Normalize]. *)
Definition DetailsGiven (this : t) : bool :=
  Double.gtb (iWeight this) Double.zero ||
  Double.gtb (iAxleLoad this) Double.zero ||
  Double.gtb (iDoubleAxleLoad this) Double.zero ||
  Double.gtb (iTripleAxleLoad this) Double.zero ||
  Double.gtb (iHeight this) Double.zero ||
  Double.gtb (iWidth this) Double.zero ||
  Double.gtb (iLength this) Double.zero ||
  iHazMat this.

(** [if (x < 0) x = 0;] *)
Definition ZeroIfNegative (x : Double.t) : Double.t :=
  if Double.ltb x Double.zero then Double.zero else x.

(** [void Normalize()] *)
Definition Normalize (this : t) : t :=
  {| iAccessFlags :=
       if DetailsGiven this
       then Z.lor (iAccessFlags this) KArcOtherAccessFlag
       else Z.land (iAccessFlags this) (not32 KArcOtherAccessFlag);
     iWeight := ZeroIfNegative (iWeight this);
     iAxleLoad := ZeroIfNegative (iAxleLoad this);
     iDoubleAxleLoad := ZeroIfNegative (iDoubleAxleLoad this);
     iTripleAxleLoad := ZeroIfNegative (iTripleAxleLoad this);
     iHeight := ZeroIfNegative (iHeight this);
     iWidth := ZeroIfNegative (iWidth this);
     iLength := ZeroIfNegative (iLength this);
     iHazMat := iHazMat this |}.

(** The seven weights and dimensions, in the order of their declaration. *)
Definition Dimensions (this : t) : list Double.t :=
  [iWeight this; iAxleLoad this; iDoubleAxleLoad this;
   iTripleAxleLoad this; iHeight this; iWidth this; iLength this].

(** The default vehicle type with a weight that is not a number. *)
Definition NaNWeight : t :=
  {| iAccessFlags := iAccessFlags init;
     iWeight := Double.NaN; iAxleLoad := Double.zero;
     iDoubleAxleLoad := Double.zero; iTripleAxleLoad := Double.zero;
     iHeight := Double.zero; iWidth := Double.zero;
     iLength := Double.zero; iHazMat := false |}.

(** A lorry of 7.5 tonnes whose height was entered as -1. *)
Definition Lorry : t :=
  {| iAccessFlags := 0x00900000%Z;
     iWeight := Double.Finite 7.5; iAxleLoad := Double.zero;
     iDoubleAxleLoad := Double.zero; iTripleAxleLoad := Double.zero;
     iHeight := Double.Finite (-1); iWidth := Double.zero;
     iLength := Double.zero; iHazMat := false |}.

(** The flag test used throughout the class, as in [ObeysOneWay]:
    [(iAccessFlags & flag) != 0]. *)
Definition HasFlag (this : t) (flag : Z) : bool :=
  negb (Z.land (iAccessFlags this) flag =? 0)%Z.

(** [bool ObeysOneWay() const] *)
Definition ObeysOneWay (this : t) : bool :=
  negb (Z.land (iAccessFlags this) KArcWrongWayFlag =? 0)%Z.

(** [bool WalkingAllowed() const] *)
Definition WalkingAllowed (this : t) : bool :=
  negb (Z.land (iAccessFlags this) KArcPedestrianAccessFlag =? 0)%Z.

(** [bool CyclingAllowed() const] *)
Definition CyclingAllowed (this : t) : bool :=
  negb (Z.land (iAccessFlags this) KArcBicycleAccessFlag =? 0)%Z.

End TVehicleType.

(** ** Result codes and [size_t] *)

Definition TResult : Type := Z.
Definition KErrorNone : TResult := 0%Z.
Definition KErrorInvalidArgument : TResult := 15%Z.

(** [size_t] is 64 bits wide; products and sums wrap around. *)
Definition size_bits : Z := 64.
Definition size_wrap (x : Z) : Z := (x mod 2 ^ size_bits)%Z.
Definition size_mul (a b : Z) : Z := size_wrap (a * b).
Definition size_add (a b : Z) : Z := size_wrap (a + b).

(** ** [class CTimeAndDistanceMatrix] *)

Module CTimeAndDistanceMatrix.

Record t : Type := mk {
  m_from_count : Z;
  m_to_count : Z;
  m_matrix : list Z
}.

(** The default constructor. *)
Definition init : t :=
  {| m_from_count := 0%Z; m_to_count := 0%Z; m_matrix := [] |}.

(** [std::vector::size()] *)
Definition size (v : list Z) : Z := Z.of_nat (List.length v).

(** [std::vector::operator[]]: the element at an index inside the
    vector; outside it the behaviour is undefined, and no value is
    returned here. *)
Definition at_index (v : list Z) (i : Z) : option Z :=
  if (i <? 0)%Z then None else nth_error v (Z.to_nat i).

(** The constructor from from-count, to-count and raw matrix; a thrown
    result code is the left injection. *)
Definition make (aFromCount aToCount : Z) (aMatrix : list Z)
  : TResult + t :=
  if (size_mul (size_mul aFromCount aToCount) 2 =? size aMatrix)%Z
  then inr {| m_from_count := aFromCount;
              m_to_count := aToCount;
              m_matrix := aMatrix |}
  else inl KErrorInvalidArgument.

Definition FromCount (this : t) : Z := m_from_count this.
Definition ToCount (this : t) : Z := m_to_count this.

(** [m_matrix[(aFromIndex * m_to_count + aToIndex) * 2]] *)
Definition Time (this : t) (aFromIndex aToIndex : Z) : option Z :=
  at_index (m_matrix this)
    (size_mul (size_add (size_mul aFromIndex (m_to_count this)) aToIndex) 2).

(** [m_matrix[(aFromIndex * m_to_count + aToIndex) * 2 + 1]] *)
Definition Distance (this : t) (aFromIndex aToIndex : Z) : option Z :=
  at_index (m_matrix this)
    (size_add
       (size_mul (size_add (size_mul aFromIndex (m_to_count this))
                           aToIndex) 2) 1).

(** The index expressions of [Time] and [Distance]. *)
Definition TimeIndex (this : t) (aFromIndex aToIndex : Z) : Z :=
  size_mul (size_add (size_mul aFromIndex (m_to_count this)) aToIndex) 2.

Definition DistanceIndex (this : t) (aFromIndex aToIndex : Z) : Z :=
  size_add (TimeIndex this aFromIndex aToIndex) 1.

End CTimeAndDistanceMatrix.

(** ** [class TLocationMatchParam] *)

Module TLocationMatchParam.

Record t : Type := mk {
  iLocationAccuracyInMeters : double;
  iHeadingAccuracyInDegrees : double;
  iMaxRoadDistanceInMeters : double
}.

(** The default member initialisers. *)
Definition init : t :=
  {| iLocationAccuracyInMeters := 0;
     iHeadingAccuracyInDegrees := 0;
     iMaxRoadDistanceInMeters := 0 |}.

(** A value clamped to the range [lo ... hi]. *)
Definition Clamp (lo hi x : double) : double :=
  if dlt x lo then lo else if dgt x hi then hi else x.

(** Zero stands for the default value; any other value is clamped. *)
Definition NormalizeValue (default lo hi x : double) : double :=
  if dzero x then default else Clamp lo hi x.

(** Modelled from the spec: the body of [TLocationMatchParam::Normalize]
    is missing from the sources (the header only declares it).  It is
    written from its documentation, "Converts zeros to default values
    and clamps other values to legal ranges", with the defaults and
    ranges documented on the three members: 8 and 1 ... 1000, 22.5 and
    1 ... 90, 100 and 5 ... 10,000. *)
Definition Normalize (this : t) : t :=
  {| iLocationAccuracyInMeters :=
       NormalizeValue 8 1 1000 (iLocationAccuracyInMeters this);
     iHeadingAccuracyInDegrees :=
       NormalizeValue 22.5 1 90 (iHeadingAccuracyInDegrees this);
     iMaxRoadDistanceInMeters :=
       NormalizeValue 100 5 10000 (iMaxRoadDistanceInMeters this) |}.

(** [TLocationMatchParam Normalized() const] *)
Definition Normalized (this : t) : t :=
  let p := this in Normalize p.

(** The legal range of every member. *)
Definition Legal (p : t) : Prop :=
  1 <= iLocationAccuracyInMeters p <= 1000 /\
  1 <= iHeadingAccuracyInDegrees p <= 90 /\
  5 <= iMaxRoadDistanceInMeters p <= 10000.

End TLocationMatchParam.

(** ** Routes *)

(** [TRoadType] and the point types are declared outside the embedded
    header: a road type is taken as its integer code and a point as a
    pair of map coordinates. *)
Definition TRoadType : Type := Z.
Definition TPoint : Type := (Z * Z)%type.
Definition TPointFP : Type := (double * double)%type.

(** [class CRouteSegment] *)
Module CRouteSegment.

Record t : Type := mk {
  iRoadType : TRoadType;
  iMaxSpeed : double;
  iName : string;
  iRef : string;
  iDistance : double;
  iTime : double;
  iTurnTime : double;
  iPath : list TPoint;
  iSection : Z;
  iTurn : TTurn.t;
  iRestricted : bool
}.

End CRouteSegment.

(** [class CRoute]: the segments, the totals and the path; the paths to
    the junctions before and after the route and the profile play no part
    below and are left out. *)
Module CRoute.

Record t : Type := mk {
  iRouteSegment : list CRouteSegment.t;
  iDistance : double;
  iTime : double;
  iPath : list TPoint;
  iPointScale : double
}.

(** The default member initialisers. *)
Definition init : t :=
  {| iRouteSegment := []; iDistance := 0; iTime := 0; iPath := [];
     iPointScale := 1 |}.

(** [bool Empty() const] *)
Definition Empty (this : t) : bool :=
  match iRouteSegment this with [] => true | _ :: _ => false end.

(** A path extended by a contour, without repeating a point that
    coincides with the point before it. *)
Fixpoint LastPoint (path : list TPoint) : option TPoint :=
  match path with
  | [] => None
  | [p] => Some p
  | _ :: rest => LastPoint rest
  end.

Fixpoint AppendContour (path contour : list TPoint) : list TPoint :=
  match contour with
  | [] => path
  | p :: rest =>
      match LastPoint path with
      | Some (x, y) =>
          if ((x =? fst p) && (y =? snd p))%Z
          then AppendContour path rest
          else AppendContour (path ++ [p]) rest
      | None => AppendContour (path ++ [p]) rest
      end
  end.

(** Modelled from the spec: the body of [CRoute::AppendSegment] is missing
    from the sources (the header only declares it).  Following the route
    assembler of the specification, it emits one route segment with the
    given distance, time, road data, section and restricted flag, adds
    the distance and the time to the totals of the route, and appends the
    geometry of the segment to the path of the route, filtering
    coincident consecutive points.  The junction data of the header's
    signature is given here as the turn it describes. *)
Definition AppendSegment (this : t) (aTurn : TTurn.t) (aTurnTime : double)
           (aContour : list TPoint) (aName aRef : string)
           (aRoadType : TRoadType) (aMaxSpeed aDistance aTime : double)
           (aSection : Z) (aRestricted : bool) : t :=
  {| iRouteSegment :=
       iRouteSegment this ++
       [ {| CRouteSegment.iRoadType := aRoadType;
            CRouteSegment.iMaxSpeed := aMaxSpeed;
            CRouteSegment.iName := aName;
            CRouteSegment.iRef := aRef;
            CRouteSegment.iDistance := aDistance;
            CRouteSegment.iTime := aTime;
            CRouteSegment.iTurnTime := aTurnTime;
            CRouteSegment.iPath := aContour;
            CRouteSegment.iSection := aSection;
            CRouteSegment.iTurn := aTurn;
            CRouteSegment.iRestricted := aRestricted |} ];
     iDistance := iDistance this + aDistance;
     iTime := iTime this + aTime;
     iPath := AppendContour (iPath this) aContour;
     iPointScale := iPointScale this |}.


End CRoute.

(** ** The route assembler *)

Module RouteAssembler.

(** One arc of the sequence found by the path search, with the distance
    and the time the cost model gives it, and a flag telling whether a
    declared waypoint lies at its start. *)
Record Arc : Type := mkArc {
  arcRoadType : TRoadType;
  arcMaxSpeed : double;
  arcName : string;
  arcRef : string;
  arcDistance : double;
  arcTime : double;
  arcTurnTime : double;
  arcContour : list TPoint;
  arcTurn : TTurn.t;
  arcRestricted : bool;
  arcAtWaypoint : bool
}.

(** The section of the next arc: 0 for the first arc of the route, one
    more than the current section at a waypoint boundary, the current
    section otherwise. *)
Definition NextSection (route : CRoute.t) (section : Z) (a : Arc) : Z :=
  if CRoute.Empty route then 0%Z
  else if arcAtWaypoint a then (section + 1)%Z
  else section.

(** The turn of the next segment: none for the first segment, where no
    junction precedes the route. *)
Definition NextTurn (route : CRoute.t) (a : Arc) : TTurn.t :=
  if CRoute.Empty route then TTurn.init else arcTurn a.

(** Modelled from the spec: the route assembler that expands the raw arc
    sequence into a route is missing from the sources.  The specification
    has it walk the arc sequence once, emit one segment for each arc,
    group the arcs between declared waypoints into sections whose index
    increments at each waypoint boundary, and return an empty route for
    an empty sequence. *)
Fixpoint AssembleFrom (route : CRoute.t) (section : Z) (arcs : list Arc)
  : CRoute.t :=
  match arcs with
  | [] => route
  | a :: rest =>
      let s := NextSection route section a in
      AssembleFrom
        (CRoute.AppendSegment route (NextTurn route a) (arcTurnTime a)
           (arcContour a) (arcName a) (arcRef a) (arcRoadType a)
           (arcMaxSpeed a) (arcDistance a) (arcTime a) s (arcRestricted a))
        s rest
  end.

Definition Assemble (arcs : list Arc) : CRoute.t :=
  AssembleFrom CRoute.init 0%Z arcs.



(** The section indices, distances and times of the segments of a route,
    in list order. *)
Definition Sections (r : CRoute.t) : list Z :=
  map CRouteSegment.iSection (CRoute.iRouteSegment r).






(** A route of four arcs in two sections, for the examples. *)
Definition ExampleArc (d t : double) (w : bool) : Arc :=
  {| arcRoadType := 0%Z; arcMaxSpeed := 0; arcName := EmptyString;
     arcRef := EmptyString; arcDistance := d; arcTime := t;
     arcTurnTime := 0; arcContour := []; arcTurn := TTurn.init;
     arcRestricted := false; arcAtWaypoint := w |}.

Definition ExampleRoute : CRoute.t :=
  Assemble [ExampleArc 100 10 true; ExampleArc 50.5 4 false;
            ExampleArc 20 3 true; ExampleArc 7 1 false].


End RouteAssembler.

(** ** Navigation *)

(** [enum class TNavigationState] *)
Module TNavigationState.
Inductive t : Set :=
| None | NoPosition | Turn | OffRoute | ReRouteNeeded | ReRouteDone
| TurnRound | Arrival.
End TNavigationState.

(** [class TNavigatorParam] *)
Module TNavigatorParam.

Record t : Type := mk {
  iMinimumFixDistance : Z;
  iRouteDistanceTolerance : Z;
  iRouteTimeTolerance : Z;
  iAutoReRoute : bool;
  iNavigationEnabled : bool
}.

(** The default member initialisers. *)
Definition init : t :=
  {| iMinimumFixDistance := 5; iRouteDistanceTolerance := 20;
     iRouteTimeTolerance := 30; iAutoReRoute := true;
     iNavigationEnabled := true |}.

End TNavigatorParam.

(** [class TNavigationData]: a fix. *)
Module TNavigationData.

Record t : Type := mk {
  iValidity : Z;
  iTime : double;
  iPosition : TPointFP;
  iSpeed : double;
  iCourse : double;
  iHeight : double
}.

End TNavigationData.

(** [class TNearestSegmentInfo]: a position along the route. *)
Module TNearestSegmentInfo.

Record t : Type := mk {
  iSegmentIndex : Z;
  iLineIndex : Z;
  iNearestPoint : TPointFP;
  iDistanceToRoute : double;
  iDistanceAlongRoute : double;
  iDistanceAlongSegment : double;
  iTimeAlongRoute : double;
  iTimeAlongSegment : double;
  iHeading : double
}.

End TNearestSegmentInfo.

(** The navigator session. *)
Module Navigator.

Record t : Type := mk {
  iRoute : option CRoute.t;
  iState : TNavigationState.t;
  iLastFix : option TNavigationData.t;
  iPositionOnRoute : option TNearestSegmentInfo.t;
  iOffRouteTime : double;
  iOffRouteDistance : double;
  iNavigatorParam : TNavigatorParam.t;
  iLocationMatchParam : TLocationMatchParam.t
}.

(** A session with no route. *)
Definition init : t :=
  {| iRoute := None; iState := TNavigationState.None; iLastFix := None;
     iPositionOnRoute := None; iOffRouteTime := 0; iOffRouteDistance := 0;
     iNavigatorParam := TNavigatorParam.init;
     iLocationMatchParam := TLocationMatchParam.init |}.

Section Collaborators.

(** The distance in metres between two positions. *)
Variable DistanceInMeters : TPointFP -> TPointFP -> double.

(** The location matcher: the nearest point of the route to a fix within
    a tolerance in metres, if there is one. *)
Variable Match :
  TLocationMatchParam.t -> Z -> CRoute.t -> TNavigationData.t ->
  option TNearestSegmentInfo.t.

(** Whether a position on the route is within the arrival radius of the
    end of the route, and whether the next junction needs a U-turn. *)
Variable AtArrival : CRoute.t -> TNearestSegmentInfo.t -> bool.
Variable NeedsUTurn : CRoute.t -> TNearestSegmentInfo.t -> bool.

(** The route search used for re-routing from a fix. *)
Variable ReRoute : CRoute.t -> TNavigationData.t -> CRoute.t.

(** Step 1: a fix closer than [iMinimumFixDistance] to the last accepted
    fix is rejected. *)
Definition Rejects (this : t) (aNavData : TNavigationData.t) : bool :=
  match iLastFix this with
  | Some last =>
      dlt (DistanceInMeters (TNavigationData.iPosition last)
                            (TNavigationData.iPosition aNavData))
          (inject_Z (TNavigatorParam.iMinimumFixDistance
                       (iNavigatorParam this)))
  | None => false
  end.

(** Step 3: a matched fix updates the position along the route; the state
    is arrival, turn round or turn. *)
Definition Matched (this : t) (route : CRoute.t)
           (aNavData : TNavigationData.t) (pos : TNearestSegmentInfo.t) : t :=
  {| iRoute := Some route;
     iState :=
       if AtArrival route pos then TNavigationState.Arrival
       else if NeedsUTurn route pos then TNavigationState.TurnRound
       else TNavigationState.Turn;
     iLastFix := Some aNavData;
     iPositionOnRoute := Some pos;
     iOffRouteTime := 0;
     iOffRouteDistance := 0;
     iNavigatorParam := iNavigatorParam this;
     iLocationMatchParam := iLocationMatchParam this |}.

(** Step 4: an unmatched fix accumulates the time and the distance off
    the route, measured from the last accepted fix; once both exceed
    their tolerances the position is off the route, and the route is
    replaced by a new one (state re-route done) when automatic re-routing
    is on, or re-routing is needed when it is off. *)
Definition Unmatched (this : t) (route : CRoute.t)
           (aNavData : TNavigationData.t) : t :=
  let param := iNavigatorParam this in
  let dt := match iLastFix this with
            | Some last =>
                TNavigationData.iTime aNavData - TNavigationData.iTime last
            | None => 0
            end in
  let dd := match iLastFix this with
            | Some last =>
                DistanceInMeters (TNavigationData.iPosition last)
                                 (TNavigationData.iPosition aNavData)
            | None => 0
            end in
  let off_time := iOffRouteTime this + dt in
  let off_distance := iOffRouteDistance this + dd in
  if dgt off_time (inject_Z (TNavigatorParam.iRouteTimeTolerance param))
     && dgt off_distance
            (inject_Z (TNavigatorParam.iRouteDistanceTolerance param))
  then
    if TNavigatorParam.iAutoReRoute param
    then {| iRoute := Some (ReRoute route aNavData);
            iState := TNavigationState.ReRouteDone;
            iLastFix := Some aNavData;
            iPositionOnRoute := None;
            iOffRouteTime := 0;
            iOffRouteDistance := 0;
            iNavigatorParam := param;
            iLocationMatchParam := iLocationMatchParam this |}
    else {| iRoute := Some route;
            iState := TNavigationState.ReRouteNeeded;
            iLastFix := Some aNavData;
            iPositionOnRoute := iPositionOnRoute this;
            iOffRouteTime := off_time;
            iOffRouteDistance := off_distance;
            iNavigatorParam := param;
            iLocationMatchParam := iLocationMatchParam this |}
  else {| iRoute := Some route;
          iState := iState this;
          iLastFix := Some aNavData;
          iPositionOnRoute := iPositionOnRoute this;
          iOffRouteTime := off_time;
          iOffRouteDistance := off_distance;
          iNavigatorParam := param;
          iLocationMatchParam := iLocationMatchParam this |}.

(** Modelled from the spec: the body of [CFramework::Navigate] is missing
    from the sources (the header only declares it).  The specification
    gives the event in four steps: a fix closer than the minimum fix
    distance to the last accepted fix is rejected with the state
    unchanged; otherwise the location matcher is run against the active
    route within the route distance tolerance, with the normalized
    location match parameters; a matched fix updates the position along
    the route and the state; an unmatched fix is treated as off route.
    Without a route the fix is accepted and the state stays as it is. *)
Definition Navigate (this : t) (aNavData : TNavigationData.t) : t :=
  if Rejects this aNavData then this
  else
    match iRoute this with
    | None =>
        {| iRoute := None;
           iState := iState this;
           iLastFix := Some aNavData;
           iPositionOnRoute := iPositionOnRoute this;
           iOffRouteTime := iOffRouteTime this;
           iOffRouteDistance := iOffRouteDistance this;
           iNavigatorParam := iNavigatorParam this;
           iLocationMatchParam := iLocationMatchParam this |}
    | Some route =>
        match Match (TLocationMatchParam.Normalized
                       (iLocationMatchParam this))
                    (TNavigatorParam.iRouteDistanceTolerance
                       (iNavigatorParam this))
                    route aNavData with
        | Some pos => Matched this route aNavData pos
        | None => Unmatched this route aNavData
        end
    end.

End Collaborators.

(** Collaborators for the examples: positions on a line, the distance
    between two of them the difference of their first coordinates; the
    matcher finds nothing. *)
Definition ExampleDistance (p q : TPointFP) : double := Qabs (fst q - fst p).

Definition ExampleMatch (_ : TLocationMatchParam.t) (_ : Z) (_ : CRoute.t)
           (_ : TNavigationData.t) : option TNearestSegmentInfo.t := None.

Definition ExampleFix (seconds x : double) : TNavigationData.t :=
  {| TNavigationData.iValidity := 3;
     TNavigationData.iTime := seconds;
     TNavigationData.iPosition := (x, 0);
     TNavigationData.iSpeed := 0;
     TNavigationData.iCourse := 0;
     TNavigationData.iHeight := 0 |}.

Definition ExampleNavigate : t -> TNavigationData.t -> t :=
  Navigate ExampleDistance ExampleMatch
           (fun _ _ => false) (fun _ _ => false) (fun r _ => r).

(** A session with a route and an accepted fix at position 0. *)
Definition ExampleSession : t :=
  {| iRoute := Some RouteAssembler.ExampleRoute;
     iState := TNavigationState.Turn;
     iLastFix := Some (ExampleFix 0 0);
     iPositionOnRoute := None;
     iOffRouteTime := 0;
     iOffRouteDistance := 0;
     iNavigatorParam := TNavigatorParam.init;
     iLocationMatchParam := TLocationMatchParam.init |}.

End Navigator.

(** ** Points and rectangles ([cartotype_base.h], [cartotype_arithmetic.h]) *)

Definition INT32_MIN : Z := - 2 ^ 31.
Definition INT32_MAX : Z := 2 ^ 31 - 1.

(** The values of an [int32_t]. *)
Definition IsInt32 (x : Z) : Prop := (INT32_MIN <= x <= INT32_MAX)%Z.

(** The conversion of an integer to [uint64_t]. *)
Definition uint64 (x : Z) : Z := (x mod 2 ^ 64)%Z.

(** The conversion of a double to an integer type: the fraction is
    discarded (the value is undefined when the result does not fit). *)
Definition TruncateToInt (a : double) : Z :=
  Z.quot (Qnum a) (Z.pos (Qden a)).

(** [inline int32_t Round(double aValue)] *)
Definition Round (aValue : double) : Z :=
  TruncateToInt (if dlt aValue 0 then aValue - 0.5 else aValue + 0.5).

(** [class TPoint]: a pair of [int32_t] coordinates. *)
Module TPoint.

Definition iX (p : TPoint) : Z := fst p.
Definition iY (p : TPoint) : Z := snd p.

(** [operator==] *)
Definition eqb (this aPoint : TPoint) : bool :=
  ((iX this =? iX aPoint) && (iY this =? iY aPoint))%Z.

(** [operator!=] *)
Definition neqb (this aPoint : TPoint) : bool := negb (eqb this aPoint).

(** [operator+=] and [operator-=] (without overflow). *)
Definition add (this aPoint : TPoint) : TPoint :=
  ((iX this + iX aPoint)%Z, (iY this + iY aPoint)%Z).
Definition sub (this aPoint : TPoint) : TPoint :=
  ((iX this - iX aPoint)%Z, (iY this - iY aPoint)%Z).

(** [operator<] *)
Definition ltb (this aPoint : TPoint) : bool :=
  ((iX this <? iX aPoint)
   || ((iX this =? iX aPoint) && (iY this <? iY aPoint)))%Z.

(** [operator>] *)
Definition gtb (this aPoint : TPoint) : bool :=
  ((iX this >? iX aPoint)
   || ((iX this =? iX aPoint) && (iY this >? iY aPoint)))%Z.

(** [uint64_t ComparisonValue() const]:
    [(uint64_t(iX) << 32) + uint64_t(iY)]. *)
Definition ComparisonValue (this : TPoint) : Z :=
  uint64 (uint64 (Z.shiftl (uint64 (iX this)) 32) + uint64 (iY this)).

End TPoint.

(** [TPointFP], that is [TPoint2<double>]. *)
Module TPointFP.

Definition iX (p : TPointFP) : double := fst p.
Definition iY (p : TPointFP) : double := snd p.

(** The constructor from a [TPoint]. *)
Definition of_TPoint (p : TPoint) : TPointFP :=
  (inject_Z (TPoint.iX p), inject_Z (TPoint.iY p)).

(** [operator==] *)
Definition eqb (this aPoint : TPointFP) : bool :=
  Qeq_bool (iX this) (iX aPoint) && Qeq_bool (iY this) (iY aPoint).

(** [operator<] *)
Definition ltb (this aPoint : TPointFP) : bool :=
  if dlt (iX this) (iX aPoint) then true
  else if dgt (iX this) (iX aPoint) then false
  else if dlt (iY this) (iY aPoint) then true
  else false.

(** [operator>] *)
Definition gtb (this aPoint : TPointFP) : bool :=
  if dgt (iX this) (iX aPoint) then true
  else if dlt (iX this) (iX aPoint) then false
  else if dgt (iY this) (iY aPoint) then true
  else false.

(** [T CrossProduct(const TPoint2<T>& aOther) const] *)
Definition CrossProduct (this aOther : TPointFP) : double :=
  iX this * iY aOther - iY this * iX aOther.

(** [bool LeftOfVector(const TPoint2<T>& aPoint) const] *)
Definition LeftOfVector (this aPoint : TPointFP) : bool :=
  dgt (CrossProduct this aPoint) 0.

(** [bool RightOfVector(const TPoint2<T>& aPoint) const] *)
Definition RightOfVector (this aPoint : TPointFP) : bool :=
  dlt (CrossProduct this aPoint) 0.

(** [TPoint Rounded() const] *)
Definition Rounded (this : TPointFP) : TPoint :=
  (TruncateToInt (if dlt (iX this) 0 then iX this - 0.5 else iX this + 0.5),
   TruncateToInt (if dlt (iY this) 0 then iY this - 0.5 else iY this + 0.5)).

End TPointFP.

(** [class TRect] *)
Module TRect.

Record t : Type := mk {
  iTopLeft : TPoint;
  iBottomRight : TPoint
}.

(** [TRect()]: both corners at (0,0). *)
Definition init : t := {| iTopLeft := (0, 0)%Z; iBottomRight := (0, 0)%Z |}.

(** [TRect(aLeft,aTop,aRight,aBottom)] *)
Definition make (aLeft aTop aRight aBottom : Z) : t :=
  {| iTopLeft := (aLeft, aTop); iBottomRight := (aRight, aBottom) |}.

Definition Left (this : t) : Z := TPoint.iX (iTopLeft this).
Definition Top (this : t) : Z := TPoint.iY (iTopLeft this).
Definition Right (this : t) : Z := TPoint.iX (iBottomRight this).
Definition Bottom (this : t) : Z := TPoint.iY (iBottomRight this).

(** [operator==] *)
Definition eqb (this aRect : t) : bool :=
  TPoint.eqb (iTopLeft this) (iTopLeft aRect)
  && TPoint.eqb (iBottomRight this) (iBottomRight aRect).

(** [bool IsEmpty() const] *)
Definition IsEmpty (this : t) : bool :=
  ((Left this >=? Right this) || (Top this >=? Bottom this))%Z.

(** [bool IsMaximal() const] *)
Definition IsMaximal (this : t) : bool :=
  ((Left this =? INT32_MIN) && (Top this =? INT32_MIN)
   && (Right this =? INT32_MAX) && (Bottom this =? INT32_MAX))%Z.

(** [Width], [Height] (without overflow). *)
Definition Width (this : t) : Z := (Right this - Left this)%Z.
Definition Height (this : t) : Z := (Bottom this - Top this)%Z.

Definition TopRight (this : t) : TPoint := (Right this, Top this).
Definition BottomLeft (this : t) : TPoint := (Left this, Bottom this).

(** [TPoint Center() const]: integer division discards the fraction. *)
Definition Center (this : t) : TPoint :=
  (Z.quot (Left this + Right this) 2, Z.quot (Top this + Bottom this) 2).

(** [bool Contains(const TPoint& aPoint) const] *)
Definition Contains (this : t) (aPoint : TPoint) : bool :=
  ((TPoint.iX aPoint >=? Left this) && (TPoint.iY aPoint >=? Top this)
   && (TPoint.iX aPoint <? Right this)
   && (TPoint.iY aPoint <? Bottom this))%Z.

(** [bool Contains(const TRect& aRect) const] *)
Definition ContainsRect (this aRect : t) : bool :=
  ((Left this <=? Left aRect) && (Top this <=? Top aRect)
   && (Right this >=? Right aRect) && (Bottom this >=? Bottom aRect))%Z.

End TRect.

(** [class TRectFP]: a rectangle with [double] coordinates.  The
    coordinates are numbers; a rectangle with a NaN edge, for which every
    comparison below is false in the source, is not a value of this
    type. *)
Module TRectFP.

Record t : Type := mk {
  iTopLeft : TPointFP;
  iBottomRight : TPointFP
}.

(** [TRectFP()] *)
Definition init : t := {| iTopLeft := (0, 0); iBottomRight := (0, 0) |}.

(** [TRectFP(aMinX,aMinY,aMaxX,aMaxY)] *)
Definition make (aMinX aMinY aMaxX aMaxY : double) : t :=
  {| iTopLeft := (aMinX, aMinY); iBottomRight := (aMaxX, aMaxY) |}.

(** [TRectFP(const TRect& aRect)] *)
Definition of_TRect (aRect : TRect.t) : t :=
  {| iTopLeft := TPointFP.of_TPoint (TRect.iTopLeft aRect);
     iBottomRight := TPointFP.of_TPoint (TRect.iBottomRight aRect) |}.

Definition Left (this : t) : double := TPointFP.iX (iTopLeft this).
Definition Top (this : t) : double := TPointFP.iY (iTopLeft this).
Definition Right (this : t) : double := TPointFP.iX (iBottomRight this).
Definition Bottom (this : t) : double := TPointFP.iY (iBottomRight this).

(** [a >= b] and [a <= b] on doubles. *)
Definition dge (a b : double) : bool := Qle_bool b a.
Definition dle (a b : double) : bool := Qle_bool a b.

(** [bool IsEmpty() const] *)
Definition IsEmpty (this : t) : bool :=
  dge (Left this) (Right this) || dge (Top this) (Bottom this).

(** [bool Contains(const TPointFP& aPoint) const] *)
Definition Contains (this : t) (aPoint : TPointFP) : bool :=
  dge (TPointFP.iX aPoint) (Left this)
  && dge (TPointFP.iY aPoint) (Top this)
  && dlt (TPointFP.iX aPoint) (Right this)
  && dlt (TPointFP.iY aPoint) (Bottom this).

(** [bool Contains(const TRectFP& aRect) const] *)
Definition ContainsRect (this aRect : t) : bool :=
  dle (Left this) (Left aRect) && dle (Top this) (Top aRect)
  && dge (Right this) (Right aRect) && dge (Bottom this) (Bottom aRect).

(** [void Combine(const TPointFP& aPoint)] *)
Definition CombinePoint (this : t) (aPoint : TPointFP) : t :=
  let x := TPointFP.iX aPoint in
  let y := TPointFP.iY aPoint in
  {| iTopLeft :=
       (if dlt x (Left this) then x else Left this,
        if dlt y (Top this) then y else Top this);
     iBottomRight :=
       (if dgt x (Right this) then x else Right this,
        if dgt y (Bottom this) then y else Bottom this) |}.

(** [void Combine(const TRectFP& aRect)] *)
Definition Combine (this aRect : t) : t :=
  if negb (IsEmpty aRect)
  then
    if IsEmpty this then aRect
    else
      {| iTopLeft :=
           (if dlt (Left aRect) (Left this) then Left aRect else Left this,
            if dlt (Top aRect) (Top this) then Top aRect else Top this);
         iBottomRight :=
           (if dgt (Right aRect) (Right this)
            then Right aRect else Right this,
            if dgt (Bottom aRect) (Bottom this)
            then Bottom aRect else Bottom this) |}
  else this.

(** [void Intersection(const TRectFP& aRect)] *)
Definition Intersection (this aRect : t) : t :=
  {| iTopLeft :=
       (if dlt (Left this) (Left aRect) then Left aRect else Left this,
        if dlt (Top this) (Top aRect) then Top aRect else Top this);
     iBottomRight :=
       (if dgt (Right this) (Right aRect) then Right aRect else Right this,
        if dgt (Bottom this) (Bottom aRect)
        then Bottom aRect else Bottom this) |}.

(** [bool Intersects(const TRectFP& aRect) const] *)
Definition Intersects (this aRect : t) : bool :=
  dlt (Left this) (Right aRect) && dgt (Right this) (Left aRect)
  && dlt (Top this) (Bottom aRect) && dgt (Bottom this) (Top aRect).

End TRectFP.

(** [template<class T> TRect CBox(T* aPointArray,size_t aPointCount)], on
    an array of [TPoint]. *)
Module BoundingBox.

(** The body of the loop, for the point [p]. *)
Definition Step (box : TRect.t) (p : TPoint) : TRect.t :=
  let x := TPoint.iX p in
  let y := TPoint.iY p in
  {| TRect.iTopLeft :=
       (if (x <? TRect.Left box)%Z then x else TRect.Left box,
        if (y <? TRect.Top box)%Z then y else TRect.Top box);
     TRect.iBottomRight :=
       (if (x >? TRect.Right box)%Z then x else TRect.Right box,
        if (y >? TRect.Bottom box)%Z then y else TRect.Bottom box) |}.

Definition CBox (aPointArray : list TPoint) : TRect.t :=
  match aPointArray with
  | [] => TRect.init
  | _ :: _ =>
      fold_left Step aPointArray
                (TRect.make INT32_MAX INT32_MAX INT32_MIN INT32_MIN)
  end.

End BoundingBox.

(** ** Contours ([cartotype_path.h]) *)

(** [enum class TPointType] *)
Module TPointType.
Inductive t : Set := OnCurve | Quadratic | Cubic.

Definition eqb (x y : t) : bool :=
  match x, y with
  | OnCurve, OnCurve | Quadratic, Quadratic | Cubic, Cubic => true
  | _, _ => false
  end.
End TPointType.

(** [class TOutlinePoint]: a [TPoint] with a point type. *)
Module TOutlinePoint.

Record t : Type := mk {
  iX : Z;
  iY : Z;
  iType : TPointType.t
}.

(** [TOutlinePoint(const TPoint& aPoint)]: an on-curve point. *)
Definition of_TPoint (aPoint : TPoint) : t :=
  {| iX := TPoint.iX aPoint; iY := TPoint.iY aPoint;
     iType := TPointType.OnCurve |}.

(** [TPoint Point() const] *)
Definition Point (this : t) : TPoint := (iX this, iY this).

(** [operator==] *)
Definition eqb (this aPoint : t) : bool :=
  ((iX this =? iX aPoint)%Z && (iY this =? iY aPoint)%Z
   && TPointType.eqb (iType this) (iType aPoint)).

End TOutlinePoint.

(** [template<class T> class CContourBase]: a vector of points and the
    closed flag.  Indexes are positions in the vector; an operation that
    the source leaves undefined for an index outside the vector returns
    no value. *)
Module CContourBase.

Record t (T : Type) : Type := mk {
  iPoint : list T;
  iClosed : bool
}.
Arguments mk {T} _ _.
Arguments iPoint {T} _.
Arguments iClosed {T} _.

Section Operations.
Context {T : Type}.

(** The newly constructed state: empty and open. *)
Definition init : t T := {| iPoint := []; iClosed := false |}.

(** [size_t Points() const] *)
Definition Points (this : t T) : nat := List.length (iPoint this).

(** [iPoint[aIndex]] *)
Definition PointAt (this : t T) (aIndex : nat) : option T :=
  nth_error (iPoint this) aIndex.

(** [bool Closed() const] *)
Definition Closed (this : t T) : bool := iClosed this.

(** [void SetClosed(bool aClosed)] *)
Definition SetClosed (this : t T) (aClosed : bool) : t T :=
  {| iPoint := iPoint this; iClosed := aClosed |}.

(** [void AppendPointEvenIfSame(const T& aPoint)] *)
Definition AppendPointEvenIfSame (this : t T) (aPoint : T) : t T :=
  {| iPoint := iPoint this ++ [aPoint]; iClosed := iClosed this |}.

(** [void AppendPoints(const T* aPoint,size_t aPoints)] *)
Definition AppendPoints (this : t T) (aPoint : list T) : t T :=
  {| iPoint := iPoint this ++ aPoint; iClosed := iClosed this |}.

(** [void InsertPoint(const T& aPoint,size_t aIndex)]: defined for an
    index up to the number of points. *)
Definition InsertPoint (this : t T) (aPoint : T) (aIndex : nat)
  : option (t T) :=
  if (aIndex <=? Points this)%nat
  then Some {| iPoint := firstn aIndex (iPoint this) ++ aPoint
                         :: skipn aIndex (iPoint this);
               iClosed := iClosed this |}
  else None.

(** [void RemovePoint(size_t aIndex)]: defined for the index of a point. *)
Definition RemovePoint (this : t T) (aIndex : nat) : option (t T) :=
  if (aIndex <? Points this)%nat
  then Some {| iPoint := firstn aIndex (iPoint this)
                         ++ skipn (S aIndex) (iPoint this);
               iClosed := iClosed this |}
  else None.

(** [void RemovePoints(size_t aIndex,size_t aCount)] *)
Definition RemovePoints (this : t T) (aIndex aCount : nat) : option (t T) :=
  if (aIndex + aCount <=? Points this)%nat
  then Some {| iPoint := firstn aIndex (iPoint this)
                         ++ skipn (aIndex + aCount) (iPoint this);
               iClosed := iClosed this |}
  else None.

(** [void Clear()] *)
Definition Clear (this : t T) : t T := {| iPoint := []; iClosed := false |}.

(** [void SetSizeToZero()] *)
Definition SetSizeToZero (this : t T) : t T :=
  {| iPoint := []; iClosed := iClosed this |}.

(** [void Reverse()]: [std::reverse] over the whole vector. *)
Definition Reverse (this : t T) : t T :=
  {| iPoint := rev (iPoint this); iClosed := iClosed this |}.

(** [MContour::LastPoint]: [Point(Points() - 1)]. *)
Definition LastPoint (this : t T) : option T :=
  match iPoint this with
  | [] => None
  | _ :: _ => nth_error (iPoint this) (Points this - 1)
  end.

End Operations.

(** No two neighbouring points of the list are related by [same]. *)
Definition NoRepeat {T : Type} (same : T -> T -> bool) (l : list T) : Prop :=
  forall (i : nat) (a b : T),
    nth_error l i = Some a -> nth_error l (S i) = Some b ->
    same a b = false.

End CContourBase.

(** [class COnCurveContour], a [CContourBase<TPoint>]. *)
Module COnCurveContour.

Definition t : Type := CContourBase.t TPoint.

(** [void AppendPoint(const TOutlinePoint& aPoint)]: appends the point
    unless it is the same as the last one. *)
Definition AppendPoint (this : t) (aPoint : TOutlinePoint.t) : t :=
  match CContourBase.LastPoint this with
  | Some back =>
      if TPoint.eqb (TOutlinePoint.Point aPoint) back then this
      else CContourBase.AppendPointEvenIfSame this
             (TOutlinePoint.Point aPoint)
  | None =>
      CContourBase.AppendPointEvenIfSame this (TOutlinePoint.Point aPoint)
  end.

(** [void AppendPoint(double aX,double aY)] *)
Definition AppendPointXY (this : t) (aX aY : double) : t :=
  CContourBase.AppendPointEvenIfSame this (Round aX, Round aY).

(** [COnCurveContour& operator=(const TRect& aRect)] *)
Definition of_TRect (aRect : TRect.t) : t :=
  {| CContourBase.iPoint :=
       [TRect.iTopLeft aRect; TRect.TopRight aRect;
        TRect.iBottomRight aRect; TRect.BottomLeft aRect];
     CContourBase.iClosed := true |}.

(** [void Offset(int32_t aDx,int32_t aDy)] (without overflow). *)
Definition Offset (this : t) (aDx aDy : Z) : t :=
  {| CContourBase.iPoint :=
       map (fun p => TPoint.add p (aDx, aDy)) (CContourBase.iPoint this);
     CContourBase.iClosed := CContourBase.iClosed this |}.

End COnCurveContour.

(** [class CContour], a [CContourBase<TOutlinePoint>]. *)
Module CContour.

Definition t : Type := CContourBase.t TOutlinePoint.t.

(** [void AppendPoint(const TOutlinePoint& aPoint)]: appends the point
    unless it is on the curve and the same as the last one. *)
Definition AppendPoint (this : t) (aPoint : TOutlinePoint.t) : t :=
  match CContourBase.LastPoint this with
  | Some back =>
      if TPointType.eqb (TOutlinePoint.iType aPoint) TPointType.OnCurve
         && TOutlinePoint.eqb aPoint back
      then this
      else CContourBase.AppendPointEvenIfSame this aPoint
  | None => CContourBase.AppendPointEvenIfSame this aPoint
  end.

End CContour.

(** [class CPathToJunction] *)
Module CPathToJunction.

Record t : Type := mk {
  iPath : CContour.t;
  iStartRoadType : TRoadType;
  iEndRoadType : TRoadType;
  iDistance : double
}.

(** [void Clear()]; the road type [TRoadType::UnknownMajor] is declared
    outside the embedded headers and is a parameter. *)
Definition Clear (UnknownMajor : TRoadType) (this : t) : t :=
  {| iPath := CContourBase.Clear (iPath this);
     iStartRoadType := UnknownMajor;
     iEndRoadType := UnknownMajor;
     iDistance := 0 |}.

(** [void Reverse()] *)
Definition Reverse (this : t) : t :=
  let temp := iStartRoadType this in
  {| iPath := CContourBase.Reverse (iPath this);
     iStartRoadType := iEndRoadType this;
     iEndRoadType := temp;
     iDistance := iDistance this |}.

End CPathToJunction.

(** ** Big-endian integers and array reversal ([cartotype_base.h]) *)

Module BigEndian.

(** The conversions to [uint8_t] and to [int16_t]. *)
Definition uint8 (x : Z) : Z := (x mod 2 ^ 8)%Z.
Definition int16 (x : Z) : Z := ((x + 2 ^ 15) mod 2 ^ 16 - 2 ^ 15)%Z.

(** [inline void WriteBigEndian(int16_t* aP,int16_t aValue)]: the two
    bytes stored at [aP], in the order of their addresses. *)
Definition WriteBigEndian16 (aValue : Z) : Z * Z :=
  (uint8 (Z.shiftr aValue 8), uint8 aValue).

(** [inline int16_t ReadBigEndian(const int16_t* aP)], from the two bytes
    at [aP]. *)
Definition ReadBigEndian16 (bytes : Z * Z) : Z :=
  int16 (Z.lor (Z.shiftl (fst bytes) 8) (snd bytes)).

End BigEndian.

(** [template<class T> inline void Reverse(T* aStart,size_t aLength)] *)
Module ReverseArray.

Section Operations.
Context {T : Type}.

(** The array with the element at an index replaced. *)
Fixpoint SetAt (a : list T) (i : nat) (x : T) : list T :=
  match a, i with
  | [], _ => []
  | _ :: rest, O => x :: rest
  | y :: rest, S k => y :: SetAt rest k x
  end.

(** The body of the loop: the elements at [aStart] and [end] exchanged. *)
Definition Swap (a : list T) (aStart end_ : nat) : list T :=
  match nth_error a aStart, nth_error a end_ with
  | Some x, Some y => SetAt (SetAt a aStart y) end_ x
  | _, _ => a
  end.

(** [while (aStart < end) { swap; aStart++; end--; }] *)
Fixpoint Loop (fuel : nat) (a : list T) (aStart end_ : nat) : list T :=
  match fuel with
  | O => a
  | S k =>
      if (aStart <? end_)%nat
      then Loop k (Swap a aStart end_) (S aStart) (Nat.pred end_)
      else a
  end.

(** The loop runs fewer times than the array has elements. *)
Definition Reverse (a : list T) : list T :=
  if (1 <? List.length a)%nat
  then Loop (List.length a) a 0 (List.length a - 1)
  else a.

End Operations.

End ReverseArray.

(** ** Comparison of tuples ([std::forward_as_tuple]) *)

Module Tuple.

(** [operator<] on a tuple, one element at a time: the first elements
    decide unless neither is less than the other. *)
Definition Less {A B : Type} (ltA : A -> A -> bool) (ltB : B -> B -> bool)
           (a b : A * B) : bool :=
  if ltA (fst a) (fst b) then true
  else if ltA (fst b) (fst a) then false
  else ltB (snd a) (snd b).

(** [operator==] on a tuple. *)
Definition Equal {A B : Type} (eqA : A -> A -> bool) (eqB : B -> B -> bool)
           (a b : A * B) : bool :=
  eqA (fst a) (fst b) && eqB (snd a) (snd b).

(** [false < true] *)
Definition BoolLess (a b : bool) : bool := negb a && b.

(** A strict order that is total up to an equality: it is irreflexive
    and transitive, two values are equal exactly when neither is less
    than the other, and equal values compare alike. *)
Definition TotalOrder {A : Type} (lt eq : A -> A -> bool) : Prop :=
  (forall a, lt a a = false) /\
  (forall a b c, lt a b = true -> lt b c = true -> lt a c = true) /\
  (forall a b, eq a b = negb (lt a b) && negb (lt b a)) /\
  (forall a b c, eq a b = true -> lt b c = true -> lt a c = true) /\
  (forall a b c, lt a b = true -> eq b c = true -> lt a c = true).

End Tuple.

(** [class TPerspectiveParam] ([cartotype_framework.h]) *)
Module TPerspectiveParam.

Record t : Type := mk {
  iPositionDegrees : TPointFP;
  iAutoPosition : bool;
  iHeightInMeters : double;
  iAzimuthDegrees : double;
  iAutoAzimuth : bool;
  iDeclinationDegrees : double;
  iRotationDegrees : double;
  iFieldOfViewDegrees : double
}.

(** The default member initialisers. *)
Definition init : t :=
  {| iPositionDegrees := (0, 0); iAutoPosition := true;
     iHeightInMeters := 0; iAzimuthDegrees := 0; iAutoAzimuth := true;
     iDeclinationDegrees := 30; iRotationDegrees := 0;
     iFieldOfViewDegrees := 22.5 |}.

(** The tuple of the members, in the order of the comparison operators. *)
Definition AsTuple (p : t) :=
  (iPositionDegrees p,
   (iAutoPosition p,
    (iHeightInMeters p,
     (iAzimuthDegrees p,
      (iAutoAzimuth p,
       (iDeclinationDegrees p,
        (iRotationDegrees p, iFieldOfViewDegrees p))))))).

(** [operator==] *)
Definition eqb (this aP : t) : bool :=
  Tuple.Equal TPointFP.eqb
    (Tuple.Equal Bool.eqb
       (Tuple.Equal Qeq_bool
          (Tuple.Equal Qeq_bool
             (Tuple.Equal Bool.eqb
                (Tuple.Equal Qeq_bool (Tuple.Equal Qeq_bool Qeq_bool))))))
    (AsTuple this) (AsTuple aP).

(** [operator!=] *)
Definition neqb (this aP : t) : bool := negb (eqb this aP).

(** [operator<] *)
Definition ltb (this aP : t) : bool :=
  Tuple.Less TPointFP.ltb
    (Tuple.Less Tuple.BoolLess
       (Tuple.Less dlt
          (Tuple.Less dlt
             (Tuple.Less Tuple.BoolLess
                (Tuple.Less dlt (Tuple.Less dlt dlt))))))
    (AsTuple this) (AsTuple aP).

End TPerspectiveParam.

(** ** Simplification of contours ([cartotype_path.h]) *)

Module Simplify.

(** [inline double TriangleArea(const TPoint& aA,const TPoint& aB,
    const TPoint& aC)] *)
Definition TriangleArea (aA aB aC : TPoint) : double :=
  Qabs ((inject_Z (TPoint.iX aA) - inject_Z (TPoint.iX aC))
        * (inject_Z (TPoint.iY aB) - inject_Z (TPoint.iY aA))
        - (inject_Z (TPoint.iX aA) - inject_Z (TPoint.iX aB))
          * (inject_Z (TPoint.iY aC) - inject_Z (TPoint.iY aA))) / 2.

(** The element of the array at an index inside it. *)
Definition Get (a : list TPoint) (i : nat) : TPoint := nth i a (0, 0)%Z.

(** The loop over an open contour; [source], [dest] and [end_] are the
    indexes of the pointers.  The result is the array and [dest]. *)
Fixpoint OpenLoop (fuel : nat) (a : list TPoint) (source dest end_ : nat)
         (cur_area aResolutionArea : double) : list TPoint * nat :=
  match fuel with
  | O => (a, dest)
  | S k =>
      if (source <? end_)%nat
      then
        let cur := cur_area
                   + TriangleArea (Get a (dest - 1)) (Get a source)
                                  (Get a (S source)) in
        if Qle_bool aResolutionArea cur
        then OpenLoop k (ReverseArray.SetAt a dest (Get a source))
                      (S source) (S dest) end_ 0 aResolutionArea
        else OpenLoop k a (S source) dest end_ cur aResolutionArea
      else (a, dest)
  end.

(** The loop over a closed contour. *)
Fixpoint ClosedLoop (fuel : nat) (a : list TPoint)
         (source dest end_ prev : nat)
         (cur_area aResolutionArea : double) : list TPoint * nat :=
  match fuel with
  | O => (a, dest)
  | S k =>
      if (source <? end_)%nat
      then
        let next := if (S source =? end_)%nat then O else S source in
        let cur := cur_area
                   + TriangleArea (Get a prev) (Get a source) (Get a next) in
        if Qle_bool aResolutionArea cur
        then ClosedLoop k (ReverseArray.SetAt a dest (Get a source))
                        (S source) (S dest) end_ dest 0 aResolutionArea
        else ClosedLoop k a (S source) dest end_ prev cur aResolutionArea
      else (a, dest)
  end.

(** [template<class T> size_t SimplifyContour(T* aPointArray,
    size_t aPointCount,bool aClosed,double aResolutionArea)]: the array
    after the call and the returned number of points. *)
Definition SimplifyContour (aPointArray : list TPoint) (aClosed : bool)
           (aResolutionArea : double) : list TPoint * nat :=
  let aPointCount := List.length aPointArray in
  if (aPointCount <? 3)%nat then (aPointArray, aPointCount)
  else if aClosed
  then ClosedLoop aPointCount aPointArray 0 0 aPointCount (aPointCount - 1)
                  0 aResolutionArea
  else
    let '(a, dest) :=
      OpenLoop aPointCount aPointArray 1 1 (aPointCount - 1)
               0 aResolutionArea in
    (ReverseArray.SetAt a dest (Get a (aPointCount - 1)), S dest).

(** The points that remain: the first [count] points of the array. *)
Definition Simplified (aPointArray : list TPoint) (aClosed : bool)
           (aResolutionArea : double) : list TPoint :=
  let '(a, count) :=
    SimplifyContour aPointArray aClosed aResolutionArea in
  firstn count a.

(** [ks] is [l] with some elements left out, the others in order. *)
Inductive Subsequence {T : Type} : list T -> list T -> Prop :=
| Subsequence_nil : Subsequence [] []
| Subsequence_keep (x : T) (ks l : list T) :
    Subsequence ks l -> Subsequence (x :: ks) (x :: l)
| Subsequence_drop (x : T) (ks l : list T) :
    Subsequence ks l -> Subsequence ks (x :: l).

End Simplify.

(* ================================================================== *)
(** * Part II: properties                                              *)
(* ================================================================== *)

(** ** Comparisons on doubles *)

Lemma dgt_spec (a b : double) : reflect (b < a) (dgt a b).
Proof.
  unfold dgt. destruct (Qle_bool a b) eqn:E; constructor.
  - apply Qle_bool_iff in E. lra.
  - apply Qnot_le_lt. intro H. apply Qle_bool_iff in H. congruence.
Qed.

Lemma dlt_spec (a b : double) : reflect (a < b) (dlt a b).
Proof. unfold dlt. apply dgt_spec. Qed.

Lemma Qle_bool_spec (a b : Q) : reflect (a <= b) (Qle_bool a b).
Proof.
  destruct (Qle_bool a b) eqn:E; constructor.
  - now apply Qle_bool_iff.
  - intro H. apply Qle_bool_iff in H. congruence.
Qed.

Lemma dzero_spec (a : double) : reflect (a == 0) (dzero a).
Proof.
  unfold dzero. destruct (Qeq_bool a 0) eqn:E; constructor.
  - now apply Qeq_bool_iff.
  - intro H. apply Qeq_bool_iff in H. congruence.
Qed.

Lemma dgt_true_iff (a b : double) : dgt a b = true <-> b < a.
Proof.
  destruct (dgt_spec a b); split; intro;
    (assumption || discriminate || contradiction || reflexivity).
Qed.

(** Split every comparison of a goal about doubles into its two cases. *)
Ltac dcases :=
  repeat match goal with
    | |- context [dgt ?a ?b] => destruct (dgt_spec a b)
    | |- context [dlt ?a ?b] => destruct (dlt_spec a b)
    | |- context [Qle_bool ?a ?b] => destruct (Qle_bool_spec a b)
    | |- context [dzero ?a] => destruct (dzero_spec a)
    end.

Lemma Qabs_le_iff (a b : Q) : Qabs a <= b <-> - b <= a /\ a <= b.
Proof. apply Qabs_Qle_condition. Qed.

(** ** The rounding of binary64 arithmetic *)

Section Binary64Facts.
Import Binary64.

Lemma pow2_pos (e : Z) : 0 < 2 ^ e.
Proof. apply Qpower_0_lt. reflexivity. Qed.

Lemma pow2_plus (a b : Z) : 2 ^ (a + b) == 2 ^ a * 2 ^ b.
Proof. apply Qpower_plus. discriminate. Qed.

Lemma pow2_le (a b : Z) : (a <= b)%Z -> 2 ^ a <= 2 ^ b.
Proof. intros H. apply Qpower_le_compat_l; [exact H | discriminate]. Qed.

Lemma pow2_lt_inv (a b : Z) : 2 ^ a < 2 ^ b -> (a < b)%Z.
Proof. intros H. apply (Qpower_lt_compat_l_inv 2); [exact H | reflexivity]. Qed.

Lemma pow2_Z (e : Z) : (0 <= e)%Z -> 2 ^ e == inject_Z (2 ^ e).
Proof. intros H. symmetry. apply (Zpower_Qpower 2 e H). Qed.

(** [a / 2^e] scaled back. *)
Lemma scaled (a : Q) (e : Z) : a / 2 ^ e * 2 ^ e == a.
Proof.
  pose proof (pow2_pos e) as P. field. intro E. rewrite E in P.
  now apply Qlt_irrefl in P.
Qed.

Lemma scaled_pow2 (k e : Z) : 2 ^ k / 2 ^ e == 2 ^ (k - e).
Proof.
  pose proof (pow2_pos e) as P.
  assert (E : 2 ^ k == 2 ^ (k - e) * 2 ^ e).
  { rewrite <- pow2_plus. now replace (k - e + e)%Z with k by lia. }
  rewrite E. field. intro Z0. rewrite Z0 in P. now apply Qlt_irrefl in P.
Qed.

Lemma div_le (a b : Q) (e : Z) : a <= b -> a / 2 ^ e <= b / 2 ^ e.
Proof.
  intros H. unfold Qdiv. apply Qmult_le_compat_r; [exact H |].
  apply Qlt_le_weak, Qinv_lt_0_compat, pow2_pos.
Qed.

Lemma div_lt (a b : Q) (e : Z) : a < b -> a / 2 ^ e < b / 2 ^ e.
Proof.
  intros H. unfold Qdiv. apply Qmult_lt_compat_r; [| exact H].
  apply Qinv_lt_0_compat, pow2_pos.
Qed.

(** *** The exponent *)

(** [ilog2 a] is the exponent of the binade of [a]. *)
Lemma ilog2_spec (a : Q) :
  0 < a -> 2 ^ ilog2 a <= a /\ a < 2 ^ (ilog2 a + 1).
Proof.
  intros Pa. destruct a as [n d]. unfold ilog2. cbn [Qnum Qden].
  assert (Pn : (0 < n)%Z).
  { unfold Qlt in Pa. cbn in Pa. lia. }
  set (ln := Z.log2 n). set (ld := Z.log2 (Z.pos d)).
  destruct (Z.log2_spec n Pn) as (Ln & Un). fold ln in Ln, Un.
  destruct (Z.log2_spec (Z.pos d) ltac:(lia)) as (Ld & Ud). fold ld in Ld, Ud.
  assert (Hln : (0 <= ln)%Z) by apply Z.log2_nonneg.
  assert (Hld : (0 <= ld)%Z) by apply Z.log2_nonneg.
  (* n # d = n / d *)
  assert (E : (n # d) * inject_Z (Z.pos d) == inject_Z n).
  { unfold Qeq, Qmult, inject_Z. cbn. lia. }
  assert (Qn1 : 2 ^ ln <= inject_Z n).
  { rewrite pow2_Z by lia. rewrite <- Zle_Qle. exact Ln. }
  assert (Qn2 : inject_Z n < 2 ^ (ln + 1)).
  { rewrite pow2_Z by lia. rewrite <- Zlt_Qlt.
    replace (ln + 1)%Z with (Z.succ ln) by lia. exact Un. }
  assert (Qd1 : 2 ^ ld <= inject_Z (Z.pos d)).
  { rewrite pow2_Z by lia. rewrite <- Zle_Qle. exact Ld. }
  assert (Qd2 : inject_Z (Z.pos d) < 2 ^ (ld + 1)).
  { rewrite pow2_Z by lia. rewrite <- Zlt_Qlt.
    replace (ld + 1)%Z with (Z.succ ld) by lia. exact Ud. }
  (* upper: a < 2^(ln-ld+1) *)
  assert (Up : (n # d) < 2 ^ (ln - ld + 1)).
  { apply (Qmult_lt_r _ _ (2 ^ ld)); [apply pow2_pos |].
    rewrite <- pow2_plus. replace (ln - ld + 1 + ld)%Z with (ln + 1)%Z by lia.
    apply Qle_lt_trans with (inject_Z n); [| exact Qn2].
    rewrite <- E. apply Qmult_le_l; [exact Pa | exact Qd1]. }
  assert (Lo : 2 ^ (ln - ld - 1) <= (n # d)).
  { apply (Qmult_le_r _ _ (2 ^ (ld + 1))); [apply pow2_pos |].
    rewrite <- pow2_plus. replace (ln - ld - 1 + (ld + 1))%Z with ln by lia.
    apply Qle_trans with (inject_Z n); [exact Qn1 |].
    rewrite <- E. apply Qmult_le_l; [exact Pa |]. apply Qlt_le_weak, Qd2. }
  destruct (Qle_bool (2 ^ (ln - ld)) (n # d)) eqn:C.
  - apply Qle_bool_iff in C. split; [exact C | exact Up].
  - split; [exact Lo |].
    replace (ln - ld - 1 + 1)%Z with (ln - ld)%Z by lia.
    apply Qnot_le_lt. intro H. apply Qle_bool_iff in H. congruence.
Qed.

Lemma ilog2_le (a b : Q) : 0 < a -> a <= b -> (ilog2 a <= ilog2 b)%Z.
Proof.
  intros Pa L.
  destruct (ilog2_spec a Pa) as (La & _).
  destruct (ilog2_spec b (Qlt_le_trans _ _ _ Pa L)) as (_ & Ub).
  assert (H : 2 ^ ilog2 a < 2 ^ (ilog2 b + 1)).
  { eapply Qle_lt_trans; [exact La |].
    eapply Qle_lt_trans; [exact L | exact Ub]. }
  apply pow2_lt_inv in H. lia.
Qed.

(** *** Rounding to the nearest integer *)

Lemma nearest_even_cases (m : Q) :
  let f := Qfloor m in
  inject_Z f <= m /\ m < inject_Z f + 1 /\
  ((nearest_even m = f /\ m - inject_Z f <= 1 # 2) \/
   (nearest_even m = (f + 1)%Z /\ 1 # 2 <= m - inject_Z f)).
Proof.
  intro f. pose proof (Qfloor_le m) as L. pose proof (Qlt_floor m) as U.
  fold f in L, U. rewrite inject_Z_plus in U.
  split; [exact L |]. split; [exact U |].
  unfold nearest_even. fold f.
  destruct (Qcompare_spec (m - inject_Z f) (1 # 2)) as [E | E | E].
  - destruct (Z.even f); [left | right]; split; trivial; rewrite E;
      apply Qle_refl.
  - left. split; [reflexivity | now apply Qlt_le_weak].
  - right. split; [reflexivity | now apply Qlt_le_weak].
Qed.

Lemma nearest_even_Z (n : Z) : nearest_even (inject_Z n) = n.
Proof.
  unfold nearest_even. rewrite Qfloor_Z.
  assert (E : inject_Z n - inject_Z n == 0) by ring.
  destruct (Qcompare_spec (inject_Z n - inject_Z n) (1 # 2)) as [H | H | H].
  - rewrite E in H. discriminate H.
  - reflexivity.
  - rewrite E in H. discriminate H.
Qed.

Lemma nearest_even_le (m1 m2 : Q) :
  m1 <= m2 -> (nearest_even m1 <= nearest_even m2)%Z.
Proof.
  intros L.
  pose proof (Qfloor_resp_le m1 m2 L) as F.
  destruct (nearest_even_cases m1) as (L1 & U1 & C1).
  destruct (nearest_even_cases m2) as (L2 & U2 & C2).
  cbv zeta in *.
  destruct (Z.eq_dec (Qfloor m1) (Qfloor m2)) as [E | NE].
  - (* the same floor *)
    unfold nearest_even. rewrite <- E.
    destruct (Qcompare_spec (m1 - inject_Z (Qfloor m1)) (1 # 2))
      as [H1 | H1 | H1];
    destruct (Qcompare_spec (m2 - inject_Z (Qfloor m1)) (1 # 2))
      as [H2 | H2 | H2];
      try lia; try (destruct (Z.even (Qfloor m1)); lia); exfalso; lra.
  - assert (S : (Qfloor m1 + 1 <= Qfloor m2)%Z) by lia.
    destruct C1 as [(-> & _) | (-> & _)], C2 as [(-> & _) | (-> & _)]; lia.
Qed.

Lemma nearest_even_ge (m : Q) (n : Z) :
  inject_Z n <= m -> (n <= nearest_even m)%Z.
Proof. intros H. rewrite <- (nearest_even_Z n). now apply nearest_even_le. Qed.

Lemma nearest_even_le_Z (m : Q) (n : Z) :
  m <= inject_Z n -> (nearest_even m <= n)%Z.
Proof. intros H. rewrite <- (nearest_even_Z n). now apply nearest_even_le. Qed.

(** *** Rounding a positive number *)

Lemma round_positive_nonneg (a : Q) : 0 < a -> 0 <= round_positive a.
Proof.
  intros Pa. unfold round_positive. cbv zeta.
  apply Qmult_le_0_compat; [| apply Qlt_le_weak, pow2_pos].
  rewrite <- (Zle_Qle 0). apply nearest_even_ge.
  apply Qlt_le_weak. unfold Qdiv. apply Qmult_lt_0_compat; [exact Pa |].
  apply Qinv_lt_0_compat, pow2_pos.
Qed.

(** Two positive numbers with the same exponent are rounded on the same
    grid; otherwise a power of two lies between them, and neither is
    rounded across it. *)
Lemma round_positive_le (a b : Q) :
  0 < a -> a <= b -> round_positive a <= round_positive b.
Proof.
  intros Pa L.
  assert (Pb : 0 < b) by (eapply Qlt_le_trans; eassumption).
  pose proof (ilog2_le a b Pa L) as I.
  unfold round_positive. cbv zeta.
  assert (E : (ulp_exponent a <= ulp_exponent b)%Z)
    by (unfold ulp_exponent; lia).
  destruct (Z.eq_dec (ulp_exponent a) (ulp_exponent b)) as [Eq | NE].
  - rewrite Eq. apply Qmult_le_compat_r; [| apply Qlt_le_weak, pow2_pos].
    rewrite <- Zle_Qle. apply nearest_even_le. now apply div_le.
  - (* a power of two lies between them *)
    set (k := ilog2 b).
    assert (Eb : ulp_exponent b = (k - 52)%Z)
      by (unfold ulp_exponent in *; lia).
    assert (Ia : (ilog2 a + 1 <= k)%Z) by (unfold ulp_exponent in *; lia).
    assert (Ea : (ulp_exponent a <= k - 53)%Z)
      by (unfold ulp_exponent in *; lia).
    destruct (ilog2_spec a Pa) as (_ & Ua).
    destruct (ilog2_spec b Pb) as (Lb & _). fold k in Lb.
    apply Qle_trans with (2 ^ k).
    + set (ea := ulp_exponent a) in *.
      assert (P : 2 ^ k == inject_Z (2 ^ (k - ea)) * 2 ^ ea).
      { rewrite <- pow2_Z by lia. rewrite <- pow2_plus.
        now replace (k - ea + ea)%Z with k by lia. }
      rewrite P. apply Qmult_le_compat_r; [| apply Qlt_le_weak, pow2_pos].
      rewrite <- Zle_Qle. apply nearest_even_le_Z.
      rewrite <- pow2_Z by lia. rewrite <- scaled_pow2.
      apply div_le. apply Qlt_le_weak.
      eapply Qlt_le_trans; [exact Ua | now apply pow2_le].
    + rewrite Eb.
      assert (P : 2 ^ k == inject_Z (2 ^ 52) * 2 ^ (k - 52)).
      { rewrite <- pow2_Z by lia. rewrite <- pow2_plus.
        now replace (52 + (k - 52))%Z with k by lia. }
      rewrite P at 1. apply Qmult_le_compat_r; [| apply Qlt_le_weak, pow2_pos].
      rewrite <- Zle_Qle. apply nearest_even_ge.
      rewrite <- pow2_Z by lia.
      assert (S : 2 ^ 52 == 2 ^ k / 2 ^ (k - 52)).
      { rewrite scaled_pow2. now replace (k - (k - 52))%Z with 52%Z by lia. }
      rewrite S. now apply div_le.
Qed.

(** The rounded value is within half a unit of the last place. *)
Lemma round_positive_near (a : Q) :
  0 < a ->
  Qabs (round_positive a - a) <= 2 ^ (ulp_exponent a - 1).
Proof.
  intros Pa. unfold round_positive. cbv zeta.
  set (e := ulp_exponent a). set (m := a / 2 ^ e).
  assert (Em : a == m * 2 ^ e) by (unfold m; now rewrite scaled).
  assert (Eh : 2 ^ (e - 1) == (1 # 2) * 2 ^ e).
  { replace (e - 1)%Z with (-1 + e)%Z by lia. rewrite pow2_plus. reflexivity. }
  pose proof (pow2_pos e) as Pe.
  destruct (nearest_even_cases m) as (L & U & C). cbv zeta in *.
  assert (D : - (1 # 2) <= inject_Z (nearest_even m) - m <= 1 # 2).
  { destruct C as [(-> & H) | (-> & H)];
      [| rewrite inject_Z_plus; change (inject_Z 1) with 1]; split; lra. }
  rewrite Eh, Em at 1.
  setoid_replace (inject_Z (nearest_even m) * 2 ^ e - m * 2 ^ e)
    with ((inject_Z (nearest_even m) - m) * 2 ^ e) by ring.
  rewrite Qabs_Qmult, (Qabs_pos (2 ^ e)) by lra.
  apply Qmult_le_compat_r; [| lra].
  apply Qabs_Qle_condition. exact D.
Qed.

(** *** Rounding *)

(** Rounding never reverses the order of two numbers. *)
Lemma round_le (x y : Q) : x <= y -> round x <= round y.
Proof.
  intros L. unfold round.
  destruct (Qcompare_spec x 0) as [Ex | Nx | Px];
  destruct (Qcompare_spec y 0) as [Ey | Ny | Py];
    try (exfalso; lra).
  - apply Qle_refl.
  - now apply round_positive_nonneg.
  - assert (H : 0 <= round_positive (- x))
      by (apply round_positive_nonneg; lra).
    lra.
  - assert (H : round_positive (- y) <= round_positive (- x))
      by (apply round_positive_le; lra). lra.
  - assert (H : 0 <= round_positive (- x))
      by (apply round_positive_nonneg; lra).
    assert (H' : 0 <= round_positive y)
      by (now apply round_positive_nonneg).
    lra.
  - now apply round_positive_le.
Qed.

(** Rounding is symmetric about zero. *)
Lemma round_opp (x : Q) : round (- x) == - round x.
Proof.
  unfold round.
  destruct (Qcompare_spec x 0) as [Ex | Nx | Px];
  destruct (Qcompare_spec (- x) 0) as [Ey | Ny | Py];
    try (exfalso; lra); try reflexivity.
  - ring.
  - assert (E : - - x = x).
    { destruct x as [n d]. unfold Qopp. cbn. now rewrite Z.opp_involutive. }
    rewrite E. reflexivity.
Qed.

End Binary64Facts.

(** ** Turn classification *)

Section TurnClassification.
Import TTurn.

Example SetTurnAngle_100 :
  iTurnType (SetTurnAngle init 100) = TTurnType.Right.
Proof. reflexivity. Qed.

Example SetTurnAngle_15 :
  iTurnType (SetTurnAngle init 15) = TTurnType.Ahead.
Proof. reflexivity. Qed.

Example SetTurnAngle_m15 :
  iTurnType (SetTurnAngle init (-15)) = TTurnType.BearLeft.
Proof. reflexivity. Qed.

Lemma SetTurnAngle_type (this : t) (a : double) :
  iTurnType (SetTurnAngle this a) = TurnTypeOfAngle a.
Proof. reflexivity. Qed.

Lemma SetTurnAngle_angle (this : t) (a : double) :
  iTurnAngle (SetTurnAngle this a) = a.
Proof. reflexivity. Qed.

(** The type chosen for an angle does not depend on how the angle is
    written as a fraction. *)
Lemma TurnTypeOfAngle_Qeq (a b : double) :
  a == b -> TurnTypeOfAngle a = TurnTypeOfAngle b.
Proof.
  intro E. unfold TurnTypeOfAngle. dcases; try reflexivity; exfalso; lra.
Qed.

(** The code's intervals, on the signed angle: each one is open below
    and closed above. *)
Lemma TurnTypeOfAngle_intervals (a : double) :
  (TurnTypeOfAngle a = TTurnType.SharpRight <-> 120 < a) /\
  (TurnTypeOfAngle a = TTurnType.Right <-> 45 < a <= 120) /\
  (TurnTypeOfAngle a = TTurnType.BearRight <-> 15 < a <= 45) /\
  (TurnTypeOfAngle a = TTurnType.Ahead <-> -15 < a <= 15) /\
  (TurnTypeOfAngle a = TTurnType.BearLeft <-> -45 < a <= -15) /\
  (TurnTypeOfAngle a = TTurnType.Left <-> -120 < a <= -45) /\
  (TurnTypeOfAngle a = TTurnType.SharpLeft <-> a <= -120).
Proof.
  unfold TurnTypeOfAngle. dcases;
    repeat split; intros; try discriminate; try reflexivity; try lra.
Qed.

Lemma TurnTypeOfAngle_not_around (a : double) :
  TurnTypeOfAngle a <> TTurnType.Around /\
  TurnTypeOfAngle a <> TTurnType.None.
Proof. unfold TurnTypeOfAngle. dcases; split; discriminate. Qed.

(** Away from the three negative thresholds the code agrees with the
    documented thresholds on the size of the angle. *)
Lemma TurnTypeOfAngle_documented (a : double) :
  -180 <= a <= 180 ->
  ~ a == -15 -> ~ a == -45 -> ~ a == -120 ->
  TurnTypeOfAngle a = DocumentedTurnType a.
Proof.
  intros R N1 N2 N3. unfold TurnTypeOfAngle, DocumentedTurnType.
  dcases; repeat match goal with
                 | H : context [Qabs _ <= _] |- _ => rewrite Qabs_le_iff in H
                 end;
    try reflexivity; exfalso; lra.
Qed.

(** C1, as stated, fails at the negative thresholds: -15 degrees lies in
    (-180,180] and the documented thresholds make it ahead, but the code
    classifies it as bear left; likewise -45 gives left where bear left
    is documented, and -120 gives sharp left where left is documented. *)
Lemma SetTurnAngle_thresholds_counterexample :
  (-180 < -15 /\ -15 <= 180) /\
  DocumentedTurnType (-15) = TTurnType.Ahead /\
  iTurnType (SetTurnAngle init (-15)) = TTurnType.BearLeft /\
  DocumentedTurnType (-45) = TTurnType.BearLeft /\
  iTurnType (SetTurnAngle init (-45)) = TTurnType.Left /\
  DocumentedTurnType (-120) = TTurnType.Left /\
  iTurnType (SetTurnAngle init (-120)) = TTurnType.SharpLeft.
Proof. repeat split; (reflexivity || lra). Qed.

(** C1 (amended).  For every turn angle [a] in (-180,180],
    [SetTurn(double)] classifies by the signed angle with intervals open
    below and closed above: (-15,15] ahead, (15,45] bear right, (45,120]
    right, (120,180] sharp right, (-45,-15] bear left, (-120,-45] left,
    (-180,-120] sharp left; it never gives around or none.  This is the
    documented classification by the size of the angle everywhere except
    at -15, -45 and -120, which fall in the bucket of the larger turn
    (bear left, left, sharp left). *)
Theorem SetTurnAngle_thresholds (this : t) (a : double) :
  -180 < a <= 180 ->
  let ty := iTurnType (SetTurnAngle this a) in
  (ty = TTurnType.Ahead <-> -15 < a <= 15) /\
  (ty = TTurnType.BearRight <-> 15 < a <= 45) /\
  (ty = TTurnType.Right <-> 45 < a <= 120) /\
  (ty = TTurnType.SharpRight <-> 120 < a <= 180) /\
  (ty = TTurnType.BearLeft <-> -45 < a <= -15) /\
  (ty = TTurnType.Left <-> -120 < a <= -45) /\
  (ty = TTurnType.SharpLeft <-> -180 < a <= -120) /\
  ty <> TTurnType.Around /\
  ty <> TTurnType.None /\
  (~ a == -15 -> ~ a == -45 -> ~ a == -120 -> ty = DocumentedTurnType a) /\
  (a == -15 -> ty = TTurnType.BearLeft) /\
  (a == -45 -> ty = TTurnType.Left) /\
  (a == -120 -> ty = TTurnType.SharpLeft).
Proof.
  intros R ty. subst ty. rewrite SetTurnAngle_type.
  destruct (TurnTypeOfAngle_intervals a)
    as (HSR & HR & HBR & HA & HBL & HL & HSL).
  destruct (TurnTypeOfAngle_not_around a) as (NA & NN).
  repeat match goal with |- _ /\ _ => split end;
    try assumption.
  - rewrite HSR. lra.
  - rewrite HSL. lra.
  - intros. apply TurnTypeOfAngle_documented; trivial. lra.
  - intro E. apply HBL. lra.
  - intro E. apply HL. lra.
  - intro E. apply HSL. lra.
Qed.

Lemma SetTurnAngle_thresholds_witness :
  iTurnType (SetTurnAngle init (-15)) = TTurnType.BearLeft.
Proof.
  assert (R : -180 < -15 <= 180) by lra.
  pose proof (SetTurnAngle_thresholds init (-15) R) as H. cbv zeta in H.
  apply H. reflexivity.
Defined.

(** *** The turn angle of the seven-argument [SetTurn] *)

Lemma SetTurn_angle (this : t) (i o : double) (c l r : Z) (f off : bool) :
  iTurnAngle (SetTurn this i o c l r f off) = turn_angle i o.
Proof. reflexivity. Qed.

Example SetTurn_angle_350_10 :
  iTurnAngle (SetTurn init 350 10 0 0 0 false false) == -20.
Proof. reflexivity. Qed.

Lemma turn_angle_range (i o : double) :
  -540 <= i - o <= 540 ->
  -180 <= turn_angle i o <= 180 /\
  (turn_angle i o == i - o \/
   turn_angle i o == i - o - 360 \/
   turn_angle i o == i - o + 360).
Proof.
  intro R. unfold turn_angle. cbv zeta. dcases; split; lra.
Qed.

(** In exact arithmetic the stored angle is the difference shifted by
    -360, 0 or 360; for a difference in [-540,540] it lies in [-180,180],
    and it is -180 only for a difference of exactly -180 or -540. *)
Lemma SetTurn_angle_exact
      (this : t) (i o : double) (c l r : Z) (f off : bool) :
  -540 <= i - o <= 540 ->
  let a := iTurnAngle (SetTurn this i o c l r f off) in
  -180 <= a <= 180 /\
  (a == i - o \/ a == i - o - 360 \/ a == i - o + 360) /\
  (~ i - o == -180 -> ~ i - o == -540 -> -180 < a) /\
  (i - o == -180 \/ i - o == -540 -> a == -180).
Proof.
  intros R a. subst a. rewrite SetTurn_angle.
  destruct (turn_angle_range i o R) as (B & S).
  split; [exact B|]. split; [exact S|]. split.
  - intros N1 N2. unfold turn_angle in *. cbv zeta in *.
    revert B S. dcases; intros; lra.
  - intros E. unfold turn_angle in *. cbv zeta in *.
    revert B S. dcases; intros; lra.
Qed.

(** With no rounding the rounded [SetTurn] is the exact one. *)
Lemma Rounded_SetTurn_exact
      (this : t) (i o : double) (c l r : Z) (f off : bool) :
  Rounded.SetTurn (fun x => x) this i o c l r f off
  = SetTurn this i o c l r f off.
Proof. reflexivity. Qed.

Lemma Rounded_SetTurn_angle (rnd : double -> double)
      (this : t) (i o : double) (c l r : Z) (f off : bool) :
  iTurnAngle (Rounded.SetTurn rnd this i o c l r f off)
  = Rounded.turn_angle rnd i o.
Proof. reflexivity. Qed.

(** The doubles nearest to 0.1 and to 180.1 differ by a little less than
    180, and their difference rounds to -180: the binary64 [SetTurn]
    stores exactly -180 for them, where exact arithmetic stores a value
    just above it. *)
Example SetTurn_rounds_to_m180 :
  let i := Binary64.round 0.1 in
  let o := Binary64.round 180.1 in
  -180 < i - o /\
  iTurnAngle (Rounded.SetTurn Binary64.round init i o 0 0 0 false false)
  == -180 /\
  -180 < iTurnAngle (SetTurn init i o 0 0 0 false false).
Proof.
  cbv zeta. split; [| split].
  - vm_compute. reflexivity.
  - vm_compute. reflexivity.
  - vm_compute. reflexivity.
Qed.

(** C2, as stated, fails.  With an incoming bearing of 0 and an outgoing
    bearing of 180 the difference -180 is not below -180, so it is
    stored unchanged and lies outside (-180,180]; and for bearings 720
    and 0 the single correction by 360 leaves 360.  (All the numbers
    here are doubles and the operations on them are exact.) *)
Lemma SetTurn_angle_counterexample :
  iTurnAngle (Rounded.SetTurn Binary64.round init 0 180 0 0 0 false false)
  == -180 /\
  ~ (-180 < iTurnAngle
              (Rounded.SetTurn Binary64.round init 0 180 0 0 0 false false))
  /\
  iTurnAngle (Rounded.SetTurn Binary64.round init 720 0 0 0 0 false false)
  == 360 /\
  ~ (iTurnAngle
       (Rounded.SetTurn Binary64.round init 720 0 0 0 0 false false)
     <= 180).
Proof.
  assert (E1 : iTurnAngle (Rounded.SetTurn Binary64.round init 0 180
                             0 0 0 false false) == -180)
    by (vm_compute; reflexivity).
  assert (E2 : iTurnAngle (Rounded.SetTurn Binary64.round init 720 0
                             0 0 0 false false) == 360)
    by (vm_compute; reflexivity).
  split; [exact E1 |]. split; [rewrite E1; lra |].
  split; [exact E2 |]. rewrite E2. lra.
Qed.

Section RoundedTurnAngle.

(** The rounding of the arithmetic: it never reverses the order of two
    results, and it leaves 180 and -180, which are doubles, as they
    are. *)
Variable rnd : double -> double.
Hypothesis rnd_le : forall x y : double, x <= y -> rnd x <= rnd y.
Hypothesis rnd_180 : rnd 180 == 180.
Hypothesis rnd_m180 : rnd (-180) == -180.

(** C2 (amended).  Let [d] be the difference of the incoming and the
    outgoing bearing as the subtraction computes it.  [SetTurn] stores
    [d - 360] when [d] is greater than 180, [d + 360] when [d] is less
    than -180, and [d] itself otherwise (the subtraction and the addition
    computed in the same way).  When [d] lies in [-540,540] (as for any
    two bearings in [0,360], or in [-180,180]) the stored angle lies in
    the closed interval [-180,180]. *)
Theorem SetTurn_angle_normalized
        (this : t) (i o : double) (c l r : Z) (f off : bool) :
  let d := rnd (i - o) in
  -540 <= d <= 540 ->
  let a := iTurnAngle (Rounded.SetTurn rnd this i o c l r f off) in
  -180 <= a <= 180 /\
  (180 < d -> a = rnd (d - 360)) /\
  (d < -180 -> a = rnd (d + 360)) /\
  (-180 <= d <= 180 -> a = d).
Proof.
  intros d R a. subst a. rewrite Rounded_SetTurn_angle.
  unfold Rounded.turn_angle. fold d. cbv zeta.
  assert (Hi : 180 < d -> -180 <= rnd (d - 360) <= 180).
  { intros H. split.
    - rewrite <- rnd_m180. apply rnd_le. lra.
    - rewrite <- rnd_180. apply rnd_le. lra. }
  assert (Lo : d < -180 -> -180 <= rnd (d + 360) <= 180).
  { intros H. split.
    - rewrite <- rnd_m180. apply rnd_le. lra.
    - rewrite <- rnd_180. apply rnd_le. lra. }
  destruct (dgt_spec d 180) as [G | G].
  - split; [now apply Hi |]. split; [reflexivity |].
    split; intro; exfalso; lra.
  - destruct (dlt_spec d (-180)) as [L | L].
    + split; [now apply Lo |]. split; [intro; exfalso; lra |].
      split; [reflexivity | intro; exfalso; lra].
    + split; [lra |]. split; [intro; exfalso; lra |].
      split; [intro; exfalso; lra | reflexivity].
Qed.

End RoundedTurnAngle.

Lemma SetTurn_angle_normalized_witness :
  -180 <= iTurnAngle (Rounded.SetTurn Binary64.round init
                        (Binary64.round 0.1) (Binary64.round 180.1)
                        3 1 1 false false) <= 180.
Proof.
  refine (proj1 (SetTurn_angle_normalized Binary64.round round_le _ _
                   init (Binary64.round 0.1) (Binary64.round 180.1)
                   3 1 1 false false _)).
  - vm_compute. reflexivity.
  - vm_compute. reflexivity.
  - split; apply Qle_bool_iff; vm_compute; reflexivity.
Defined.

(** *** The override of an ahead turn *)

Lemma override_true_iff (ty : TTurnType.t) (c : Z) (f off : bool) :
  override ty c f off = true <->
  ty = TTurnType.Ahead /\ (off = true \/ (f = true /\ c = 2%Z)).
Proof.
  unfold override.
  rewrite andb_true_iff, orb_true_iff, andb_true_iff, Z.eqb_eq.
  split; intros (H1 & H2); split; trivial.
  - destruct ty; simpl in H1; try discriminate; reflexivity.
  - subst ty. reflexivity.
Qed.

Lemma SetTurn_type (this : t) (i o : double) (c l r : Z) (f off : bool) :
  iTurnType (SetTurn this i o c l r f off) =
  if override (TurnTypeOfAngle (turn_angle i o)) c f off
  then (if (l =? 0)%Z then TTurnType.BearLeft else TTurnType.BearRight)
  else TurnTypeOfAngle (turn_angle i o).
Proof. reflexivity. Qed.

Example SetTurn_fork_left :
  iTurnType (SetTurn init 90 85 2 0 1 true false) = TTurnType.BearLeft.
Proof. reflexivity. Qed.

Example SetTurn_fork_right :
  iTurnType (SetTurn init 90 85 2 1 0 true false) = TTurnType.BearRight.
Proof. reflexivity. Qed.

(** C3, as stated, fails.  At a turn-off with four choices, one
    alternative on the left and two on the right, more alternatives lie
    to the right, so bear left is documented; the code tests only
    whether there is a left alternative and gives bear right.  With no
    alternative on either side the code gives bear left. *)
Lemma SetTurn_override_counterexample :
  TurnTypeOfAngle (turn_angle 90 90) = TTurnType.Ahead /\
  DocumentedOverride 1 2 = Some TTurnType.BearLeft /\
  iTurnType (SetTurn init 90 90 4 1 2 false true) = TTurnType.BearRight /\
  iTurnType (SetTurn init 90 90 1 0 0 false true) = TTurnType.BearLeft.
Proof. repeat split. Qed.

(** C3 (amended).  Whenever the angle-based classification is ahead and
    either the turn-off flag is set, or the fork flag is set and the
    number of choices is 2, [SetTurn] reclassifies the turn as bear
    right when the number of left alternatives is not zero and as bear
    left when it is zero.  For non-negative counts this gives bear right
    whenever more alternatives lie to the left, and it agrees with the
    side that has more alternatives whenever there is exactly one
    alternative. *)
Theorem SetTurn_override
        (this : t) (i o : double) (c l r : Z) (f off : bool) :
  TurnTypeOfAngle (turn_angle i o) = TTurnType.Ahead ->
  off = true \/ (f = true /\ c = 2%Z) ->
  let ty := iTurnType (SetTurn this i o c l r f off) in
  (l <> 0%Z -> ty = TTurnType.BearRight) /\
  (l = 0%Z -> ty = TTurnType.BearLeft) /\
  ((0 <= r < l)%Z -> ty = TTurnType.BearRight) /\
  ((0 <= l)%Z -> (0 <= r)%Z -> (l + r = 1)%Z ->
   DocumentedOverride l r = Some ty).
Proof.
  intros HA HC ty. subst ty. rewrite SetTurn_type.
  assert (O : override (TurnTypeOfAngle (turn_angle i o)) c f off = true)
    by (apply override_true_iff; auto).
  rewrite O. unfold DocumentedOverride.
  repeat split; intros.
  - destruct (Z.eqb_spec l 0); [contradiction | reflexivity].
  - destruct (Z.eqb_spec l 0); [reflexivity | contradiction].
  - destruct (Z.eqb_spec l 0); [lia | reflexivity].
  - destruct (Z.eqb_spec l 0), (Z.ltb_spec r l), (Z.ltb_spec l r);
      try reflexivity; lia.
Qed.

Lemma SetTurn_override_witness :
  iTurnType (SetTurn init 90 85 2 1 0 true false) = TTurnType.BearRight.
Proof.
  refine (proj1 (SetTurn_override init 90 85 2 1 0 true false _ _) _).
  - reflexivity.
  - right. split; reflexivity.
  - discriminate.
Defined.

(** *** Around *)

Lemma DocumentedUTurn_iff (a : double) :
  DocumentedUTurn a = true <->
  (168.25 <= a <= 180 \/ -180 <= a <= -168.25).
Proof.
  unfold DocumentedUTurn. rewrite andb_true_iff, !Qle_bool_iff.
  rewrite Qabs_le_iff.
  destruct (Qlt_le_dec a 0) as [N | P].
  - rewrite (Qabs_neg a) by lra. split; intros; lra.
  - rewrite (Qabs_pos a) by lra. split; intros; lra.
Qed.

(** C4, as stated, fails.  The angle 180 is a U-turn in the documented
    sense, and so is -170, but the code classifies them as sharp right
    and sharp left, not as around. *)
Lemma SetTurn_around_counterexample :
  DocumentedUTurn 180 = true /\
  iTurnType (SetTurnAngle init 180) = TTurnType.SharpRight /\
  DocumentedUTurn (-170) = true /\
  iTurnType (SetTurnAngle init (-170)) = TTurnType.SharpLeft /\
  iTurnType (SetTurn init 180 0 2 0 1 false false) = TTurnType.SharpRight.
Proof. repeat split. Qed.

(** C4 (amended).  Neither [SetTurn] function ever produces around: an
    angle within 11.75 degrees of 180 degrees is classified as sharp
    right or sharp left.  For every angle the classification made by
    [SetTurn(double)] is a function of the angle alone, and the
    classification made by the seven-argument [SetTurn] differs from it
    only by the fork and turn-off override, which replaces ahead by bear
    left or bear right. *)
Theorem SetTurn_never_around
        (this this' : t) (a i o : double) (c l r : Z) (f off : bool) :
  let ty := iTurnType (SetTurn this i o c l r f off) in
  let ty_angle := iTurnType (SetTurnAngle this' (turn_angle i o)) in
  iTurnType (SetTurnAngle this a) <> TTurnType.Around /\
  ty <> TTurnType.Around /\
  (DocumentedUTurn a = true ->
   iTurnType (SetTurnAngle this a) = TTurnType.SharpRight \/
   iTurnType (SetTurnAngle this a) = TTurnType.SharpLeft) /\
  iTurnType (SetTurnAngle this a) = iTurnType (SetTurnAngle this' a) /\
  (ty <> ty_angle ->
   ty_angle = TTurnType.Ahead /\
   (off = true \/ (f = true /\ c = 2%Z)) /\
   (ty = TTurnType.BearLeft \/ ty = TTurnType.BearRight)) /\
  (ty_angle <> TTurnType.Ahead -> ty = ty_angle).
Proof.
  intros ty ty_angle. subst ty ty_angle.
  rewrite SetTurn_type, !SetTurnAngle_type.
  pose proof (TurnTypeOfAngle_not_around a) as (NA & _).
  pose proof (TurnTypeOfAngle_not_around (turn_angle i o)) as (NA' & _).
  destruct (TurnTypeOfAngle_intervals a) as (HSR & _ & _ & _ & _ & _ & HSL).
  split; [exact NA|].
  destruct (override (TurnTypeOfAngle (turn_angle i o)) c f off) eqn:O.
  - apply override_true_iff in O. destruct O as (HA & HC).
    repeat split; trivial.
    + destruct (l =? 0)%Z; discriminate.
    + intro U. apply DocumentedUTurn_iff in U.
      destruct U; [left; apply HSR | right; apply HSL]; lra.
    + destruct (l =? 0)%Z; [left | right]; reflexivity.
    + intro N. contradiction.
  - repeat split; trivial; try congruence.
    intro U. apply DocumentedUTurn_iff in U.
    destruct U; [left; apply HSR | right; apply HSL]; lra.
Qed.

Lemma SetTurn_never_around_witness :
  iTurnType (SetTurnAngle init 175) = TTurnType.SharpRight \/
  iTurnType (SetTurnAngle init 175) = TTurnType.SharpLeft.
Proof.
  pose proof (SetTurn_never_around init init 175 90 85 2 1 0 true false)
    as H.
  cbv zeta in H. destruct H as (_ & _ & H & _). apply H. reflexivity.
Defined.

End TurnClassification.

(** ** Bits of a [uint32_t] *)

Section Bits32.
Local Open Scope Z_scope.

Lemma KArcOtherAccessFlag_pow2 : KArcOtherAccessFlag = 2 ^ 31.
Proof. reflexivity. Qed.

Lemma not32_KArcOtherAccessFlag : not32 KArcOtherAccessFlag = Z.ones 31.
Proof. reflexivity. Qed.

Lemma uint32_high_bits (x i : Z) :
  0 <= x < 2 ^ 32 -> 32 <= i -> Z.testbit x i = false.
Proof.
  intros R Hi. rewrite <- (Z.mod_small x (2 ^ 32)) by exact R.
  apply Z.mod_pow2_bits_high. lia.
Qed.

Lemma uint32_of_bits (x : Z) :
  0 <= x -> (forall i, 32 <= i -> Z.testbit x i = false) ->
  0 <= x < 2 ^ 32.
Proof.
  intros Hx Hb. split; [exact Hx|].
  assert (E : x = x mod 2 ^ 32).
  { apply Z.bits_inj'. intros i Hi.
    destruct (Z.lt_ge_cases i 32) as [L | G].
    - now rewrite Z.mod_pow2_bits_low by lia.
    - rewrite Z.mod_pow2_bits_high by lia. now apply Hb. }
  rewrite E. apply Z.mod_pos_bound. lia.
Qed.

Lemma land_pow2 (x n : Z) :
  0 <= n -> Z.land x (2 ^ n) = if Z.testbit x n then 2 ^ n else 0.
Proof.
  intro Hn. apply Z.bits_inj'. intros m Hm.
  rewrite Z.land_spec, Z.pow2_bits_eqb by exact Hn.
  destruct (Z.eqb_spec n m) as [-> | N].
  - destruct (Z.testbit x m); simpl.
    + rewrite Z.pow2_bits_eqb by exact Hm. now rewrite Z.eqb_refl.
    + now rewrite Z.bits_0.
  - rewrite andb_false_r. destruct (Z.testbit x n).
    + rewrite Z.pow2_bits_eqb by exact Hn.
      symmetry. now apply Z.eqb_neq.
    + now rewrite Z.bits_0.
Qed.

Lemma testbit_set_flag (x n i : Z) :
  0 <= n ->
  Z.testbit (Z.lor x (2 ^ n)) i = Z.testbit x i || (n =? i).
Proof.
  intro Hn. now rewrite Z.lor_spec, Z.pow2_bits_eqb by exact Hn.
Qed.

Lemma testbit_clear_flag (x i : Z) :
  0 <= x < 2 ^ 32 ->
  Z.testbit (Z.land x (Z.ones 31)) i = Z.testbit x i && negb (31 =? i).
Proof.
  intro R. rewrite Z.land_spec.
  destruct (Z.lt_ge_cases i 0) as [N | P].
  - now rewrite !Z.testbit_neg_r by exact N.
  - rewrite Z.testbit_ones by lia.
    destruct (Z.eqb_spec 31 i) as [<- | D]; [reflexivity|].
    destruct (Z.lt_ge_cases i 31) as [L | G].
    + assert (Z.leb 0 i = true) as -> by (apply Z.leb_le; lia).
      assert (Z.ltb i 31 = true) as -> by (apply Z.ltb_lt; lia).
      reflexivity.
    + rewrite (uint32_high_bits x i R) by lia. reflexivity.
Qed.

End Bits32.

(** ** [TVehicleType::Normalize] *)

Section VehicleType.
Import TVehicleType.

Example Normalize_init : Normalize init = init.
Proof. reflexivity. Qed.

Example Normalize_heavy :
  iAccessFlags (Normalize Lorry) = 0x80900000%Z /\
  iHeight (Normalize Lorry) = Double.zero /\
  iWeight (Normalize Lorry) = Double.Finite 7.5.
Proof. repeat split. Qed.

(** What [if (x < 0) x = 0;] leaves: a NaN stays a NaN, since the test is
    false for it; any other value ends greater than or equal to zero. *)
Lemma ZeroIfNegative_nonneg (x : Double.t) :
  Double.IsNaN (ZeroIfNegative x) = Double.IsNaN x /\
  (Double.IsNaN x = false ->
   Double.geb (ZeroIfNegative x) Double.zero = true).
Proof.
  unfold ZeroIfNegative.
  destruct x as [| | q |]; cbn; try (split; [reflexivity | ]);
    try (intros _; reflexivity); try (intro; discriminate).
  unfold Double.ltb, Double.zero. destruct (dlt_spec q 0) as [N | P]; cbn.
  - split; [reflexivity | intros _; reflexivity].
  - split; [reflexivity | intros _].
    destruct (Qle_bool_spec 0 q) as [H | H]; [reflexivity | exfalso; lra].
Qed.

Lemma DetailsGiven_iff (v : t) :
  DetailsGiven v = true <->
  (Exists (fun x => Double.gtb x Double.zero = true) (Dimensions v) \/
   iHazMat v = true).
Proof.
  unfold DetailsGiven, Dimensions. rewrite !orb_true_iff.
  rewrite !Exists_cons, Exists_nil. tauto.
Qed.

Lemma HasFlag_other (v : t) :
  HasFlag v KArcOtherAccessFlag = Z.testbit (iAccessFlags v) 31.
Proof.
  unfold HasFlag. rewrite KArcOtherAccessFlag_pow2, land_pow2 by lia.
  destruct (Z.testbit (iAccessFlags v) 31); reflexivity.
Qed.

(** What [Normalize] does for every vehicle type.  Afterwards
    [KArcOtherAccessFlag] is set in [iAccessFlags] if and only if on
    entry one of the seven weights and dimensions was greater than zero
    or [iHazMat] was true; no other bit of [iAccessFlags] is changed (the
    flag word stays a [uint32_t]); and each of the seven numeric members
    that is not a NaN is greater than or equal to zero, while a NaN stays
    a NaN. *)
Lemma Normalize_vehicle_type (v : t) :
  (0 <= iAccessFlags v < 2 ^ 32)%Z ->
  let n := Normalize v in
  (HasFlag n KArcOtherAccessFlag = true <->
   (Exists (fun x => Double.gtb x Double.zero = true) (Dimensions v) \/
    iHazMat v = true)) /\
  Forall2 (fun x y => Double.IsNaN y = Double.IsNaN x /\
                      (Double.IsNaN x = false ->
                       Double.geb y Double.zero = true))
          (Dimensions v) (Dimensions n) /\
  (forall i : Z, i <> 31%Z ->
     Z.testbit (iAccessFlags n) i = Z.testbit (iAccessFlags v) i) /\
  (0 <= iAccessFlags n < 2 ^ 32)%Z.
Proof.
  intros R n. subst n.
  assert (B : forall i : Z,
             Z.testbit (iAccessFlags (Normalize v)) i =
             if (31 =? i)%Z then DetailsGiven v
             else Z.testbit (iAccessFlags v) i).
  { intro i. unfold Normalize; cbn [iAccessFlags].
    rewrite not32_KArcOtherAccessFlag, KArcOtherAccessFlag_pow2.
    destruct (DetailsGiven v).
    - rewrite testbit_set_flag by lia.
      destruct (Z.eqb_spec 31 i); [apply orb_true_r | apply orb_false_r].
    - rewrite testbit_clear_flag by exact R.
      destruct (Z.eqb_spec 31 i); [apply andb_false_r | apply andb_true_r]. }
  split; [| split; [| split]].
  - rewrite HasFlag_other, B. rewrite Z.eqb_refl. apply DetailsGiven_iff.
  - unfold Normalize, Dimensions;
      cbn [iWeight iAxleLoad iDoubleAxleLoad iTripleAxleLoad
           iHeight iWidth iLength].
    repeat (constructor; [apply ZeroIfNegative_nonneg |]). constructor.
  - intros i Hi. rewrite B.
    destruct (Z.eqb_spec 31 i); [congruence | reflexivity].
  - apply uint32_of_bits.
    + unfold Normalize; cbn [iAccessFlags]. destruct (DetailsGiven v).
      * apply Z.lor_nonneg. split; [lia | discriminate].
      * apply Z.land_nonneg. left. lia.
    + intros i Hi. rewrite B.
      destruct (Z.eqb_spec 31 i); [lia |].
      apply uint32_high_bits; assumption.
Qed.

Lemma Normalize_vehicle_type_witness :
  HasFlag (Normalize Lorry) KArcOtherAccessFlag = true <->
  (Exists (fun x => Double.gtb x Double.zero = true) (Dimensions Lorry) \/
   iHazMat Lorry = true).
Proof.
  refine (proj1 (Normalize_vehicle_type Lorry _)).
  split; [discriminate | reflexivity].
Defined.

(** C9.  The claim is what the comment on [Normalize] promises (weights
    and dimensions are non-negative afterwards), and the code misses one
    case of it: for a weight that is NaN the test [iWeight < 0] is false,
    so [Normalize] leaves the NaN in place and the weight is not greater
    than or equal to zero on exit.  The NaN is not a positive value
    either, so the flag stays clear. *)
Theorem Normalize_keeps_nan :
  Double.IsNaN (iWeight (Normalize NaNWeight)) = true /\
  Double.geb (iWeight (Normalize NaNWeight)) Double.zero = false /\
  HasFlag (Normalize NaNWeight) KArcOtherAccessFlag = false /\
  (0 <= iAccessFlags NaNWeight < 2 ^ 32)%Z.
Proof.
  split; [reflexivity |]. split; [reflexivity |]. split; [reflexivity |].
  split; [discriminate | reflexivity].
Qed.

End VehicleType.


(** ** [CTimeAndDistanceMatrix] *)

Section TimeAndDistanceMatrix.
Import CTimeAndDistanceMatrix.
Local Open Scope Z_scope.

Example make_2_by_1 :
  make 2 1 [10; 100; 20; 200]
  = inr {| m_from_count := 2; m_to_count := 1;
           m_matrix := [10; 100; 20; 200] |}.
Proof. reflexivity. Qed.

Example make_2_by_1_short : make 2 1 [10; 100; 20] = inl KErrorInvalidArgument.
Proof. reflexivity. Qed.

Example Time_1_0 :
  Time {| m_from_count := 2; m_to_count := 1;
          m_matrix := [10; 100; 20; 200] |} 1 0 = Some 20.
Proof. reflexivity. Qed.

Example Distance_1_0 :
  Distance {| m_from_count := 2; m_to_count := 1;
              m_matrix := [10; 100; 20; 200] |} 1 0 = Some 200.
Proof. reflexivity. Qed.

Lemma size_wrap_small (x : Z) : 0 <= x < 2 ^ 64 -> size_wrap x = x.
Proof. intro R. unfold size_wrap, size_bits. now apply Z.mod_small. Qed.

Lemma make_cases (f t : Z) (m : list Z) :
  (size_mul (size_mul f t) 2 = size m /\
   make f t m = inr {| m_from_count := f; m_to_count := t; m_matrix := m |})
  \/
  (size_mul (size_mul f t) 2 <> size m /\
   make f t m = inl KErrorInvalidArgument).
Proof.
  unfold make. destruct (Z.eqb_spec (size_mul (size_mul f t) 2) (size m));
    [left | right]; split; trivial.
Qed.

Lemma at_index_inside (v : list Z) (i : Z) :
  0 <= i < size v ->
  exists x, at_index v i = Some x /\ nth_error v (Z.to_nat i) = Some x.
Proof.
  intros [L U]. unfold at_index, size in *.
  assert ((i <? 0) = false) as -> by (apply Z.ltb_ge; exact L).
  destruct (nth_error v (Z.to_nat i)) as [x|] eqn:E.
  - exists x. split; reflexivity.
  - apply nth_error_None in E. lia.
Qed.

(** X8.  While the product of the counts does not overflow, the constructor
    and the accessors do what their comments say: the constructor throws
    exactly when the vector does not hold two entries for every pair, and
    every pair of valid indices reads inside the vector. *)
Lemma make_without_overflow (f t : Z) (m : list Z) :
  0 <= f -> 0 <= t -> f * t * 2 < 2 ^ 64 ->
  (make f t m = inl KErrorInvalidArgument <-> f * t * 2 <> size m) /\
  (forall M, make f t m = inr M ->
     FromCount M = f /\ ToCount M = t /\
     forall i j, 0 <= i < f -> 0 <= j < t ->
       (exists x, Time M i j = Some x /\
                  nth_error m (Z.to_nat ((i * t + j) * 2)) = Some x) /\
       (exists y, Distance M i j = Some y /\
                  nth_error m (Z.to_nat ((i * t + j) * 2 + 1)) = Some y)).
Proof.
  intros Hf Ht Hs.
  assert (P : size_mul (size_mul f t) 2 = f * t * 2).
  { unfold size_mul. rewrite (size_wrap_small (f * t)) by nia.
    apply size_wrap_small. nia. }
  destruct (make_cases f t m) as [(E & ->) | (N & ->)]; rewrite P in *.
  - split.
    + split; [discriminate | intro; contradiction].
    + intros M [= <-]. unfold FromCount, ToCount, Time, Distance.
      cbn [m_from_count m_to_count m_matrix].
      repeat split; trivial; intros.
      * assert (I : size_mul (size_add (size_mul i t) j) 2 = (i * t + j) * 2).
        { unfold size_mul, size_add.
          rewrite (size_wrap_small (i * t)) by nia.
          rewrite (size_wrap_small (i * t + j)) by nia.
          apply size_wrap_small. nia. }
        rewrite I. apply at_index_inside. nia.
      * assert (I : size_add (size_mul (size_add (size_mul i t) j) 2) 1
                    = (i * t + j) * 2 + 1).
        { unfold size_mul, size_add.
          rewrite (size_wrap_small (i * t)) by nia.
          rewrite (size_wrap_small (i * t + j)) by nia.
          rewrite (size_wrap_small ((i * t + j) * 2)) by nia.
          apply size_wrap_small. nia. }
        rewrite I. apply at_index_inside. nia.
  - split.
    + split; [intro; exact N | reflexivity].
    + intros M [=].
Qed.

(** C10.  The claim fails where the product of the counts overflows
    [size_t].  With a from-count of 2^63, a to-count of 1 and an empty
    vector, the product 2^63 * 1 * 2 = 2^64 differs from the size 0 of the
    vector, yet the wrapped product is 0 and the constructor does not
    throw; the pair of indices (0,0) is then valid for the constructed
    matrix, and [Time] and [Distance] read outside the empty vector. *)
Theorem make_overflow :
  2 ^ 63 * 1 * 2 <> size [] /\
  make (2 ^ 63) 1 []
  = inr {| m_from_count := 2 ^ 63; m_to_count := 1; m_matrix := [] |} /\
  (0 <= 0 < 2 ^ 63 /\ 0 <= 0 < 1) /\
  Time {| m_from_count := 2 ^ 63; m_to_count := 1; m_matrix := [] |} 0 0
  = None /\
  Distance {| m_from_count := 2 ^ 63; m_to_count := 1; m_matrix := [] |} 0 0
  = None.
Proof.
  split; [discriminate|]. split; [reflexivity|].
  split; [lia|]. split; reflexivity.
Qed.

End TimeAndDistanceMatrix.

(** ** [TLocationMatchParam::Normalize] *)

Section LocationMatchParam.
Import TLocationMatchParam.

Example Normalize_defaults :
  Normalize init
  = {| iLocationAccuracyInMeters := 8;
       iHeadingAccuracyInDegrees := 22.5;
       iMaxRoadDistanceInMeters := 100 |}.
Proof. reflexivity. Qed.

Example Normalize_clamps :
  Normalize {| iLocationAccuracyInMeters := 0.5;
               iHeadingAccuracyInDegrees := 180;
               iMaxRoadDistanceInMeters := 50 |}
  = {| iLocationAccuracyInMeters := 1;
       iHeadingAccuracyInDegrees := 90;
       iMaxRoadDistanceInMeters := 50 |}.
Proof. reflexivity. Qed.

Lemma NormalizeValue_spec (d lo hi x : double) :
  lo <= d <= hi -> lo <= hi ->
  let y := NormalizeValue d lo hi x in
  (x == 0 -> y = d) /\
  (~ x == 0 -> x < lo -> y = lo) /\
  (~ x == 0 -> hi < x -> y = hi) /\
  (~ x == 0 -> lo <= x <= hi -> y = x) /\
  lo <= y <= hi.
Proof.
  intros Hd Hlh y. subst y. unfold NormalizeValue, Clamp.
  dcases; repeat split; intros; try reflexivity; try lra; exfalso; lra.
Qed.

(** C8.  [Normalize] maps a zero member to its default (8, 22.5, 100) and
    clamps a non-zero member to its legal range (1 ... 1000, 1 ... 90,
    5 ... 10,000): a value below the range becomes the lower bound, a
    value above it the upper bound, a value inside it is kept.  After
    [Normalize] every member lies in its legal range. *)
Theorem Normalize_location_match_param (p : t) :
  let n := Normalize p in
  let clamped (lo hi x y : double) :=
    (x < lo -> y = lo) /\ (hi < x -> y = hi) /\ (lo <= x <= hi -> y = x) in
  (iLocationAccuracyInMeters p == 0 -> iLocationAccuracyInMeters n = 8) /\
  (iHeadingAccuracyInDegrees p == 0 -> iHeadingAccuracyInDegrees n = 22.5) /\
  (iMaxRoadDistanceInMeters p == 0 -> iMaxRoadDistanceInMeters n = 100) /\
  (~ iLocationAccuracyInMeters p == 0 ->
   clamped 1 1000 (iLocationAccuracyInMeters p)
           (iLocationAccuracyInMeters n)) /\
  (~ iHeadingAccuracyInDegrees p == 0 ->
   clamped 1 90 (iHeadingAccuracyInDegrees p)
           (iHeadingAccuracyInDegrees n)) /\
  (~ iMaxRoadDistanceInMeters p == 0 ->
   clamped 5 10000 (iMaxRoadDistanceInMeters p)
           (iMaxRoadDistanceInMeters n)) /\
  Legal n.
Proof.
  intros n clamped. subst n clamped. unfold Legal, Normalize.
  cbn [iLocationAccuracyInMeters iHeadingAccuracyInDegrees
       iMaxRoadDistanceInMeters].
  pose proof (NormalizeValue_spec 8 1 1000 (iLocationAccuracyInMeters p))
    as H1.
  pose proof (NormalizeValue_spec 22.5 1 90 (iHeadingAccuracyInDegrees p))
    as H2.
  pose proof (NormalizeValue_spec 100 5 10000 (iMaxRoadDistanceInMeters p))
    as H3.
  cbv zeta in H1, H2, H3.
  destruct H1 as (A1 & B1 & C1 & D1 & E1); [lra | lra |].
  destruct H2 as (A2 & B2 & C2 & D2 & E2); [lra | lra |].
  destruct H3 as (A3 & B3 & C3 & D3 & E3); [lra | lra |].
  repeat split; auto; tauto.
Qed.

Lemma Normalize_location_match_param_witness :
  iHeadingAccuracyInDegrees (Normalize init) = 22.5.
Proof.
  pose proof (Normalize_location_match_param init) as H. cbv zeta in H.
  destruct H as (_ & H & _). apply H. reflexivity.
Defined.

End LocationMatchParam.


(** ** The route assembler *)

Section RouteTotals.
Import RouteAssembler.

Example ExampleRoute_sections : Sections ExampleRoute = [0; 0; 1; 1]%Z.
Proof. reflexivity. Qed.

Example ExampleRoute_distance : CRoute.iDistance ExampleRoute == 177.5.
Proof. reflexivity. Qed.

Example ExampleRoute_time : CRoute.iTime ExampleRoute == 18.
Proof. reflexivity. Qed.

Example Assemble_nil : Assemble [] = CRoute.init.
Proof. reflexivity. Qed.


















End RouteTotals.


(** ** The navigator *)

Section NavigatorFixes.
Import Navigator.

Variable DistanceInMeters : TPointFP -> TPointFP -> double.
Variable Match :
  TLocationMatchParam.t -> Z -> CRoute.t -> TNavigationData.t ->
  option TNearestSegmentInfo.t.
Variables AtArrival NeedsUTurn : CRoute.t -> TNearestSegmentInfo.t -> bool.
Variable ReRoute : CRoute.t -> TNavigationData.t -> CRoute.t.

Local Abbreviation navigate :=
  (Navigate DistanceInMeters Match AtArrival NeedsUTurn ReRoute).
Local Abbreviation rejects := (Rejects DistanceInMeters).

Lemma Navigate_rejected (this : t) (aNavData : TNavigationData.t) :
  rejects this aNavData = true -> navigate this aNavData = this.
Proof. intro R. unfold Navigate. now rewrite R. Qed.

Lemma Navigate_accepted_records_fix (this : t) (aNavData : TNavigationData.t) :
  rejects this aNavData = false ->
  iLastFix (navigate this aNavData) = Some aNavData.
Proof.
  intro R. unfold Navigate. rewrite R.
  destruct (iRoute this) as [route |]; [| reflexivity].
  destruct (Match _ _ route aNavData); [reflexivity |].
  unfold Unmatched. cbv zeta.
  destruct (_ && _); [destruct (TNavigatorParam.iAutoReRoute _) |];
    reflexivity.
Qed.

(** C6.  If [Navigate] rejects a fix because it is closer than the
    minimum fix distance to the last accepted fix, the call leaves the
    session unchanged, the same fix is rejected again, and a second call
    with it leaves the session, and so the navigation state and the
    position along the route, unchanged. *)
Theorem Navigate_rejected_twice (this : t) (aNavData : TNavigationData.t) :
  rejects this aNavData = true ->
  let once := navigate this aNavData in
  let twice := navigate once aNavData in
  once = this /\
  rejects once aNavData = true /\
  twice = this /\
  iState twice = iState this /\
  iPositionOnRoute twice = iPositionOnRoute this.
Proof.
  intros R once twice. subst once twice.
  rewrite !(Navigate_rejected this aNavData R). rewrite R.
  repeat split; reflexivity.
Qed.

End NavigatorFixes.

Example ExampleNavigate_rejects :
  Navigator.Rejects Navigator.ExampleDistance Navigator.ExampleSession
                    (Navigator.ExampleFix 1 3) = true.
Proof. reflexivity. Qed.

Example ExampleNavigate_accepts :
  Navigator.iLastFix
    (Navigator.ExampleNavigate Navigator.ExampleSession
                               (Navigator.ExampleFix 1 30))
  = Some (Navigator.ExampleFix 1 30).
Proof. reflexivity. Qed.

Lemma Navigate_rejected_twice_witness :
  Navigator.ExampleNavigate
    (Navigator.ExampleNavigate Navigator.ExampleSession
                               (Navigator.ExampleFix 1 3))
    (Navigator.ExampleFix 1 3)
  = Navigator.ExampleSession.
Proof.
  refine (proj1 (proj2 (proj2
    (Navigate_rejected_twice
       Navigator.ExampleDistance Navigator.ExampleMatch
       (fun _ _ => false) (fun _ _ => false) (fun r _ => r)
       Navigator.ExampleSession (Navigator.ExampleFix 1 3) _)))).
  reflexivity.
Defined.

(* ================================================================== *)
(** * Part III: further properties of the embedded code                *)
(* ================================================================== *)

(** ** More on [TVehicleType::Normalize] *)

Section VehicleTypeMore.
Import TVehicleType.

Lemma ZeroIfNegative_idem (x : Double.t) :
  ZeroIfNegative (ZeroIfNegative x) = ZeroIfNegative x.
Proof.
  unfold ZeroIfNegative.
  destruct (Double.ltb x Double.zero) eqn:N; [reflexivity |].
  now rewrite N.
Qed.

Lemma ZeroIfNegative_positive (x : Double.t) :
  Double.gtb (ZeroIfNegative x) Double.zero = Double.gtb x Double.zero.
Proof.
  unfold ZeroIfNegative.
  destruct (Double.ltb x Double.zero) eqn:N; [| reflexivity].
  destruct x as [| | q |]; try discriminate N; try reflexivity.
  unfold Double.gtb, Double.ltb, Double.zero in *.
  revert N. destruct (dlt_spec q 0) as [N | P]; [intros _ | discriminate].
  destruct (dlt_spec 0 q) as [H | H]; [exfalso; lra |].
  destruct (dlt_spec 0 0) as [H0 | H0]; [exfalso; lra | reflexivity].
Qed.

Lemma DetailsGiven_Normalize (v : t) :
  DetailsGiven (Normalize v) = DetailsGiven v.
Proof.
  unfold DetailsGiven, Normalize.
  cbn [iWeight iAxleLoad iDoubleAxleLoad iTripleAxleLoad iHeight iWidth
       iLength iHazMat].
  now rewrite !ZeroIfNegative_positive.
Qed.

(** X1.  [Normalize] is idempotent: normalizing a normalized vehicle type
    changes nothing. *)
Theorem Normalize_vehicle_type_idempotent (v : t) :
  Normalize (Normalize v) = Normalize v.
Proof.
  unfold Normalize at 1. rewrite DetailsGiven_Normalize.
  unfold Normalize.
  cbn [iAccessFlags iWeight iAxleLoad iDoubleAxleLoad iTripleAxleLoad
       iHeight iWidth iLength iHazMat].
  rewrite !ZeroIfNegative_idem. f_equal.
  destruct (DetailsGiven v).
  - now rewrite <- Z.lor_assoc, Z.lor_diag.
  - now rewrite <- Z.land_assoc, Z.land_diag.
Qed.

Lemma Normalize_keeps_mask (v : t) (m : Z) :
  Z.land KArcOtherAccessFlag m = 0%Z ->
  Z.land (not32 KArcOtherAccessFlag) m = m ->
  Z.land (iAccessFlags (Normalize v)) m = Z.land (iAccessFlags v) m.
Proof.
  intros D I. unfold Normalize. cbn [iAccessFlags].
  destruct (DetailsGiven v).
  - now rewrite Z.land_lor_distr_l, D, Z.lor_0_r.
  - now rewrite <- Z.land_assoc, I.
Qed.

(** X2.  [Normalize] does not change what the vehicle type answers to
    [ObeysOneWay], [WalkingAllowed] and [CyclingAllowed]. *)
Theorem Normalize_keeps_access_queries (v : t) :
  ObeysOneWay (Normalize v) = ObeysOneWay v /\
  WalkingAllowed (Normalize v) = WalkingAllowed v /\
  CyclingAllowed (Normalize v) = CyclingAllowed v.
Proof.
  unfold ObeysOneWay, WalkingAllowed, CyclingAllowed.
  repeat split; now rewrite Normalize_keeps_mask.
Qed.

End VehicleTypeMore.

(** ** More on turns *)

Section TurnMore.
Import TTurn.

(** X3.  The classification by angle is monotone: a larger turn angle
    never gives a turn type further to the left. *)
Theorem TurnTypeOfAngle_monotone (a b : double) :
  a <= b ->
  (TTurnType.Rightness (TurnTypeOfAngle a)
   <= TTurnType.Rightness (TurnTypeOfAngle b))%Z.
Proof.
  intro L. unfold TurnTypeOfAngle.
  dcases; cbn [TTurnType.Rightness]; try lia; exfalso; lra.
Qed.

Lemma TurnTypeOfAngle_monotone_witness :
  (TTurnType.Rightness (TurnTypeOfAngle (-50)%Q)
   <= TTurnType.Rightness (TurnTypeOfAngle 20%Q))%Z.
Proof. apply TurnTypeOfAngle_monotone. lra. Defined.

(** X4.  Exchanging the incoming and the outgoing direction negates the
    turn angle. *)
Theorem turn_angle_antisymmetric (i o : double) :
  turn_angle o i == - turn_angle i o.
Proof. unfold turn_angle. cbv zeta. dcases; lra. Qed.

(** X5.  For an angle that is a number (not NaN) and is none of the
    thresholds 15, 45 and 120 (of either sign) the classification is
    symmetric: the negated angle gives the mirrored turn type, so
    exchanging the incoming and the outgoing direction exchanges left and
    right.  (A NaN angle fails every comparison of the chain and is
    classified as sharp left, whatever its sign.) *)
Theorem TurnTypeOfAngle_mirror (a : double) :
  ~ a == 15 -> ~ a == 45 -> ~ a == 120 ->
  ~ a == -15 -> ~ a == -45 -> ~ a == -120 ->
  TurnTypeOfAngle (- a) = TTurnType.Mirror (TurnTypeOfAngle a).
Proof.
  intros. unfold TurnTypeOfAngle.
  dcases; cbn [TTurnType.Mirror]; try reflexivity; exfalso; lra.
Qed.

Lemma TurnTypeOfAngle_mirror_witness :
  TurnTypeOfAngle (- 30) = TTurnType.Mirror (TurnTypeOfAngle 30).
Proof. refine (TurnTypeOfAngle_mirror 30 _ _ _ _ _ _); lra. Defined.

(** X6.  The seven-argument [SetTurn] classifies a turn as ahead exactly
    when the turn angle lies in (-15,15], the turn-off flag is clear, and
    the turn is not a fork with two choices; in particular a turn-off is
    never ahead. *)
Theorem SetTurn_ahead_iff
        (this : t) (i o : double) (c l r : Z) (f off : bool) :
  iTurnType (SetTurn this i o c l r f off) = TTurnType.Ahead <->
  (-15 < turn_angle i o <= 15 /\ off = false /\ (f = false \/ c <> 2%Z)).
Proof.
  rewrite SetTurn_type.
  destruct (TurnTypeOfAngle_intervals (turn_angle i o))
    as (_ & _ & _ & HA & _).
  destruct (override (TurnTypeOfAngle (turn_angle i o)) c f off) eqn:O.
  - apply override_true_iff in O. destruct O as (A & C).
    split.
    + destruct (l =? 0)%Z; discriminate.
    + intros (_ & Hoff & Hf). exfalso.
      destruct C as [C | (C1 & C2)]; [congruence |].
      destruct Hf; congruence.
  - rewrite HA. split; [| tauto].
    intro R. split; [exact R |].
    assert (N : ~ (TurnTypeOfAngle (turn_angle i o) = TTurnType.Ahead /\
                   (off = true \/ (f = true /\ c = 2%Z)))).
    { rewrite <- override_true_iff. congruence. }
    apply HA in R.
    destruct off; [exfalso; apply N; auto |].
    split; [reflexivity |].
    destruct f; [right | left; reflexivity].
    intro E. apply N. auto.
Qed.

Lemma SetTurn_ahead_iff_witness :
  iTurnType (SetTurn init 90 85 3 1 1 true false) = TTurnType.Ahead.
Proof.
  apply (proj2 (SetTurn_ahead_iff init 90 85 3 1 1 true false)).
  split; [| split].
  - assert (E : turn_angle 90 85 == 5) by reflexivity. lra.
  - reflexivity.
  - right. discriminate.
Defined.

End TurnMore.

(** ** The fields of the arc word *)

Section ArcWord.
Local Open Scope Z_scope.

Lemma land_field (x lo w : Z) :
  0 <= lo -> 0 <= w ->
  Z.shiftr (Z.land x (Z.shiftl (Z.ones w) lo)) lo = (x / 2 ^ lo) mod 2 ^ w.
Proof.
  intros Hlo Hw.
  rewrite Z.shiftr_land, Z.shiftr_shiftl_l by exact Hlo.
  rewrite Z.sub_diag, Z.shiftl_0_r, Z.land_ones by exact Hw.
  now rewrite Z.shiftr_div_pow2 by exact Hlo.
Qed.

(** X7.  The fields of the arc word partition it: every 32-bit word is
    the union of its road type, gradient, road direction, roundabout,
    toll, speed limit, access and other-access parts, and no two of these
    fields share a bit.  The road type and the gradient read from a word
    are valid indexes into the arrays of a route profile, and the speed
    limit is at most 255. *)
Theorem arc_word_fields (x : Z) :
  0 <= x < 2 ^ 32 ->
  x = Z.lor (Z.land x KArcRoadTypeMask)
        (Z.lor (Z.land x KArcGradientMask)
           (Z.lor (Z.land x KArcRoadDirectionMask)
              (Z.lor (Z.land x KArcRoundaboutFlag)
                 (Z.lor (Z.land x KArcTollFlag)
                    (Z.lor (Z.land x KArcSpeedLimitMask)
                       (Z.lor (Z.land x KArcAccessMask)
                              (Z.land x KArcOtherAccessFlag))))))) /\
  (forall a b,
      In a [KArcRoadTypeMask; KArcGradientMask; KArcRoadDirectionMask;
            KArcRoundaboutFlag; KArcTollFlag; KArcSpeedLimitMask;
            KArcAccessMask; KArcOtherAccessFlag] ->
      In b [KArcRoadTypeMask; KArcGradientMask; KArcRoadDirectionMask;
            KArcRoundaboutFlag; KArcTollFlag; KArcSpeedLimitMask;
            KArcAccessMask; KArcOtherAccessFlag] ->
      a <> b -> Z.land a b = 0) /\
  0 <= Z.land x KArcRoadTypeMask < KArcRoadTypeCount /\
  0 <= Z.shiftr (Z.land x KArcGradientMask) KArcGradientShift
    < KArcGradientCount /\
  0 <= Z.shiftr (Z.land x KArcSpeedLimitMask) KArcSpeedLimitShift <= 255.
Proof.
  intro R. split; [| split; [| split; [| split]]].
  - rewrite <- !Z.land_lor_distr_r.
    change (Z.lor KArcRoadTypeMask _) with (Z.ones 32).
    rewrite Z.land_ones by lia. symmetry. now apply Z.mod_small.
  - intros a b Ha Hb N. simpl in Ha, Hb.
    repeat (destruct Ha as [<- | Ha]; [|]);
      repeat (destruct Hb as [<- | Hb]; [|]);
      try contradiction; try reflexivity; exfalso; now apply N.
  - change KArcRoadTypeMask with (Z.ones 5).
    rewrite Z.land_ones by lia. apply Z.mod_pos_bound. reflexivity.
  - change KArcGradientMask with (Z.shiftl (Z.ones 3) 5).
    unfold KArcGradientShift. rewrite land_field by lia.
    apply Z.mod_pos_bound. reflexivity.
  - change KArcSpeedLimitMask with (Z.shiftl (Z.ones 8) 12).
    unfold KArcSpeedLimitShift. rewrite land_field by lia.
    pose proof (Z.mod_pos_bound (x / 2 ^ 12) (2 ^ 8) eq_refl). lia.
Qed.

Lemma arc_word_fields_witness :
  0 <= Z.land 0x00845123 KArcRoadTypeMask < KArcRoadTypeCount.
Proof.
  refine (proj1 (proj2 (proj2 (arc_word_fields 0x00845123 _)))).
  split; [discriminate | reflexivity].
Defined.

End ArcWord.

(** ** More on [CTimeAndDistanceMatrix] *)

Section MatrixLayout.
Import CTimeAndDistanceMatrix.
Local Open Scope Z_scope.

Lemma make_without_overflow_witness :
  make 2 1 [10; 100; 20; 200] = inl KErrorInvalidArgument <->
  2 * 1 * 2 <> size [10; 100; 20; 200].
Proof.
  refine (proj1 (make_without_overflow 2 1 [10; 100; 20; 200] _ _ _));
    [discriminate | discriminate | reflexivity].
Defined.

Lemma TimeIndex_exact (M : t) (i j : Z) :
  0 <= i < m_from_count M -> 0 <= j < m_to_count M ->
  m_from_count M * m_to_count M * 2 < 2 ^ 64 ->
  TimeIndex M i j = (i * m_to_count M + j) * 2 /\
  DistanceIndex M i j = (i * m_to_count M + j) * 2 + 1.
Proof.
  intros Hi Hj Hs. unfold DistanceIndex, TimeIndex, size_mul, size_add.
  rewrite (size_wrap_small (i * m_to_count M)) by nia.
  rewrite (size_wrap_small (i * m_to_count M + j)) by nia.
  rewrite (size_wrap_small ((i * m_to_count M + j) * 2)) by nia.
  split; [reflexivity |]. apply size_wrap_small. nia.
Qed.

(** X9.  In a matrix whose counts do not overflow, the entries do not
    overlap: different pairs of valid indices read different positions of
    the vector, a time never shares its position with a distance, every
    such position lies below from-count * to-count * 2, and every position
    below that bound is the time or the distance of some valid pair. *)
Theorem matrix_layout (M : t) :
  0 <= m_from_count M -> 0 <= m_to_count M ->
  m_from_count M * m_to_count M * 2 < 2 ^ 64 ->
  (forall i j i' j',
      0 <= i < m_from_count M -> 0 <= j < m_to_count M ->
      0 <= i' < m_from_count M -> 0 <= j' < m_to_count M ->
      (TimeIndex M i j = TimeIndex M i' j' -> i = i' /\ j = j') /\
      (DistanceIndex M i j = DistanceIndex M i' j' -> i = i' /\ j = j') /\
      TimeIndex M i j <> DistanceIndex M i' j' /\
      0 <= TimeIndex M i j < DistanceIndex M i j /\
      DistanceIndex M i j < m_from_count M * m_to_count M * 2) /\
  (forall k,
      0 <= k < m_from_count M * m_to_count M * 2 ->
      exists i j,
        0 <= i < m_from_count M /\ 0 <= j < m_to_count M /\
        (k = TimeIndex M i j \/ k = DistanceIndex M i j)).
Proof.
  intros Hf Ht Hs. split.
  - intros i j i' j' Hi Hj Hi' Hj'.
    destruct (TimeIndex_exact M i j Hi Hj Hs) as (-> & ->).
    destruct (TimeIndex_exact M i' j' Hi' Hj' Hs) as (-> & ->).
    assert (U : (i * m_to_count M + j) = (i' * m_to_count M + j') ->
                i = i' /\ j = j').
    { intro E.
      apply (Z.div_mod_unique (m_to_count M) i i' j j'); [lia | lia | lia]. }
    split; [intro E; apply U; lia |].
    split; [intro E; apply U; lia |].
    split; [lia |]. nia.
  - intros k Hk.
    assert (Tpos : 0 < m_to_count M).
    { destruct (Z.eq_dec (m_to_count M) 0) as [Z0 | NZ]; [| lia].
      rewrite Z0, Z.mul_0_r in Hk. lia. }
    exists (k / 2 / m_to_count M), ((k / 2) mod m_to_count M).
    pose proof (Z.mod_pos_bound (k / 2) (m_to_count M) Tpos) as Hj.
    pose proof (Z.div_mod (k / 2) (m_to_count M) ltac:(lia)) as Dq.
    pose proof (Z.div_mod k 2 ltac:(lia)) as D2.
    pose proof (Z.mod_pos_bound k 2 ltac:(lia)) as M2.
    assert (Hq : 0 <= k / 2 / m_to_count M).
    { apply Z.div_pos; [apply Z.div_pos; lia | exact Tpos]. }
    assert (Hi : 0 <= k / 2 / m_to_count M < m_from_count M).
    { split; [exact Hq |].
      apply Z.div_lt_upper_bound; [exact Tpos |].
      apply Z.div_lt_upper_bound; lia. }
    split; [exact Hi |]. split; [exact Hj |].
    destruct (TimeIndex_exact M _ _ Hi Hj Hs) as (-> & ->).
    assert (E : k / 2 / m_to_count M * m_to_count M
                + (k / 2) mod m_to_count M = k / 2) by lia.
    rewrite E. lia.
Qed.

Lemma matrix_layout_witness :
  exists i j, 0 <= i < 2 /\ 0 <= j < 3 /\
    (7 = TimeIndex {| m_from_count := 2; m_to_count := 3;
                      m_matrix := [] |} i j \/
     7 = DistanceIndex {| m_from_count := 2; m_to_count := 3;
                          m_matrix := [] |} i j).
Proof.
  refine (proj2 (matrix_layout {| m_from_count := 2; m_to_count := 3;
                                  m_matrix := [] |} _ _ _) 7 _);
    [discriminate | discriminate | reflexivity
    | split; [discriminate | reflexivity]].
Defined.

End MatrixLayout.

(** ** Integer points and rectangles *)

(** Split every comparison of a goal about integers into its cases. *)
Ltac zcases :=
  repeat match goal with
    | |- context [(?a >? ?b)%Z] => rewrite (Z.gtb_ltb a b)
    | |- context [(?a >=? ?b)%Z] => rewrite (Z.geb_leb a b)
    | |- context [(?a <? ?b)%Z] => destruct (Z.ltb_spec a b)
    | |- context [(?a <=? ?b)%Z] => destruct (Z.leb_spec a b)
    | |- context [(?a =? ?b)%Z] => destruct (Z.eqb_spec a b)
    end.

Section IntegerPoints.
Local Open Scope Z_scope.

(** X10.  [TPoint::operator<] is a strict total order on points, by x and
    then by y: it is irreflexive and transitive, [operator>] is its
    converse, and of [a < b], [a == b] and [a > b] exactly one holds;
    [operator==] holds exactly for equal points. *)
Theorem TPoint_order (a b c : TPoint) :
  TPoint.ltb a a = false /\
  (TPoint.ltb a b = true -> TPoint.ltb b c = true -> TPoint.ltb a c = true) /\
  TPoint.gtb a b = TPoint.ltb b a /\
  (TPoint.eqb a b = true <-> a = b) /\
  ((TPoint.ltb a b = true /\ TPoint.eqb a b = false /\ TPoint.gtb a b = false)
   \/ (TPoint.ltb a b = false /\ TPoint.eqb a b = true
       /\ TPoint.gtb a b = false)
   \/ (TPoint.ltb a b = false /\ TPoint.eqb a b = false
       /\ TPoint.gtb a b = true)).
Proof.
  destruct a as [ax ay], b as [bx by_], c as [cx cy].
  unfold TPoint.ltb, TPoint.gtb, TPoint.eqb, TPoint.iX, TPoint.iY.
  cbn [fst snd].
  split; [| split; [| split; [| split]]].
  - zcases; try reflexivity; lia.
  - zcases; cbn; intros; try reflexivity; try discriminate; lia.
  - zcases; try reflexivity; lia.
  - split.
    + zcases; cbn; intro; try discriminate; congruence.
    + intros [= -> ->]. now rewrite !Z.eqb_refl.
  - zcases; cbn; try lia; tauto.
Qed.

Lemma TPoint_order_witness :
  TPoint.ltb (1, 5) (2, 0) = true /\ TPoint.ltb (2, 0) (2, 7) = true /\
  TPoint.ltb (1, 5) (2, 7) = true.
Proof.
  split; [reflexivity |]. split; [reflexivity |].
  apply (proj1 (proj2 (TPoint_order (1, 5) (2, 0) (2, 7)))); reflexivity.
Defined.

Lemma ComparisonValue_exact (p : TPoint) :
  TPoint.ComparisonValue p
  = (TPoint.iX p * 2 ^ 32 + TPoint.iY p) mod 2 ^ 64.
Proof.
  unfold TPoint.ComparisonValue, uint64.
  rewrite Z.shiftl_mul_pow2 by lia.
  rewrite <- Zplus_mod.
  rewrite (Zplus_mod (TPoint.iX p mod 2 ^ 64 * 2 ^ 32)).
  rewrite Zmult_mod_idemp_l, <- Zplus_mod. reflexivity.
Qed.

(** X11.  [TPoint::ComparisonValue] is injective on points with [int32_t]
    coordinates: different points get different values. *)
Theorem ComparisonValue_injective (a b : TPoint) :
  IsInt32 (TPoint.iX a) -> IsInt32 (TPoint.iY a) ->
  IsInt32 (TPoint.iX b) -> IsInt32 (TPoint.iY b) ->
  TPoint.ComparisonValue a = TPoint.ComparisonValue b -> a = b.
Proof.
  destruct a as [ax ay], b as [bx by_].
  unfold IsInt32, INT32_MIN, INT32_MAX. cbn [TPoint.iX TPoint.iY fst snd].
  intros Hax Hay Hbx Hby E.
  rewrite !ComparisonValue_exact in E. cbn [TPoint.iX TPoint.iY fst snd] in E.
  pose proof (Z.div_mod (ax * 2 ^ 32 + ay) (2 ^ 64) ltac:(lia)) as Da.
  pose proof (Z.div_mod (bx * 2 ^ 32 + by_) (2 ^ 64) ltac:(lia)) as Db.
  rewrite E in Da.
  assert (S : ax * 2 ^ 32 + ay = bx * 2 ^ 32 + by_) by lia.
  assert (U : ax = bx /\ ay + 2 ^ 31 = by_ + 2 ^ 31).
  { apply (Z.div_mod_unique (2 ^ 32)); lia. }
  destruct U as (-> & U2). f_equal. lia.
Qed.

Lemma ComparisonValue_injective_witness :
  TPoint.ComparisonValue (-1, 7) = 2 ^ 64 - 2 ^ 32 + 7 /\
  ((-1, 7) : TPoint) = (-1, 7).
Proof.
  split; [reflexivity |].
  apply ComparisonValue_injective;
    [unfold IsInt32, INT32_MIN, INT32_MAX; cbn; lia ..| reflexivity].
Defined.

(** X12.  For points with non-negative coordinates [ComparisonValue]
    sorts as [operator<] does; with a negative coordinate it does not:
    (0,-1) is less than (0,0), but its comparison value is greater. *)
Theorem ComparisonValue_order (a b : TPoint) :
  0 <= TPoint.iX a <= INT32_MAX -> 0 <= TPoint.iY a <= INT32_MAX ->
  0 <= TPoint.iX b <= INT32_MAX -> 0 <= TPoint.iY b <= INT32_MAX ->
  (TPoint.ltb a b = true <->
   TPoint.ComparisonValue a < TPoint.ComparisonValue b) /\
  (TPoint.ltb (0, -1) (0, 0) = true /\
   TPoint.ComparisonValue (0, 0) < TPoint.ComparisonValue (0, -1)).
Proof.
  destruct a as [ax ay], b as [bx by_].
  unfold INT32_MAX. cbn [TPoint.iX TPoint.iY fst snd].
  intros Hax Hay Hbx Hby. split; [| split; reflexivity].
  rewrite !ComparisonValue_exact. cbn [TPoint.iX TPoint.iY fst snd].
  rewrite !Z.mod_small by lia.
  unfold TPoint.ltb. cbn [TPoint.iX TPoint.iY fst snd].
  zcases; cbn; split; intro; try discriminate; try reflexivity; lia.
Qed.

Lemma ComparisonValue_order_witness :
  TPoint.ltb (3, 9) (4, 0) = true <->
  TPoint.ComparisonValue (3, 9) < TPoint.ComparisonValue (4, 0).
Proof.
  refine (proj1 (ComparisonValue_order (3, 9) (4, 0) _ _ _ _));
    unfold INT32_MAX; cbn; lia.
Defined.

Lemma Contains_iff (r : TRect.t) (p : TPoint) :
  TRect.Contains r p = true <->
  TRect.Left r <= TPoint.iX p < TRect.Right r /\
  TRect.Top r <= TPoint.iY p < TRect.Bottom r.
Proof.
  unfold TRect.Contains. zcases; cbn; split; intro;
    try discriminate; try reflexivity; lia.
Qed.

Lemma ContainsRect_iff (r s : TRect.t) :
  TRect.ContainsRect r s = true <->
  TRect.Left r <= TRect.Left s /\ TRect.Top r <= TRect.Top s /\
  TRect.Right s <= TRect.Right r /\ TRect.Bottom s <= TRect.Bottom r.
Proof.
  unfold TRect.ContainsRect. zcases; cbn; split; intro;
    try discriminate; try reflexivity; lia.
Qed.

Lemma IsEmpty_false_iff (r : TRect.t) :
  TRect.IsEmpty r = false <->
  TRect.Left r < TRect.Right r /\ TRect.Top r < TRect.Bottom r.
Proof.
  unfold TRect.IsEmpty. zcases; cbn; split; intro;
    try discriminate; try reflexivity; lia.
Qed.

(** X13.  Containment in a [TRect] is monotone: a rectangle that contains
    another one contains every point and every rectangle the other one
    contains; a rectangle that contains a point is not empty; and every
    rectangle contains itself. *)
Theorem TRect_containment (r s u : TRect.t) (p : TPoint) :
  (TRect.ContainsRect r s = true -> TRect.Contains s p = true ->
   TRect.Contains r p = true) /\
  (TRect.ContainsRect r s = true -> TRect.ContainsRect s u = true ->
   TRect.ContainsRect r u = true) /\
  (TRect.Contains r p = true -> TRect.IsEmpty r = false) /\
  TRect.ContainsRect r r = true.
Proof.
  rewrite !Contains_iff, !ContainsRect_iff, IsEmpty_false_iff.
  repeat split; intros; lia.
Qed.

Lemma TRect_containment_witness :
  TRect.Contains (TRect.make 0 0 10 10) (3, 4) = true.
Proof.
  refine (proj1 (TRect_containment (TRect.make 0 0 10 10)
                   (TRect.make 2 2 5 5) TRect.init (3, 4)) _ _);
    reflexivity.
Defined.

(** X14.  The center of a rectangle that is not empty, when the sums of
    its opposite edges fit an [int32_t], lies within its closed bounds.
    It is contained in the rectangle when those sums are not negative;
    when they are negative the division rounds towards the right and
    bottom edges, and the center of the rectangle from (-3,-3) to (-2,-2)
    is not contained in it. *)
Theorem TRect_center (r : TRect.t) :
  IsInt32 (TRect.Left r + TRect.Right r) ->
  IsInt32 (TRect.Top r + TRect.Bottom r) ->
  TRect.IsEmpty r = false ->
  (TRect.Left r <= TPoint.iX (TRect.Center r) <= TRect.Right r /\
   TRect.Top r <= TPoint.iY (TRect.Center r) <= TRect.Bottom r) /\
  (0 <= TRect.Left r + TRect.Right r ->
   0 <= TRect.Top r + TRect.Bottom r ->
   TRect.Contains r (TRect.Center r) = true) /\
  TRect.Contains (TRect.make (-3) (-3) (-2) (-2))
                 (TRect.Center (TRect.make (-3) (-3) (-2) (-2))) = false.
Proof.
  intros _ _. rewrite IsEmpty_false_iff. intros (Hx & Hy).
  unfold TRect.Center. cbn [TPoint.iX TPoint.iY fst snd].
  assert (Q : forall a, (a ÷ 2) * 2 <= a <= (a ÷ 2) * 2 + 1
                        \/ (a ÷ 2) * 2 - 1 <= a <= (a ÷ 2) * 2).
  { intro a. pose proof (Z.quot_rem a 2 ltac:(lia)) as E.
    destruct (Z.le_gt_cases 0 a) as [P | N].
    - pose proof (Z.rem_bound_pos a 2 P ltac:(lia)). lia.
    - pose proof (Z.rem_bound_pos (- a) 2 ltac:(lia) ltac:(lia)) as B.
      rewrite Z.rem_opp_l in B by lia. lia. }
  assert (Qp : forall a, 0 <= a -> (a ÷ 2) * 2 <= a <= (a ÷ 2) * 2 + 1).
  { intros a P. pose proof (Z.quot_rem a 2 ltac:(lia)) as E.
    pose proof (Z.rem_bound_pos a 2 P ltac:(lia)). lia. }
  split; [| split; [| reflexivity]].
  - pose proof (Q (TRect.Left r + TRect.Right r)).
    pose proof (Q (TRect.Top r + TRect.Bottom r)). lia.
  - intros Px Py. apply Contains_iff.
    cbn [TPoint.iX TPoint.iY fst snd].
    pose proof (Qp _ Px). pose proof (Qp _ Py). lia.
Qed.

Lemma TRect_center_witness :
  TRect.Contains (TRect.make 0 0 10 4)
                 (TRect.Center (TRect.make 0 0 10 4)) = true.
Proof.
  refine (proj1 (proj2 (TRect_center (TRect.make 0 0 10 4) _ _ _)) _ _);
    [unfold IsInt32, INT32_MIN, INT32_MAX; cbn; lia
    | unfold IsInt32, INT32_MIN, INT32_MAX; cbn; lia
    | reflexivity | discriminate | discriminate].
Defined.

End IntegerPoints.

(** ** Floating-point rectangles *)

Section RectFP.
Import TRectFP.

Lemma ContainsFP_iff (r : t) (p : TPointFP) :
  Contains r p = true <->
  (Left r <= TPointFP.iX p /\ TPointFP.iX p < Right r) /\
  (Top r <= TPointFP.iY p /\ TPointFP.iY p < Bottom r).
Proof.
  unfold Contains, dge. dcases; cbn; split; intro;
    try discriminate; try reflexivity; try tauto; exfalso; lra.
Qed.

Lemma ContainsRectFP_iff (r s : t) :
  ContainsRect r s = true <->
  Left r <= Left s /\ Top r <= Top s /\
  Right s <= Right r /\ Bottom s <= Bottom r.
Proof.
  unfold ContainsRect, dge, dle. dcases; cbn; split; intro;
    try discriminate; try reflexivity; try tauto; exfalso; lra.
Qed.

Lemma IsEmptyFP_false_iff (r : t) :
  IsEmpty r = false <-> Left r < Right r /\ Top r < Bottom r.
Proof.
  unfold IsEmpty, dge. dcases; cbn; split; intro;
    try discriminate; try reflexivity; try tauto; try lra; exfalso; lra.
Qed.

Lemma Intersection_edges (r s : t) :
  (Left (Intersection r s) = Left r \/ Left (Intersection r s) = Left s) /\
  Left r <= Left (Intersection r s) /\ Left s <= Left (Intersection r s) /\
  (Top (Intersection r s) = Top r \/ Top (Intersection r s) = Top s) /\
  Top r <= Top (Intersection r s) /\ Top s <= Top (Intersection r s) /\
  (Right (Intersection r s) = Right r \/
   Right (Intersection r s) = Right s) /\
  Right (Intersection r s) <= Right r /\
  Right (Intersection r s) <= Right s /\
  (Bottom (Intersection r s) = Bottom r \/
   Bottom (Intersection r s) = Bottom s) /\
  Bottom (Intersection r s) <= Bottom r /\
  Bottom (Intersection r s) <= Bottom s.
Proof.
  unfold Intersection, Left, Top, Right, Bottom.
  cbn [iTopLeft iBottomRight TPointFP.iX TPointFP.iY fst snd].
  dcases; repeat split; auto; lra.
Qed.

(** X15.  For rectangles and points whose coordinates are numbers (no
    NaN), the intersection of two rectangles contains exactly the points
    that both contain, and both rectangles contain it. *)
Theorem TRectFP_intersection (r s : t) (p : TPointFP) :
  Contains (Intersection r s) p = Contains r p && Contains s p /\
  ContainsRect r (Intersection r s) = true /\
  ContainsRect s (Intersection r s) = true.
Proof.
  pose proof (Intersection_edges r s)
    as (L0 & L1 & L2 & T0 & T1 & T2 & R0 & R1 & R2 & B0 & B1 & B2).
  split; [| split].
  - apply eq_true_iff_eq.
    rewrite andb_true_iff, !ContainsFP_iff.
    clear. unfold Intersection, Left, Top, Right, Bottom.
    cbn [iTopLeft iBottomRight TPointFP.iX TPointFP.iY fst snd].
    dcases; split; intro; lra.
  - apply ContainsRectFP_iff. lra.
  - apply ContainsRectFP_iff. lra.
Qed.

(** X16.  For rectangles whose coordinates are numbers (no NaN): two
    rectangles that are not empty intersect exactly when their
    intersection is not empty, and then the top-left corner of the
    intersection is a point of both; [Intersects] is symmetric. *)
Theorem TRectFP_intersects (r s : t) :
  IsEmpty r = false -> IsEmpty s = false ->
  Intersects r s = negb (IsEmpty (Intersection r s)) /\
  Intersects r s = Intersects s r /\
  (Intersects r s = true ->
   Contains r (iTopLeft (Intersection r s)) = true /\
   Contains s (iTopLeft (Intersection r s)) = true).
Proof.
  intros Er Es.
  apply IsEmptyFP_false_iff in Er. apply IsEmptyFP_false_iff in Es.
  pose proof (Intersection_edges r s)
    as (L0 & L1 & L2 & T0 & T1 & T2 & R0 & R1 & R2 & B0 & B1 & B2).
  assert (I : Intersects r s = true <->
              (Left r < Right s /\ Left s < Right r) /\
              (Top r < Bottom s /\ Top s < Bottom r)).
  { unfold Intersects. dcases; cbn; split; intro;
      try discriminate; try reflexivity; try tauto; exfalso; lra. }
  assert (I' : Intersects s r = true <->
               (Left s < Right r /\ Left r < Right s) /\
               (Top s < Bottom r /\ Top r < Bottom s)).
  { unfold Intersects. dcases; cbn; split; intro;
      try discriminate; try reflexivity; try tauto; exfalso; lra. }
  split; [| split].
  - apply eq_true_iff_eq. rewrite negb_true_iff, IsEmptyFP_false_iff, I.
    clear - Er Es. unfold Intersection, Left, Top, Right, Bottom in *.
    cbn [iTopLeft iBottomRight TPointFP.iX TPointFP.iY fst snd].
    dcases; split; intro; lra.
  - apply eq_true_iff_eq. rewrite I, I'. tauto.
  - rewrite I. intro H. rewrite !ContainsFP_iff.
    clear - Er Es H. unfold Intersection, Left, Top, Right, Bottom in *.
    cbn [iTopLeft iBottomRight TPointFP.iX TPointFP.iY fst snd].
    dcases; lra.
Qed.

Lemma TRectFP_intersects_witness :
  Intersects (make 0 0 4 4) (make 2 1 9 3)
  = negb (IsEmpty (Intersection (make 0 0 4 4) (make 2 1 9 3))).
Proof.
  refine (proj1 (TRectFP_intersects (make 0 0 4 4) (make 2 1 9 3) _ _));
    reflexivity.
Defined.

(** X17.  For rectangles whose coordinates are numbers (no NaN):
    combining a rectangle with another one gives the smallest rectangle
    that contains both, when neither is empty; an empty argument changes
    nothing, and an empty rectangle becomes the argument. *)
Theorem TRectFP_combine (r s u : t) :
  (IsEmpty s = true -> Combine r s = r) /\
  (IsEmpty s = false -> IsEmpty r = true -> Combine r s = s) /\
  (IsEmpty s = false -> IsEmpty r = false ->
   ContainsRect (Combine r s) r = true /\
   ContainsRect (Combine r s) s = true /\
   (ContainsRect u r = true -> ContainsRect u s = true ->
    ContainsRect u (Combine r s) = true)).
Proof.
  unfold Combine. split; [| split].
  - intros ->. reflexivity.
  - intros -> ->. reflexivity.
  - intros -> ->. cbn [negb].
    rewrite !ContainsRectFP_iff.
    unfold Left, Top, Right, Bottom.
    cbn [iTopLeft iBottomRight TPointFP.iX TPointFP.iY fst snd].
    dcases; repeat split; intros; lra.
Qed.

Lemma TRectFP_combine_witness :
  ContainsRect (Combine (make 0 0 4 4) (make 2 1 9 3)) (make 0 0 4 4) = true.
Proof.
  refine (proj1 (proj2 (proj2
            (TRectFP_combine (make 0 0 4 4) (make 2 1 9 3) init)) _ _));
    reflexivity.
Defined.

(** X18.  For a rectangle and a point whose coordinates are numbers (no
    NaN): after [Combine] with the point the rectangle contains the old
    rectangle and the point lies within its closed bounds.  By the
    half-open [Contains] the point itself is not contained when it lay to
    the right of or below the old rectangle, because it is now on the
    right or bottom edge. *)
Theorem TRectFP_combine_point (r : t) (p : TPointFP) :
  ContainsRect (CombinePoint r p) r = true /\
  (Left (CombinePoint r p) <= TPointFP.iX p <= Right (CombinePoint r p) /\
   Top (CombinePoint r p) <= TPointFP.iY p <= Bottom (CombinePoint r p)) /\
  (Right r < TPointFP.iX p \/ Bottom r < TPointFP.iY p ->
   Contains (CombinePoint r p) p = false) /\
  (Contains r p = true -> CombinePoint r p = r).
Proof.
  split; [| split; [| split]].
  - apply ContainsRectFP_iff.
    unfold CombinePoint, Left, Top, Right, Bottom. cbv zeta.
    cbn [iTopLeft iBottomRight TPointFP.iX TPointFP.iY fst snd].
    dcases; repeat split; lra.
  - unfold CombinePoint, Left, Top, Right, Bottom. cbv zeta.
    cbn [iTopLeft iBottomRight TPointFP.iX TPointFP.iY fst snd].
    dcases; repeat split; lra.
  - intro H. apply not_true_is_false. rewrite ContainsFP_iff.
    unfold CombinePoint, Left, Top, Right, Bottom in *. cbv zeta.
    cbn [iTopLeft iBottomRight TPointFP.iX TPointFP.iY fst snd].
    dcases; lra.
  - rewrite ContainsFP_iff. intros ((L1 & L2) & (T1 & T2)).
    destruct r as [[l t0] [rr b]], p as [x y].
    unfold CombinePoint, Left, Top, Right, Bottom in *. cbv zeta.
    cbn [iTopLeft iBottomRight TPointFP.iX TPointFP.iY fst snd] in *.
    destruct (dlt_spec x l); [exfalso; lra |].
    destruct (dlt_spec y t0); [exfalso; lra |].
    destruct (dgt_spec x rr); [exfalso; lra |].
    destruct (dgt_spec y b); [exfalso; lra |].
    reflexivity.
Qed.

Lemma TRectFP_combine_point_witness :
  Contains (CombinePoint (make 0 0 4 4) (7, 2)) (7, 2) = false.
Proof.
  refine (proj1 (proj2 (proj2
            (TRectFP_combine_point (make 0 0 4 4) (7, 2)))) _).
  left. reflexivity.
Defined.

End RectFP.

(** ** The bounding box *)

Section BoundingBoxFacts.
Import BoundingBox.
Local Open Scope Z_scope.

Lemma Step_edges (box : TRect.t) (p : TPoint) :
  TRect.Left (Step box p) = Z.min (TRect.Left box) (TPoint.iX p) /\
  TRect.Right (Step box p) = Z.max (TRect.Right box) (TPoint.iX p) /\
  TRect.Top (Step box p) = Z.min (TRect.Top box) (TPoint.iY p) /\
  TRect.Bottom (Step box p) = Z.max (TRect.Bottom box) (TPoint.iY p).
Proof.
  unfold Step, TRect.Left, TRect.Right, TRect.Top, TRect.Bottom.
  cbv zeta. cbn [TRect.iTopLeft TRect.iBottomRight TPoint.iX TPoint.iY fst snd].
  zcases; lia.
Qed.

Lemma fold_Step_encloses (l : list TPoint) :
  forall box : TRect.t,
    let b := fold_left Step l box in
    (TRect.Left b <= TRect.Left box /\ TRect.Right box <= TRect.Right b /\
     TRect.Top b <= TRect.Top box /\ TRect.Bottom box <= TRect.Bottom b) /\
    (forall p, In p l ->
       TRect.Left b <= TPoint.iX p <= TRect.Right b /\
       TRect.Top b <= TPoint.iY p <= TRect.Bottom b).
Proof.
  induction l as [| q l IH]; intros box b; subst b; cbn [fold_left].
  - split; [lia | intros p []].
  - destruct (IH (Step box q)) as (M & A). cbv zeta in M, A.
    destruct (Step_edges box q) as (EL & ER & ET & EB).
    split; [lia |].
    intros p [<- | Hp]; [lia | now apply A].
Qed.

Lemma fold_Step_attained (l : list TPoint) :
  forall box : TRect.t,
    let b := fold_left Step l box in
    (TRect.Left b = TRect.Left box \/
     exists p, In p l /\ TPoint.iX p = TRect.Left b) /\
    (TRect.Right b = TRect.Right box \/
     exists p, In p l /\ TPoint.iX p = TRect.Right b) /\
    (TRect.Top b = TRect.Top box \/
     exists p, In p l /\ TPoint.iY p = TRect.Top b) /\
    (TRect.Bottom b = TRect.Bottom box \/
     exists p, In p l /\ TPoint.iY p = TRect.Bottom b).
Proof.
  induction l as [| q l IH]; intros box b; subst b; cbn [fold_left].
  - repeat split; left; reflexivity.
  - destruct (IH (Step box q)) as (L & R & T & B). cbv zeta in L, R, T, B.
    destruct (Step_edges box q) as (EL & ER & ET & EB).
    repeat split.
    + destruct L as [E | (p & Hp & E)];
        [| right; exists p; split; [right; exact Hp | exact E]].
      destruct (Z.min_spec (TRect.Left box) (TPoint.iX q)) as [(_ & M) | (_ & M)];
        [left; lia | right; exists q; split; [left; reflexivity | lia]].
    + destruct R as [E | (p & Hp & E)];
        [| right; exists p; split; [right; exact Hp | exact E]].
      destruct (Z.max_spec (TRect.Right box) (TPoint.iX q)) as [(_ & M) | (_ & M)];
        [right; exists q; split; [left; reflexivity | lia] | left; lia].
    + destruct T as [E | (p & Hp & E)];
        [| right; exists p; split; [right; exact Hp | exact E]].
      destruct (Z.min_spec (TRect.Top box) (TPoint.iY q)) as [(_ & M) | (_ & M)];
        [left; lia | right; exists q; split; [left; reflexivity | lia]].
    + destruct B as [E | (p & Hp & E)];
        [| right; exists p; split; [right; exact Hp | exact E]].
      destruct (Z.max_spec (TRect.Bottom box) (TPoint.iY q)) as [(_ & M) | (_ & M)];
        [right; exists q; split; [left; reflexivity | lia] | left; lia].
Qed.

(** X19.  [CBox] of an empty array is the empty rectangle at (0,0).  For
    an array that is not empty, of points with [int32_t] coordinates, it
    is the tightest enclosing box: every point lies within its closed
    bounds, and each of its four edges passes through a point of the
    array. *)
Theorem CBox_bounding_box (pts : list TPoint) :
  pts <> [] ->
  (forall p, In p pts -> IsInt32 (TPoint.iX p) /\ IsInt32 (TPoint.iY p)) ->
  let box := CBox pts in
  CBox [] = TRect.init /\
  (forall p, In p pts ->
     TRect.Left box <= TPoint.iX p <= TRect.Right box /\
     TRect.Top box <= TPoint.iY p <= TRect.Bottom box) /\
  (exists p, In p pts /\ TPoint.iX p = TRect.Left box) /\
  (exists p, In p pts /\ TPoint.iX p = TRect.Right box) /\
  (exists p, In p pts /\ TPoint.iY p = TRect.Top box) /\
  (exists p, In p pts /\ TPoint.iY p = TRect.Bottom box).
Proof.
  intros NE R box. subst box.
  destruct pts as [| q rest]; [contradiction |].
  unfold CBox.
  set (start := TRect.make INT32_MAX INT32_MAX INT32_MIN INT32_MIN).
  destruct (fold_Step_encloses (q :: rest) start) as (_ & A).
  destruct (fold_Step_attained (q :: rest) start) as (L & Rt & T & B).
  cbv zeta in A, L, Rt, T, B.
  destruct (R q (or_introl eq_refl)) as (Rx & Ry).
  destruct (A q (or_introl eq_refl)) as (Ax & Ay).
  unfold IsInt32 in Rx, Ry.
  change (TRect.Left start) with INT32_MAX in L.
  change (TRect.Right start) with INT32_MIN in Rt.
  change (TRect.Top start) with INT32_MAX in T.
  change (TRect.Bottom start) with INT32_MIN in B.
  split; [reflexivity |]. split; [exact A |].
  repeat split.
  - destruct L as [E | L]; [exists q; split; [left; reflexivity | lia] |
                            exact L].
  - destruct Rt as [E | Rt]; [exists q; split; [left; reflexivity | lia] |
                              exact Rt].
  - destruct T as [E | T]; [exists q; split; [left; reflexivity | lia] |
                            exact T].
  - destruct B as [E | B]; [exists q; split; [left; reflexivity | lia] |
                            exact B].
Qed.

Lemma CBox_bounding_box_witness :
  exists p, In p [(3, 9); (-2, 4); (7, 5)] /\
            TPoint.iX p = TRect.Left (CBox [(3, 9); (-2, 4); (7, 5)]).
Proof.
  refine (proj1 (proj2 (proj2
            (CBox_bounding_box [(3, 9); (-2, 4); (7, 5)] _ _)))).
  - discriminate.
  - intros p Hp. unfold IsInt32, INT32_MIN, INT32_MAX.
    cbn in Hp. destruct Hp as [<- | [<- | [<- | []]]]; cbn; lia.
Defined.

End BoundingBoxFacts.

(** ** Rounding and vectors *)

Section Rounding.

Lemma TruncateToInt_nonneg (a : double) :
  0 <= a -> TruncateToInt a = Qfloor a.
Proof.
  intro P. unfold TruncateToInt, Qfloor. destruct a as [n d].
  apply Z.quot_div_nonneg; [| reflexivity].
  unfold Qle in P. cbn in P. lia.
Qed.

Lemma TruncateToInt_opp (a : double) :
  TruncateToInt (- a) = (- TruncateToInt a)%Z.
Proof.
  unfold TruncateToInt. destruct a as [n d]. cbn [Qopp Qnum Qden].
  apply Z.quot_opp_l. discriminate.
Qed.

Lemma TruncateToInt_Qeq (a b : double) :
  a == b -> TruncateToInt a = TruncateToInt b.
Proof.
  intro E. destruct (Qlt_le_dec a 0) as [N | P].
  - assert (Ha : TruncateToInt a = (- TruncateToInt (Qopp a))%Z)
      by (rewrite TruncateToInt_opp; lia).
    assert (Hb : TruncateToInt b = (- TruncateToInt (Qopp b))%Z)
      by (rewrite TruncateToInt_opp; lia).
    rewrite Ha, Hb, !TruncateToInt_nonneg by lra.
    f_equal. apply Qfloor_comp. lra.
  - rewrite !TruncateToInt_nonneg by lra. apply Qfloor_comp. exact E.
Qed.

Lemma Qfloor_half (n : Z) : Qfloor (inject_Z n + 0.5) = n.
Proof.
  pose proof (Qfloor_le (inject_Z n + 0.5)) as L.
  pose proof (Qlt_floor (inject_Z n + 0.5)) as U.
  assert (L' : inject_Z (Qfloor (inject_Z n + 0.5)) < inject_Z (n + 1)).
  { rewrite inject_Z_plus. apply Qle_lt_trans with (inject_Z n + 0.5);
      [exact L | ]. change (inject_Z 1) with 1. lra. }
  assert (U' : inject_Z n < inject_Z (Qfloor (inject_Z n + 0.5) + 1)).
  { apply Qle_lt_trans with (inject_Z n + 0.5); [lra | exact U]. }
  rewrite <- Zlt_Qlt in L', U'. lia.
Qed.

(** The value rounded: [aValue + 0.5] or [aValue - 0.5]. *)
Lemma Round_cases (a : double) :
  (0 <= a /\ Round a = Qfloor (a + 0.5)) \/
  (a < 0 /\ Round a = (- Qfloor (Qopp a + 0.5))%Z).
Proof.
  unfold Round. destruct (dlt_spec a 0) as [N | P].
  - right. split; [exact N |].
    assert (H : TruncateToInt (a - 0.5)
                = (- TruncateToInt (Qopp (a - 0.5)))%Z)
      by (rewrite TruncateToInt_opp; lia).
    rewrite H, TruncateToInt_nonneg by lra.
    f_equal. apply Qfloor_comp. lra.
  - left. split; [lra |]. apply TruncateToInt_nonneg. lra.
Qed.

(** X20.  [Round] is symmetric about zero, leaves integers unchanged,
    rounds a value halfway between two integers away from zero, and is
    monotone. *)
Theorem Round_properties (a b : double) (n : Z) :
  Round (- a) = (- Round a)%Z /\
  Round (inject_Z n) = n /\
  ((0 <= n)%Z -> Round (inject_Z n + 0.5) = (n + 1)%Z) /\
  ((n <= 0)%Z -> Round (inject_Z n - 0.5) = (n - 1)%Z) /\
  (a <= b -> (Round a <= Round b)%Z).
Proof.
  split; [| split; [| split; [| split]]].
  - destruct (Round_cases a) as [(P & ->) | (N & ->)],
             (Round_cases (- a)) as [(P' & ->) | (N' & ->)].
    + assert (Z0 : a == 0) by lra.
      rewrite (Qfloor_comp (- a + 0.5) (inject_Z 0 + 0.5)),
              (Qfloor_comp (a + 0.5) (inject_Z 0 + 0.5));
        [| rewrite Z0; reflexivity | rewrite Z0; reflexivity].
      rewrite Qfloor_half. reflexivity.
    + f_equal. apply Qfloor_comp. lra.
    + rewrite Z.opp_involutive. reflexivity.
    + exfalso. lra.
  - destruct (Round_cases (inject_Z n)) as [(P & ->) | (N & ->)].
    + apply Qfloor_half.
    + rewrite <- inject_Z_opp, Qfloor_half. lia.
  - intro P. destruct (Round_cases (inject_Z n + 0.5)) as [(_ & ->) | (N & _)].
    + rewrite (Qfloor_comp _ (inject_Z (n + 1))).
      * apply Qfloor_Z.
      * rewrite inject_Z_plus. change (inject_Z 1) with 1. lra.
    + exfalso. rewrite Zle_Qle in P. change (inject_Z 0) with 0 in P. lra.
  - intro P. destruct (Round_cases (inject_Z n - 0.5)) as [(Q & _) | (_ & ->)].
    + exfalso. rewrite Zle_Qle in P. change (inject_Z 0) with 0 in P. lra.
    + rewrite (Qfloor_comp _ (inject_Z (- n + 1))).
      * rewrite Qfloor_Z. lia.
      * rewrite inject_Z_plus, inject_Z_opp. change (inject_Z 1) with 1. lra.
  - intro L.
    destruct (Round_cases a) as [(Pa & ->) | (Na & ->)],
             (Round_cases b) as [(Pb & ->) | (Nb & ->)].
    + apply Qfloor_resp_le. lra.
    + exfalso. lra.
    + assert (0 <= Qfloor (- a + 0.5))%Z.
      { change 0%Z with (Qfloor 0). apply Qfloor_resp_le. lra. }
      assert (0 <= Qfloor (b + 0.5))%Z.
      { change 0%Z with (Qfloor 0). apply Qfloor_resp_le. lra. }
      lia.
    + assert (Qfloor (- b + 0.5) <= Qfloor (- a + 0.5))%Z
        by (apply Qfloor_resp_le; lra).
      lia.
Qed.

Lemma Round_properties_witness :
  Round 2.5 = 3%Z /\ Round (-2.5) = (-3)%Z /\ Z.le (Round 1.2) (Round 1.7).
Proof.
  split; [| split].
  - refine (proj1 (proj2 (proj2 (Round_properties 0 0 2))) _). discriminate.
  - refine (proj1 (proj2 (proj2 (proj2 (Round_properties 0 0 (-2))))) _).
    discriminate.
  - refine (proj2 (proj2 (proj2 (proj2 (Round_properties 1.2 1.7 0)))) _).
    lra.
Defined.

(** X21.  The cross product changes sign when its arguments are
    exchanged, so a point is left of a vector exactly when the vector is
    right of the point; no point is both left and right of a vector, and a
    vector is neither left nor right of itself. *)
Theorem CrossProduct_sides (a b : TPointFP) :
  TPointFP.CrossProduct b a == - TPointFP.CrossProduct a b /\
  TPointFP.LeftOfVector a b = TPointFP.RightOfVector b a /\
  TPointFP.LeftOfVector a b && TPointFP.RightOfVector a b = false /\
  TPointFP.LeftOfVector a a = false /\
  TPointFP.RightOfVector a a = false.
Proof.
  assert (A : TPointFP.CrossProduct b a == - TPointFP.CrossProduct a b)
    by (unfold TPointFP.CrossProduct; ring).
  assert (S : TPointFP.CrossProduct a a == 0)
    by (unfold TPointFP.CrossProduct; ring).
  unfold TPointFP.LeftOfVector, TPointFP.RightOfVector.
  split; [exact A |]. repeat split.
  - destruct (dgt_spec (TPointFP.CrossProduct a b) 0),
             (dlt_spec (TPointFP.CrossProduct b a) 0);
      try reflexivity; exfalso; lra.
  - destruct (dgt_spec (TPointFP.CrossProduct a b) 0),
             (dlt_spec (TPointFP.CrossProduct a b) 0);
      try reflexivity; exfalso; lra.
  - destruct (dgt_spec (TPointFP.CrossProduct a a) 0);
      [exfalso; lra | reflexivity].
  - destruct (dlt_spec (TPointFP.CrossProduct a a) 0);
      [exfalso; lra | reflexivity].
Qed.

End Rounding.

(** ** Contours *)

Section Contours.
Import CContourBase.

Lemma LastPoint_cases {T : Type} (c : t T) :
  (iPoint c = [] /\ LastPoint c = None) \/
  (exists l b, iPoint c = l ++ [b] /\ LastPoint c = Some b).
Proof.
  unfold LastPoint, Points. destruct (iPoint c) as [| x l] eqn:E.
  - left. split; reflexivity.
  - right. destruct (@exists_last _ (x :: l)) as (l' & b & E');
      [discriminate |].
    exists l', b. split; [exact E' |].
    rewrite E', length_app. cbn [List.length].
    rewrite nth_error_app2 by lia.
    replace (List.length l' + 1 - 1 - List.length l')%nat with 0%nat by lia.
    reflexivity.
Qed.

Lemma LastPoint_snoc {T : Type} (l : list T) (b : T) (closed : bool) :
  LastPoint {| iPoint := l ++ [b]; iClosed := closed |} = Some b.
Proof.
  destruct (LastPoint_cases {| iPoint := l ++ [b]; iClosed := closed |})
    as [(E & _) | (l' & b' & E & ->)]; cbn [iPoint] in E.
  - destruct l; discriminate E.
  - apply app_inj_tail in E. destruct E as (_ & ->). reflexivity.
Qed.

Lemma NoRepeat_snoc {T : Type} (same : T -> T -> bool)
      (l : list T) (b p : T) :
  NoRepeat same (l ++ [b]) -> same b p = false ->
  NoRepeat same ((l ++ [b]) ++ [p]).
Proof.
  intros N D i x y Hx Hy.
  assert (Li : (S i < List.length ((l ++ [b]) ++ [p]))%nat)
    by (apply nth_error_Some; congruence).
  rewrite !length_app in Li. cbn [List.length] in Li.
  destruct (Nat.eq_dec i (List.length l)) as [-> | Ni].
  - rewrite nth_error_app1 in Hx by (rewrite length_app; cbn; lia).
    rewrite nth_error_app2, Nat.sub_diag in Hx by lia.
    rewrite nth_error_app2 in Hy by (rewrite length_app; cbn; lia).
    rewrite length_app in Hy. cbn [List.length] in Hy.
    replace (S (List.length l) - (List.length l + 1))%nat with 0%nat in Hy
      by lia.
    cbn in Hx, Hy. congruence.
  - rewrite nth_error_app1 in Hx, Hy by (rewrite length_app; cbn; lia).
    exact (N i x y Hx Hy).
Qed.

Lemma NoRepeat_single {T : Type} (same : T -> T -> bool) (p : T) :
  NoRepeat same [p].
Proof. intros i a b _ H. destruct i; discriminate H. Qed.

Lemma TPoint_eqb_sym (a b : TPoint) : TPoint.eqb a b = TPoint.eqb b a.
Proof.
  unfold TPoint.eqb.
  now rewrite (Z.eqb_sym (TPoint.iX a)), (Z.eqb_sym (TPoint.iY a)).
Qed.

Lemma TPoint_eqb_refl (a : TPoint) : TPoint.eqb a a = true.
Proof. unfold TPoint.eqb. now rewrite !Z.eqb_refl. Qed.

Lemma COnCurveContour_AppendPoint_cases
      (c : COnCurveContour.t) (p : TOutlinePoint.t) :
  (exists l b,
      iPoint c = l ++ [b] /\
      TPoint.eqb (TOutlinePoint.Point p) b = true /\
      COnCurveContour.AppendPoint c p = c) \/
  (COnCurveContour.AppendPoint c p
   = {| iPoint := iPoint c ++ [TOutlinePoint.Point p];
        iClosed := iClosed c |} /\
   (iPoint c = [] \/
    exists l b, iPoint c = l ++ [b] /\
                TPoint.eqb (TOutlinePoint.Point p) b = false)).
Proof.
  unfold COnCurveContour.AppendPoint.
  destruct (LastPoint_cases c) as [(E & ->) | (l & b & E & ->)].
  - right. split; [reflexivity | left; exact E].
  - destruct (TPoint.eqb (TOutlinePoint.Point p) b) eqn:D.
    + left. exists l, b. repeat split; assumption.
    + right. split; [reflexivity |]. right. exists l, b. split; assumption.
Qed.

(** X22.  [COnCurveContour::AppendPoint] keeps a contour free of repeated
    points: if no two neighbouring points are equal before the call, none
    are after it.  The appended point is then the last point, appending it
    a second time changes nothing, the number of points grows by at most
    one, and the closed flag is kept. *)
Theorem COnCurveContour_AppendPoint
        (c : COnCurveContour.t) (p : TOutlinePoint.t) :
  NoRepeat TPoint.eqb (iPoint c) ->
  let c' := COnCurveContour.AppendPoint c p in
  NoRepeat TPoint.eqb (iPoint c') /\
  (exists q, LastPoint c' = Some q /\
             TPoint.eqb (TOutlinePoint.Point p) q = true) /\
  COnCurveContour.AppendPoint c' p = c' /\
  (Points c' = Points c \/ Points c' = S (Points c)) /\
  iClosed c' = iClosed c.
Proof.
  intros N c'.
  assert (Last : exists q, LastPoint c' = Some q /\
                           TPoint.eqb (TOutlinePoint.Point p) q = true).
  { subst c'.
    destruct (COnCurveContour_AppendPoint_cases c p)
      as [(l & b & E & D & ->) | (-> & _)].
    - exists b. split; [| exact D].
      destruct c as [pts closed]. cbn [iPoint] in E. subst pts.
      apply LastPoint_snoc.
    - exists (TOutlinePoint.Point p).
      split; [apply LastPoint_snoc | apply TPoint_eqb_refl]. }
  split; [| split; [exact Last | split; [| split]]].
  - subst c'.
    destruct (COnCurveContour_AppendPoint_cases c p)
      as [(l & b & E & D & ->) | (-> & [E | (l & b & E & D)])].
    + exact N.
    + cbn [iPoint]. rewrite E. apply NoRepeat_single.
    + cbn [iPoint]. rewrite E. apply NoRepeat_snoc.
      * rewrite <- E. exact N.
      * now rewrite TPoint_eqb_sym.
  - destruct Last as (q & Lq & Dq).
    destruct (COnCurveContour_AppendPoint_cases c' p)
      as [(l & b & E & D & R) | (R & [E | (l & b & E & D)])].
    + exact R.
    + exfalso. destruct (LastPoint_cases c') as [(_ & C) | (l & b & E' & _)].
      * congruence.
      * rewrite E in E'. destruct l; discriminate E'.
    + exfalso. destruct c' as [pts closed]. cbn [iPoint] in E. subst pts.
      rewrite LastPoint_snoc in Lq. congruence.
  - subst c'.
    destruct (COnCurveContour_AppendPoint_cases c p)
      as [(l & b & E & D & ->) | (-> & _)].
    + left. reflexivity.
    + right. unfold Points. cbn [iPoint]. rewrite length_app. cbn. lia.
  - subst c'.
    destruct (COnCurveContour_AppendPoint_cases c p)
      as [(l & b & E & D & ->) | (-> & _)]; reflexivity.
Qed.

Lemma COnCurveContour_AppendPoint_witness :
  COnCurveContour.AppendPoint
    (COnCurveContour.AppendPoint
       {| iPoint := [(0, 0); (4, 0)]%Z; iClosed := false |}
       (TOutlinePoint.of_TPoint (4, 3)%Z))
    (TOutlinePoint.of_TPoint (4, 3)%Z)
  = COnCurveContour.AppendPoint
      {| iPoint := [(0, 0); (4, 0)]%Z; iClosed := false |}
      (TOutlinePoint.of_TPoint (4, 3)%Z).
Proof.
  refine (proj1 (proj2 (proj2
            (COnCurveContour_AppendPoint
               {| iPoint := [(0, 0); (4, 0)]%Z; iClosed := false |}
               (TOutlinePoint.of_TPoint (4, 3)%Z) _)))).
  intros i a b Ha Hb.
  destruct i as [| [| i]]; cbn in Ha, Hb; try discriminate.
  injection Ha as <-. injection Hb as <-. reflexivity.
Defined.

(** X23.  [CPathToJunction::Reverse] is its own inverse.  It exchanges the
    road types at the start and the end, keeps the distance, the closed
    flag and the number of points, and the point at index [i] of the
    reversed path is the point at index [n - 1 - i] of the path. *)
Theorem CPathToJunction_Reverse (p : CPathToJunction.t) (i : nat) :
  let r := CPathToJunction.Reverse p in
  let n := Points (CPathToJunction.iPath p) in
  CPathToJunction.Reverse r = p /\
  CPathToJunction.iStartRoadType r = CPathToJunction.iEndRoadType p /\
  CPathToJunction.iEndRoadType r = CPathToJunction.iStartRoadType p /\
  CPathToJunction.iDistance r = CPathToJunction.iDistance p /\
  Closed (CPathToJunction.iPath r) = Closed (CPathToJunction.iPath p) /\
  Points (CPathToJunction.iPath r) = n /\
  ((i < n)%nat ->
   PointAt (CPathToJunction.iPath r) i
   = PointAt (CPathToJunction.iPath p) (n - 1 - i)).
Proof.
  intros r n. subst r n. destruct p as [[pts closed] st en d].
  unfold CPathToJunction.Reverse, Reverse, Points, PointAt, Closed.
  cbn [CPathToJunction.iPath CPathToJunction.iStartRoadType
       CPathToJunction.iEndRoadType CPathToJunction.iDistance
       iPoint iClosed].
  rewrite rev_involutive, length_rev.
  repeat split; try reflexivity.
  intro Hi. rewrite nth_error_rev.
  assert ((i <? List.length pts)%nat = true) as -> by (apply Nat.ltb_lt; lia).
  f_equal. lia.
Qed.

Lemma CPathToJunction_Reverse_witness :
  PointAt
    (CPathToJunction.iPath
       (CPathToJunction.Reverse
          {| CPathToJunction.iPath :=
               {| iPoint := [TOutlinePoint.of_TPoint (1, 1)%Z;
                             TOutlinePoint.of_TPoint (2, 2)%Z;
                             TOutlinePoint.of_TPoint (3, 3)%Z];
                  iClosed := false |};
             CPathToJunction.iStartRoadType := 4%Z;
             CPathToJunction.iEndRoadType := 9%Z;
             CPathToJunction.iDistance := 12 |})) 0
  = Some (TOutlinePoint.of_TPoint (3, 3)%Z).
Proof.
  refine (proj2 (proj2 (proj2 (proj2 (proj2 (proj2
    (CPathToJunction_Reverse
       {| CPathToJunction.iPath :=
            {| iPoint := [TOutlinePoint.of_TPoint (1, 1)%Z;
                          TOutlinePoint.of_TPoint (2, 2)%Z;
                          TOutlinePoint.of_TPoint (3, 3)%Z];
               iClosed := false |};
          CPathToJunction.iStartRoadType := 4%Z;
          CPathToJunction.iEndRoadType := 9%Z;
          CPathToJunction.iDistance := 12 |} 0)))))) _).
  cbn. lia.
Defined.

(** X24.  Inserting a point at an index up to the number of points and
    then removing the point at that index gives the contour back; after
    the insertion the point is at that index, the points before it are in
    place and the points from it onwards have moved up by one.  Beyond the
    end neither operation is defined. *)
Theorem CContourBase_insert_remove
        {T : Type} (c : t T) (p : T) (i : nat) :
  (i <= Points c)%nat ->
  (exists c',
      InsertPoint c p i = Some c' /\
      RemovePoint c' i = Some c /\
      Points c' = S (Points c) /\
      PointAt c' i = Some p /\
      (forall j, (j < i)%nat -> PointAt c' j = PointAt c j) /\
      (forall j, (i <= j)%nat -> PointAt c' (S j) = PointAt c j)) /\
  InsertPoint c p (S (Points c)) = None /\
  RemovePoint c (Points c) = None.
Proof.
  intro Hi. destruct c as [pts closed].
  unfold InsertPoint, RemovePoint, Points, PointAt in *. cbn [iPoint iClosed] in *.
  assert (Lf : List.length (firstn i pts) = i)
    by (rewrite length_firstn; lia).
  split; [| split].
  - assert ((i <=? List.length pts)%nat = true) as ->
        by (apply Nat.leb_le; exact Hi).
    eexists. split; [reflexivity |]. cbn [iPoint iClosed].
    assert (Len : List.length (firstn i pts ++ p :: skipn i pts)
                  = S (List.length pts)).
    { rewrite length_app. cbn [List.length]. rewrite length_skipn. lia. }
    rewrite Len.
    assert ((i <? S (List.length pts))%nat = true) as ->
        by (apply Nat.ltb_lt; lia).
    split; [| split; [reflexivity | split; [| split]]].
    + f_equal. f_equal.
      rewrite firstn_app, Lf, Nat.sub_diag, firstn_O, app_nil_r.
      rewrite firstn_firstn, Nat.min_id.
      rewrite skipn_app, Lf.
      rewrite (skipn_all2 (firstn i pts)) by lia.
      replace (S i - i)%nat with 1%nat by lia. cbn [skipn app].
      apply firstn_skipn.
    + rewrite nth_error_app2 by lia. rewrite Lf, Nat.sub_diag. reflexivity.
    + intros j Hj. rewrite nth_error_app1 by lia.
      rewrite nth_error_firstn.
      assert ((j <? i)%nat = true) as -> by (apply Nat.ltb_lt; lia).
      reflexivity.
    + intros j Hj. rewrite nth_error_app2 by lia. rewrite Lf.
      replace (S j - i)%nat with (S (j - i)) by lia. cbn [nth_error].
      rewrite nth_error_skipn. f_equal. lia.
  - assert ((S (List.length pts) <=? List.length pts)%nat = false) as ->
        by (apply Nat.leb_gt; lia).
    reflexivity.
  - rewrite Nat.ltb_irrefl. reflexivity.
Qed.

Lemma CContourBase_insert_remove_witness :
  InsertPoint {| iPoint := [1; 2; 3]%Z; iClosed := true |} 9%Z 4 = None.
Proof.
  refine (proj1 (proj2
            (CContourBase_insert_remove
               {| iPoint := [1; 2; 3]%Z; iClosed := true |} 9%Z 1 _))).
  cbn. lia.
Defined.

(** X25.  The contour made from a rectangle is closed and has its four
    corners in the order top left, top right, bottom right, bottom left;
    for a rectangle with [int32_t] edges whose left edge is not beyond its
    right edge and whose top edge is not beyond its bottom edge, the
    bounding box of the contour is the rectangle. *)
Theorem COnCurveContour_of_TRect (r : TRect.t) :
  IsInt32 (TRect.Left r) -> IsInt32 (TRect.Top r) ->
  IsInt32 (TRect.Right r) -> IsInt32 (TRect.Bottom r) ->
  (TRect.Left r <= TRect.Right r)%Z -> (TRect.Top r <= TRect.Bottom r)%Z ->
  Closed (COnCurveContour.of_TRect r) = true /\
  Points (COnCurveContour.of_TRect r) = 4%nat /\
  BoundingBox.CBox (iPoint (COnCurveContour.of_TRect r)) = r.
Proof.
  intros Hl Ht Hr Hb Hx Hy.
  split; [reflexivity |]. split; [reflexivity |].
  unfold COnCurveContour.of_TRect, BoundingBox.CBox.
  cbn [iPoint fold_left].
  set (b0 := TRect.make INT32_MAX INT32_MAX INT32_MIN INT32_MIN).
  set (b1 := BoundingBox.Step b0 (TRect.iTopLeft r)).
  set (b2 := BoundingBox.Step b1 (TRect.TopRight r)).
  set (b3 := BoundingBox.Step b2 (TRect.iBottomRight r)).
  set (b4 := BoundingBox.Step b3 (TRect.BottomLeft r)).
  destruct (Step_edges b0 (TRect.iTopLeft r)) as (L1 & R1 & T1 & B1).
  destruct (Step_edges b1 (TRect.TopRight r)) as (L2 & R2 & T2 & B2).
  destruct (Step_edges b2 (TRect.iBottomRight r)) as (L3 & R3 & T3 & B3).
  destruct (Step_edges b3 (TRect.BottomLeft r)) as (L4 & R4 & T4 & B4).
  fold b1 in L1, R1, T1, B1. fold b2 in L2, R2, T2, B2.
  fold b3 in L3, R3, T3, B3. fold b4 in L4, R4, T4, B4.
  change (TRect.Left b0) with INT32_MAX in L1.
  change (TRect.Top b0) with INT32_MAX in T1.
  change (TRect.Right b0) with INT32_MIN in R1.
  change (TRect.Bottom b0) with INT32_MIN in B1.
  change (TPoint.iX (TRect.iTopLeft r)) with (TRect.Left r) in *.
  change (TPoint.iY (TRect.iTopLeft r)) with (TRect.Top r) in *.
  change (TPoint.iX (TRect.iBottomRight r)) with (TRect.Right r) in *.
  change (TPoint.iY (TRect.iBottomRight r)) with (TRect.Bottom r) in *.
  change (TPoint.iX (TRect.TopRight r)) with (TRect.Right r) in *.
  change (TPoint.iY (TRect.TopRight r)) with (TRect.Top r) in *.
  change (TPoint.iX (TRect.BottomLeft r)) with (TRect.Left r) in *.
  change (TPoint.iY (TRect.BottomLeft r)) with (TRect.Bottom r) in *.
  unfold IsInt32 in *.
  assert (EL : TRect.Left b4 = TRect.Left r)
    by (rewrite L4, L3, L2, L1; clear - Hl Hr Hx; lia).
  assert (ER : TRect.Right b4 = TRect.Right r)
    by (rewrite R4, R3, R2, R1; clear - Hl Hr Hx; lia).
  assert (ET : TRect.Top b4 = TRect.Top r)
    by (rewrite T4, T3, T2, T1; clear - Ht Hb Hy; lia).
  assert (EB : TRect.Bottom b4 = TRect.Bottom r)
    by (rewrite B4, B3, B2, B1; clear - Ht Hb Hy; lia).
  clearbody b4. clear - EL ER ET EB.
  destruct b4 as [[l4 t4] [r4 bb4]], r as [[l t0] [rr b]].
  unfold TRect.Left, TRect.Top, TRect.Right, TRect.Bottom in *.
  cbn [TRect.iTopLeft TRect.iBottomRight TPoint.iX TPoint.iY fst snd] in *.
  congruence.
Qed.

Lemma COnCurveContour_of_TRect_witness :
  BoundingBox.CBox (iPoint (COnCurveContour.of_TRect (TRect.make 1 2 8 5)))
  = TRect.make 1 2 8 5.
Proof.
  refine (proj2 (proj2
            (COnCurveContour_of_TRect (TRect.make 1 2 8 5) _ _ _ _ _ _)));
    unfold IsInt32, INT32_MIN, INT32_MAX; cbn; lia.
Defined.

End Contours.


(** ** Big-endian integers *)

Section BigEndianFacts.
Import BigEndian.
Local Open Scope Z_scope.

Lemma lor_bytes (hi lo : Z) :
  0 <= lo < 2 ^ 8 -> Z.lor (Z.shiftl hi 8) lo = hi * 2 ^ 8 + lo.
Proof.
  intro R.
  assert (D : Z.land (Z.shiftl hi 8) lo = 0).
  { apply Z.bits_inj'. intros i Hi.
    rewrite Z.land_spec, Z.bits_0.
    destruct (Z.lt_ge_cases i 8) as [L | G].
    - rewrite Z.shiftl_spec_low by exact L. reflexivity.
    - rewrite (Z.bits_above_log2 lo i), andb_false_r; [reflexivity | lia |].
      destruct (Z.eq_dec lo 0) as [-> | NZ]; [cbn; lia |].
      apply Z.log2_lt_pow2; [lia |].
      apply Z.lt_le_trans with (2 ^ 8); [lia |].
      apply Z.pow_le_mono_r; lia. }
  rewrite <- Z.lxor_lor by exact D.
  rewrite <- Z.add_nocarry_lxor by exact D.
  now rewrite Z.shiftl_mul_pow2 by lia.
Qed.

(** X26.  Big-endian 16-bit integers round-trip: reading the two bytes
    written for a value gives the value back, and writing the value read
    from two bytes gives the bytes back.  The high byte is stored first. *)
Theorem BigEndian16_round_trip (v b0 b1 : Z) :
  (- 2 ^ 15 <= v < 2 ^ 15 ->
   ReadBigEndian16 (WriteBigEndian16 v) = v /\
   0 <= fst (WriteBigEndian16 v) < 2 ^ 8 /\
   0 <= snd (WriteBigEndian16 v) < 2 ^ 8 /\
   (0 <= v -> fst (WriteBigEndian16 v) = v / 2 ^ 8 /\
              snd (WriteBigEndian16 v) = v mod 2 ^ 8)) /\
  (0 <= b0 < 2 ^ 8 -> 0 <= b1 < 2 ^ 8 ->
   WriteBigEndian16 (ReadBigEndian16 (b0, b1)) = (b0, b1) /\
   - 2 ^ 15 <= ReadBigEndian16 (b0, b1) < 2 ^ 15).
Proof.
  split.
  - intro R. unfold ReadBigEndian16, WriteBigEndian16, uint8, int16.
    cbn [fst snd]. rewrite Z.shiftr_div_pow2 by lia.
    pose proof (Z.mod_pos_bound (v / 2 ^ 8) (2 ^ 8) ltac:(lia)) as H0.
    pose proof (Z.mod_pos_bound v (2 ^ 8) ltac:(lia)) as H1.
    rewrite lor_bytes by exact H1.
    repeat split; try lia.
    + change (2 ^ 8) with 256 in *. change (2 ^ 15) with 32768 in *.
      change (2 ^ 16) with 65536.
      Z.div_mod_to_equations. lia.
    + apply Z.mod_small. change (2 ^ 8) with 256 in *.
      change (2 ^ 15) with 32768 in *. Z.div_mod_to_equations. lia.
  - intros R0 R1. unfold ReadBigEndian16, WriteBigEndian16, uint8, int16.
    cbn [fst snd]. rewrite lor_bytes by exact R1.
    rewrite Z.shiftr_div_pow2 by lia.
    change (2 ^ 8) with 256 in *. change (2 ^ 15) with 32768 in *.
    change (2 ^ 16) with 65536.
    split.
    + f_equal; Z.div_mod_to_equations; lia.
    + Z.div_mod_to_equations. lia.
Qed.

Lemma BigEndian16_round_trip_witness :
  ReadBigEndian16 (WriteBigEndian16 (-2)) = -2 /\
  WriteBigEndian16 (ReadBigEndian16 (0x12, 0x34)) = (0x12, 0x34).
Proof.
  split.
  - refine (proj1 (proj1 (BigEndian16_round_trip (-2) 0 0) _)). lia.
  - refine (proj1 (proj2 (BigEndian16_round_trip 0 0x12 0x34) _ _)); lia.
Defined.

End BigEndianFacts.

(** ** Array reversal *)

Section ReverseArrayFacts.
Import ReverseArray.
Context {T : Type}.

Lemma SetAt_middle (a b : list T) (x v : T) :
  SetAt (a ++ x :: b) (List.length a) v = a ++ v :: b.
Proof. induction a as [| y a IH]; cbn; [reflexivity | now rewrite IH]. Qed.

Lemma nth_error_middle (a b : list T) (x : T) :
  nth_error (a ++ x :: b) (List.length a) = Some x.
Proof. induction a as [| y a IH]; cbn; [reflexivity | exact IH]. Qed.

Lemma Swap_ends (a m b : list T) (x y : T) :
  Swap (a ++ x :: m ++ y :: b) (List.length a)
       (List.length a + List.length m + 1)
  = a ++ y :: m ++ x :: b.
Proof.
  unfold Swap. rewrite nth_error_middle.
  replace (a ++ x :: m ++ y :: b) with ((a ++ x :: m) ++ y :: b)
    by (rewrite <- app_assoc; reflexivity).
  replace (List.length a + List.length m + 1)%nat
    with (List.length (a ++ x :: m))
    by (rewrite length_app; cbn; lia).
  rewrite nth_error_middle.
  rewrite <- app_assoc. cbn [app]. rewrite SetAt_middle.
  replace (a ++ y :: m ++ y :: b) with ((a ++ y :: m) ++ y :: b)
    by (rewrite <- app_assoc; reflexivity).
  replace (List.length (a ++ x :: m)) with (List.length (a ++ y :: m))
    by (rewrite !length_app; reflexivity).
  rewrite SetAt_middle, <- app_assoc. reflexivity.
Qed.

Lemma Loop_reverses (fuel : nat) :
  forall (a m b : list T),
    (List.length m <= fuel)%nat ->
    Loop fuel (a ++ m ++ b) (List.length a)
         (List.length a + List.length m - 1)
    = a ++ rev m ++ b.
Proof.
  induction fuel as [| fuel IH]; intros a m b F.
  - destruct m; [reflexivity | cbn in F; lia].
  - cbn [Loop]. destruct m as [| x m].
    + cbn [List.length].
      assert ((List.length a <? List.length a + 0 - 1)%nat = false) as ->
          by (apply Nat.ltb_ge; lia).
      reflexivity.
    + destruct (@exists_last _ (x :: m)) as (m' & y & E); [discriminate |].
      destruct m' as [| x' m'].
      * (* one element *)
        cbn [app] in E. injection E as -> ->. cbn [List.length rev app].
        assert ((List.length a <? List.length a + 1 - 1)%nat = false) as ->
            by (apply Nat.ltb_ge; lia).
        reflexivity.
      * cbn [app] in E. injection E as <- ->.
        cbn [List.length] in F |- *.
        rewrite length_app in F. rewrite length_app.
        cbn [List.length] in F |- *.
        assert ((List.length a
                 <? List.length a + S (List.length m' + 1) - 1)%nat = true)
          as -> by (apply Nat.ltb_lt; lia).
        replace (a ++ (x :: m' ++ [y]) ++ b) with (a ++ x :: m' ++ y :: b)
          by (cbn [app]; rewrite <- app_assoc; reflexivity).
        replace (List.length a + S (List.length m' + 1) - 1)%nat
          with (List.length a + List.length m' + 1)%nat by lia.
        rewrite Swap_ends.
        replace (a ++ y :: m' ++ x :: b) with ((a ++ [y]) ++ m' ++ (x :: b))
          by (rewrite <- app_assoc; reflexivity).
        replace (S (List.length a)) with (List.length (a ++ [y]))
          by (rewrite length_app; cbn; lia).
        replace (Nat.pred (List.length a + List.length m' + 1))
          with (List.length (a ++ [y]) + List.length m' - 1)%nat
          by (rewrite length_app; cbn; lia).
        rewrite IH by lia.
        cbn [rev]. rewrite rev_app_distr. cbn [rev app].
        rewrite <- !app_assoc. reflexivity.
Qed.

(** X27.  [Reverse] reverses the array: the loop of exchanges from both
    ends gives the elements in the opposite order, for arrays of every
    length, including the empty array and arrays with an odd number of
    elements; reversing twice gives the array back. *)
Theorem Reverse_reverses (a : list T) :
  Reverse a = rev a /\ Reverse (Reverse a) = a.
Proof.
  assert (R : forall l : list T, Reverse l = rev l).
  { intro l. unfold Reverse. destruct (Nat.ltb_spec 1 (List.length l)) as [L | S1].
    - pose proof (Loop_reverses (List.length l) [] l [] (le_n _)) as H.
      cbn [app List.length] in H. rewrite !app_nil_r in H.
      cbn [Nat.add] in H. exact H.
    - destruct l as [| x [| y l]]; [reflexivity | reflexivity |].
      cbn in S1. lia. }
  split; [apply R |]. rewrite !R. apply rev_involutive.
Qed.

End ReverseArrayFacts.

(** ** Comparison of perspective parameters *)

Section TupleOrder.
Import Tuple.

Lemma TotalOrder_eq_sym {A : Type} (lt eq : A -> A -> bool) :
  TotalOrder lt eq -> forall a b, eq a b = eq b a.
Proof.
  intros (_ & _ & E & _) a b. rewrite !E. apply andb_comm.
Qed.

Lemma TotalOrder_eq_trans {A : Type} (lt eq : A -> A -> bool) :
  TotalOrder lt eq ->
  forall a b c, eq a b = true -> eq b c = true -> eq a c = true.
Proof.
  intros O a b c Hab Hbc.
  pose proof (TotalOrder_eq_sym lt eq O) as S.
  destruct O as (I & Tr & E & EL & LE).
  rewrite E. apply andb_true_iff. split; apply negb_true_iff.
  - destruct (lt a c) eqn:L; [| reflexivity].
    assert (lt a b = true) by (apply (LE a c b L); rewrite S; exact Hbc).
    rewrite E in Hab. apply andb_true_iff in Hab. destruct Hab as (H1 & _).
    apply negb_true_iff in H1. congruence.
  - destruct (lt c a) eqn:L; [| reflexivity].
    assert (lt c b = true) by (apply (LE c a b L); exact Hab).
    rewrite E in Hbc. apply andb_true_iff in Hbc. destruct Hbc as (_ & H2).
    apply negb_true_iff in H2. congruence.
Qed.

Lemma Less_true_iff {A B : Type} (ltA eqA : A -> A -> bool)
      (ltB : B -> B -> bool) (a b : A * B) :
  TotalOrder ltA eqA ->
  Less ltA ltB a b = true <->
  ltA (fst a) (fst b) = true \/
  (eqA (fst a) (fst b) = true /\ ltB (snd a) (snd b) = true).
Proof.
  intros (I & Tr & E & _). unfold Less. rewrite E.
  destruct (ltA (fst a) (fst b)), (ltA (fst b) (fst a)); cbn;
    intuition congruence.
Qed.

Lemma Less_TotalOrder {A B : Type} (ltA eqA : A -> A -> bool)
      (ltB eqB : B -> B -> bool) :
  TotalOrder ltA eqA -> TotalOrder ltB eqB ->
  TotalOrder (Less ltA ltB) (Equal eqA eqB).
Proof.
  intros OA OB.
  pose proof (TotalOrder_eq_trans ltA eqA OA) as TA.
  pose proof (TotalOrder_eq_sym ltA eqA OA) as SA.
  pose proof (fun a b => Less_true_iff ltA eqA ltB a b OA) as L.
  destruct OA as (IA & TrA & EA & ELA & LEA).
  destruct OB as (IB & TrB & EB & ELB & LEB).
  assert (Eq : forall a b, Equal eqA eqB a b = true <->
                           eqA (fst a) (fst b) = true /\
                           eqB (snd a) (snd b) = true)
    by (intros; unfold Equal; apply andb_true_iff).
  repeat split.
  - intro a. unfold Less. now rewrite IA, IB.
  - intros a b c. rewrite !L.
    intros [H1 | (H1 & H2)] [K1 | (K1 & K2)].
    + left. eapply TrA; eassumption.
    + left. eapply LEA; eassumption.
    + left. eapply ELA; eassumption.
    + right. split; [eapply TA | eapply TrB]; eassumption.
  - intros a b. unfold Equal, Less. rewrite EA, EB.
    destruct (ltA (fst a) (fst b)), (ltA (fst b) (fst a));
      cbn; reflexivity.
  - intros a b c. rewrite Eq, !L.
    intros (H1 & H2) [K1 | (K1 & K2)].
    + left. eapply ELA; eassumption.
    + right. split; [eapply TA | eapply ELB]; eassumption.
  - intros a b c. rewrite Eq, !L.
    intros [H1 | (H1 & H2)] (K1 & K2).
    + left. eapply LEA; eassumption.
    + right. split; [eapply TA | eapply LEB]; eassumption.
Qed.

Lemma dlt_TotalOrder : TotalOrder dlt Qeq_bool.
Proof.
  repeat split.
  - intro a. destruct (dlt_spec a a); [exfalso; lra | reflexivity].
  - intros a b c. destruct (dlt_spec a b), (dlt_spec b c), (dlt_spec a c);
      intros; try reflexivity; try discriminate; exfalso; lra.
  - intros a b. destruct (dlt_spec a b), (dlt_spec b a); cbn;
      destruct (Qeq_bool a b) eqn:E; try reflexivity; exfalso;
      try (apply Qeq_bool_iff in E; lra).
    apply Qeq_bool_neq in E. apply E. lra.
  - intros a b c E. apply Qeq_bool_iff in E.
    destruct (dlt_spec b c), (dlt_spec a c); intros;
      try reflexivity; try discriminate; exfalso; lra.
  - intros a b c L E. apply Qeq_bool_iff in E. revert L.
    destruct (dlt_spec a b), (dlt_spec a c); intros;
      try reflexivity; try discriminate; exfalso; lra.
Qed.

Lemma BoolLess_TotalOrder : TotalOrder BoolLess Bool.eqb.
Proof.
  unfold BoolLess. repeat split.
  - intros []; reflexivity.
  - intros [] [] []; cbn; congruence.
  - intros [] []; reflexivity.
  - intros [] [] []; cbn; congruence.
  - intros [] [] []; cbn; congruence.
Qed.

Lemma TPointFP_TotalOrder : TotalOrder TPointFP.ltb TPointFP.eqb.
Proof.
  assert (L : forall a b, TPointFP.ltb a b = Less dlt dlt a b).
  { intros a b. unfold TPointFP.ltb, Less, dlt, TPointFP.iX, TPointFP.iY.
    destruct (dgt (fst b) (fst a)), (dgt (fst a) (fst b)),
             (dgt (snd b) (snd a)); reflexivity. }
  pose proof (Less_TotalOrder dlt Qeq_bool dlt Qeq_bool
                dlt_TotalOrder dlt_TotalOrder) as (I & Tr & E & EL & LE).
  split; [intro a; rewrite L; apply I |].
  split; [intros a b c; rewrite !L; apply Tr |].
  split; [intros a b; rewrite !L; apply E |].
  split; [intros a b c; rewrite !L; apply EL |
          intros a b c; rewrite !L; apply LE].
Qed.

(** X28.  [TPerspectiveParam::operator<] is a strict order that is total
    up to [operator==]: no value is less than itself, the order is
    transitive, it never holds in both directions, and two values are
    equal exactly when neither is less than the other. *)
Theorem TPerspectiveParam_order (a b c : TPerspectiveParam.t) :
  TPerspectiveParam.ltb a a = false /\
  (TPerspectiveParam.ltb a b = true -> TPerspectiveParam.ltb b c = true ->
   TPerspectiveParam.ltb a c = true) /\
  (TPerspectiveParam.ltb a b = true -> TPerspectiveParam.ltb b a = false) /\
  TPerspectiveParam.eqb a b
  = negb (TPerspectiveParam.ltb a b) && negb (TPerspectiveParam.ltb b a) /\
  TPerspectiveParam.neqb a b
  = TPerspectiveParam.ltb a b || TPerspectiveParam.ltb b a.
Proof.
  assert (O : TotalOrder TPerspectiveParam.ltb TPerspectiveParam.eqb).
  { pose proof
      (Less_TotalOrder _ _ _ _ TPointFP_TotalOrder
         (Less_TotalOrder _ _ _ _ BoolLess_TotalOrder
            (Less_TotalOrder _ _ _ _ dlt_TotalOrder
               (Less_TotalOrder _ _ _ _ dlt_TotalOrder
                  (Less_TotalOrder _ _ _ _ BoolLess_TotalOrder
                     (Less_TotalOrder _ _ _ _ dlt_TotalOrder
                        (Less_TotalOrder _ _ _ _ dlt_TotalOrder
                           dlt_TotalOrder)))))))
      as (I & Tr & E & EL & LE).
    unfold TPerspectiveParam.ltb, TPerspectiveParam.eqb.
    split; [intro x; apply I |].
    split; [intros x y z; apply Tr |].
    split; [intros x y; apply E |].
    split; [intros x y z; apply EL | intros x y z; apply LE]. }
  destruct O as (I & Tr & E & _).
  split; [apply I |]. split; [apply Tr |]. split; [| split].
  - intro L. destruct (TPerspectiveParam.ltb b a) eqn:R; [| reflexivity].
    pose proof (Tr _ _ _ L R) as C. rewrite I in C. discriminate.
  - apply E.
  - unfold TPerspectiveParam.neqb. rewrite E.
    destruct (TPerspectiveParam.ltb a b), (TPerspectiveParam.ltb b a);
      reflexivity.
Qed.

Lemma TPerspectiveParam_order_witness :
  TPerspectiveParam.ltb
    {| TPerspectiveParam.iPositionDegrees := (0, 0);
       TPerspectiveParam.iAutoPosition := true;
       TPerspectiveParam.iHeightInMeters := 0;
       TPerspectiveParam.iAzimuthDegrees := 0;
       TPerspectiveParam.iAutoAzimuth := true;
       TPerspectiveParam.iDeclinationDegrees := 45;
       TPerspectiveParam.iRotationDegrees := 0;
       TPerspectiveParam.iFieldOfViewDegrees := 22.5 |}
    TPerspectiveParam.init = false.
Proof.
  refine (proj1 (proj2 (proj2
            (TPerspectiveParam_order TPerspectiveParam.init _
                                     TPerspectiveParam.init))) _).
  reflexivity.
Defined.

End TupleOrder.


(** ** Integer and floating-point rectangles *)

Section RectConversion.

Lemma Qle_bool_inject_Z (a b : Z) :
  Qle_bool (inject_Z a) (inject_Z b) = (a <=? b)%Z.
Proof.
  destruct (Qle_bool_spec (inject_Z a) (inject_Z b)) as [L | N],
           (Z.leb_spec a b) as [L' | N']; try reflexivity; exfalso.
  - rewrite <- Zle_Qle in L. lia.
  - apply N. rewrite <- Zle_Qle. exact L'.
Qed.

Lemma dlt_inject_Z (a b : Z) : dlt (inject_Z a) (inject_Z b) = (a <? b)%Z.
Proof.
  unfold dlt, dgt. rewrite Qle_bool_inject_Z.
  destruct (Z.leb_spec b a), (Z.ltb_spec a b); try reflexivity; lia.
Qed.

(** X29.  The conversion of an integer rectangle to a floating-point
    rectangle keeps what the rectangle answers: it is empty, contains a
    point, contains a rectangle exactly when the integer rectangle
    does. *)
Theorem TRectFP_of_TRect (r s : TRect.t) (p : TPoint) :
  TRectFP.IsEmpty (TRectFP.of_TRect r) = TRect.IsEmpty r /\
  TRectFP.Contains (TRectFP.of_TRect r) (TPointFP.of_TPoint p)
  = TRect.Contains r p /\
  TRectFP.ContainsRect (TRectFP.of_TRect r) (TRectFP.of_TRect s)
  = TRect.ContainsRect r s.
Proof.
  unfold TRectFP.IsEmpty, TRectFP.Contains, TRectFP.ContainsRect,
    TRectFP.dge, TRectFP.dle, TRectFP.Left, TRectFP.Top, TRectFP.Right,
    TRectFP.Bottom, TRectFP.of_TRect, TPointFP.of_TPoint,
    TPointFP.iX, TPointFP.iY.
  cbn [TRectFP.iTopLeft TRectFP.iBottomRight fst snd].
  rewrite !Qle_bool_inject_Z, !dlt_inject_Z.
  unfold TRect.IsEmpty, TRect.Contains, TRect.ContainsRect, TRect.Left,
    TRect.Top, TRect.Right, TRect.Bottom.
  rewrite !Z.geb_leb. repeat split; reflexivity.
Qed.

End RectConversion.

(** ** Simplification of contours *)

Section SimplifyFacts.
Import Simplify.

Lemma Subsequence_refl {T : Type} (l : list T) : Subsequence l l.
Proof. induction l; constructor; assumption. Qed.

Lemma Subsequence_app {T : Type} (k1 l1 k2 l2 : list T) :
  Subsequence k1 l1 -> Subsequence k2 l2 -> Subsequence (k1 ++ k2) (l1 ++ l2).
Proof. induction 1; intro; cbn; try constructor; auto. Qed.

Lemma Subsequence_length {T : Type} (ks l : list T) :
  Subsequence ks l -> (List.length ks <= List.length l)%nat.
Proof. induction 1; cbn; lia. Qed.

Lemma TriangleArea_nonneg (a b c : TPoint) : 0 <= TriangleArea a b c.
Proof.
  unfold TriangleArea.
  match goal with |- 0 <= Qabs ?e / 2 => pose proof (Qabs_nonneg e) as H end.
  apply Qle_shift_div_l; lra.
Qed.

Lemma Get_middle (a b : list TPoint) (x : TPoint) :
  Get (a ++ x :: b) (List.length a) = x.
Proof. unfold Get. apply nth_middle. Qed.

(** Writing over the first element after a prefix. *)
Lemma SetAt_after (k r : list TPoint) (s v : TPoint) :
  ReverseArray.SetAt (k ++ s :: r) (List.length k) v = k ++ v :: r.
Proof. apply SetAt_middle. Qed.

(** The array while a loop runs: the points kept so far, the places
    already passed, and the points still to come. *)
Lemma kept_stale_step (kept stale body' : list TPoint) (x : TPoint)
      (tail : list TPoint) :
  exists stale2,
    ReverseArray.SetAt (kept ++ stale ++ x :: body' ++ tail)
                       (List.length kept) x
    = (kept ++ [x]) ++ stale2 ++ body' ++ tail /\
    List.length stale2 = List.length stale /\
    (stale = [] -> stale2 = []).
Proof.
  destruct stale as [| s st].
  - exists []. cbn [app]. rewrite SetAt_after, <- app_assoc.
    repeat split; reflexivity.
  - exists (st ++ [x]). cbn [app]. rewrite SetAt_after.
    rewrite <- !app_assoc. cbn [app].
    split; [reflexivity |]. split; [| discriminate].
    rewrite length_app. cbn. lia.
Qed.

Lemma OpenLoop_structure (res : double) (body : list TPoint) :
  forall (fuel : nat) (kept stale : list TPoint) (z : TPoint) (cur : double)
         (source dest end_ : nat),
    source = (List.length kept + List.length stale)%nat ->
    dest = List.length kept ->
    end_ = (source + List.length body)%nat ->
    (List.length body <= fuel)%nat ->
    exists ks stale',
      OpenLoop fuel (kept ++ stale ++ body ++ [z]) source dest end_ cur res
      = (kept ++ ks ++ stale' ++ [z], (dest + List.length ks)%nat) /\
      Subsequence ks body /\
      (List.length ks + List.length stale'
       = List.length stale + List.length body)%nat /\
      (res <= 0 -> 0 <= cur -> stale = [] -> ks = body /\ stale' = []).
Proof.
  induction body as [| x body IH];
    intros fuel kept stale z cur source dest end_ Hs Hd He Hf.
  - exists [], stale. cbn [app List.length] in *.
    assert (L : (source <? end_)%nat = false) by (apply Nat.ltb_ge; lia).
    destruct fuel; cbn [OpenLoop]; rewrite ?L, Nat.add_0_r;
      (split; [reflexivity |]); (split; [constructor |]);
      (split; [lia |]); intros; split; (reflexivity || assumption).
  - destruct fuel as [| fuel]; [cbn in Hf; lia |].
    cbn [OpenLoop].
    assert (L : (source <? end_)%nat = true)
      by (apply Nat.ltb_lt; cbn in He; lia).
    rewrite L. cbv zeta.
    assert (G : Get (kept ++ stale ++ (x :: body) ++ [z]) source = x).
    { rewrite app_assoc, Hs, <- length_app. cbn [app]. apply Get_middle. }
    rewrite G.
    set (cur' := cur + TriangleArea _ x _).
    assert (Cpos : 0 <= cur -> 0 <= cur').
    { intro P. subst cur'.
      match goal with
      | |- 0 <= cur + TriangleArea ?a ?b ?c =>
          pose proof (TriangleArea_nonneg a b c)
      end. lra. }
    destruct (Qle_bool_spec res cur') as [K | NK].
    + (* the point is kept *)
      destruct (kept_stale_step kept stale body x [z])
        as (stale2 & E & L2 & N2).
      cbn [app] in E |- *. rewrite Hd, E.
      destruct (IH fuel (kept ++ [x]) stale2 z 0 (S source)
                   (S (List.length kept)) end_)
        as (ks & stale' & R & Sub & Len & Z0).
      * rewrite length_app. cbn. lia.
      * rewrite length_app. cbn. lia.
      * cbn in He. lia.
      * cbn in Hf. lia.
      * exists (x :: ks), stale'. rewrite R.
        split; [rewrite <- !app_assoc; cbn; f_equal; lia |].
        split; [now constructor |].
        split; [cbn; lia |].
        intros R0 C0 S0. destruct (Z0 R0 ltac:(lra) (N2 S0)) as (-> & ->).
        split; reflexivity.
    + (* the point is dropped *)
      destruct (IH fuel kept (stale ++ [x]) z cur' (S source) dest end_)
        as (ks & stale' & R & Sub & Len & _).
      * rewrite length_app. cbn. lia.
      * exact Hd.
      * cbn in He. lia.
      * cbn in Hf. lia.
      * exists ks, stale'.
        replace (kept ++ stale ++ (x :: body) ++ [z])
          with (kept ++ (stale ++ [x]) ++ body ++ [z])
          by (rewrite <- !app_assoc; reflexivity).
        rewrite R. split; [reflexivity |].
        split; [now constructor |].
        split; [rewrite length_app in Len; cbn in Len |- *; lia |].
        intros R0 C0 _. exfalso. apply NK. specialize (Cpos C0). lra.
Qed.

Lemma ClosedLoop_structure (res : double) (body : list TPoint) :
  forall (fuel : nat) (kept stale : list TPoint) (cur : double)
         (source dest end_ prev : nat),
    source = (List.length kept + List.length stale)%nat ->
    dest = List.length kept ->
    end_ = (source + List.length body)%nat ->
    (List.length body <= fuel)%nat ->
    exists ks stale',
      ClosedLoop fuel (kept ++ stale ++ body) source dest end_ prev cur res
      = (kept ++ ks ++ stale', (dest + List.length ks)%nat) /\
      Subsequence ks body /\
      (List.length ks + List.length stale'
       = List.length stale + List.length body)%nat /\
      (res <= 0 -> 0 <= cur -> stale = [] -> ks = body /\ stale' = []).
Proof.
  induction body as [| x body IH];
    intros fuel kept stale cur source dest end_ prev Hs Hd He Hf.
  - exists [], stale. cbn [app List.length] in *.
    assert (L : (source <? end_)%nat = false) by (apply Nat.ltb_ge; lia).
    rewrite app_nil_r.
    destruct fuel; cbn [ClosedLoop]; rewrite ?L, Nat.add_0_r;
      (split; [reflexivity |]); (split; [constructor |]);
      (split; [lia |]); intros; split; (reflexivity || assumption).
  - destruct fuel as [| fuel]; [cbn in Hf; lia |].
    cbn [ClosedLoop].
    assert (L : (source <? end_)%nat = true)
      by (apply Nat.ltb_lt; cbn in He; lia).
    rewrite L. cbv zeta.
    assert (G : Get (kept ++ stale ++ x :: body) source = x).
    { rewrite app_assoc, Hs, <- length_app. apply Get_middle. }
    rewrite G.
    set (cur' := cur + TriangleArea _ x _).
    assert (Cpos : 0 <= cur -> 0 <= cur').
    { intro P. subst cur'.
      match goal with
      | |- 0 <= cur + TriangleArea ?a ?b ?c =>
          pose proof (TriangleArea_nonneg a b c)
      end. lra. }
    destruct (Qle_bool_spec res cur') as [K | NK].
    + destruct (kept_stale_step kept stale body x [])
        as (stale2 & E & L2 & N2).
      rewrite !app_nil_r in E. rewrite Hd, E.
      destruct (IH fuel (kept ++ [x]) stale2 0 (S source)
                   (S (List.length kept)) end_ (List.length kept))
        as (ks & stale' & R & Sub & Len & Z0).
      * rewrite length_app. cbn. lia.
      * rewrite length_app. cbn. lia.
      * cbn in He. lia.
      * cbn in Hf. lia.
      * exists (x :: ks), stale'. rewrite R.
        split; [rewrite <- !app_assoc; cbn; f_equal; lia |].
        split; [now constructor |].
        split; [cbn; lia |].
        intros R0 C0 S0. destruct (Z0 R0 ltac:(lra) (N2 S0)) as (-> & ->).
        split; reflexivity.
    + destruct (IH fuel kept (stale ++ [x]) cur' (S source) dest end_ prev)
        as (ks & stale' & R & Sub & Len & _).
      * rewrite length_app. cbn. lia.
      * exact Hd.
      * cbn in He. lia.
      * cbn in Hf. lia.
      * exists ks, stale'.
        replace (kept ++ stale ++ x :: body)
          with (kept ++ (stale ++ [x]) ++ body)
          by (rewrite <- !app_assoc; reflexivity).
        rewrite R. split; [reflexivity |].
        split; [now constructor |].
        split; [rewrite length_app in Len; cbn in Len |- *; lia |].
        intros R0 C0 _. exfalso. apply NK. specialize (Cpos C0). lra.
Qed.

Lemma firstn_exact {T : Type} (l r : list T) :
  firstn (List.length l) (l ++ r) = l.
Proof.
  rewrite firstn_app, Nat.sub_diag, firstn_O, app_nil_r.
  apply firstn_all.
Qed.

Lemma SimplifyContour_short (a : list TPoint) (closed : bool) (res : double) :
  (List.length a < 3)%nat ->
  SimplifyContour a closed res = (a, List.length a).
Proof.
  intro H. unfold SimplifyContour. cbv zeta.
  assert ((List.length a <? 3)%nat = true) as -> by (apply Nat.ltb_lt; lia).
  reflexivity.
Qed.

Lemma SimplifyContour_closed (a : list TPoint) (res : double) :
  (3 <= List.length a)%nat ->
  exists ks stale',
    SimplifyContour a true res = (ks ++ stale', List.length ks) /\
    Subsequence ks a /\
    (List.length ks + List.length stale' = List.length a)%nat /\
    (res <= 0 -> ks = a /\ stale' = []).
Proof.
  intro H. unfold SimplifyContour. cbv zeta.
  assert ((List.length a <? 3)%nat = false) as -> by (apply Nat.ltb_ge; lia).
  destruct (ClosedLoop_structure res a (List.length a) [] [] 0 0 0
              (List.length a) (List.length a - 1))
    as (ks & stale' & R & Sub & Len & Z0); try reflexivity; try lia.
  cbn [app List.length Nat.add] in R, Len.
  exists ks, stale'. rewrite R.
  split; [reflexivity |]. split; [exact Sub |]. split; [exact Len |].
  intro R0. apply Z0; [exact R0 | lra | reflexivity].
Qed.

Lemma SimplifyContour_open (first last : TPoint) (middle : list TPoint)
      (res : double) :
  (1 <= List.length middle)%nat ->
  exists ks r,
    SimplifyContour (first :: middle ++ [last]) false res
    = ((first :: ks ++ [last]) ++ r, List.length (first :: ks ++ [last])) /\
    Subsequence ks middle /\
    (List.length ks + List.length r = List.length middle)%nat /\
    (res <= 0 -> ks = middle /\ r = []).
Proof.
  intro H. unfold SimplifyContour. cbv zeta.
  assert (N : List.length (first :: middle ++ [last])
              = S (S (List.length middle)))
    by (cbn; rewrite length_app; cbn; lia).
  rewrite N.
  assert ((S (S (List.length middle)) <? 3)%nat = false) as ->
      by (apply Nat.ltb_ge; lia).
  destruct (OpenLoop_structure res middle (S (S (List.length middle)))
              [first] [] last 0 1 1 (S (S (List.length middle)) - 1))
    as (ks & stale' & R & Sub & Len & Z0); try reflexivity;
    try (cbn; lia).
  cbn [app] in R. rewrite R.
  cbn [List.length Nat.add] in Len.
  set (a1 := first :: ks ++ stale' ++ [last]).
  assert (G : Get a1 (S (S (List.length middle)) - 1) = last).
  { subst a1.
    replace (first :: ks ++ stale' ++ [last])
      with ((first :: ks ++ stale') ++ [last])
      by (cbn; rewrite <- app_assoc; reflexivity).
    replace (S (S (List.length middle)) - 1)%nat
      with (List.length (first :: ks ++ stale'))
      by (cbn; rewrite length_app; lia).
    apply Get_middle. }
  rewrite G.
  destruct (stale' ++ [last]) as [| s r] eqn:E;
    [destruct stale'; discriminate E |].
  exists ks, r.
  assert (Lr : List.length r = List.length stale').
  { apply (f_equal (@List.length _)) in E.
    rewrite length_app in E. cbn in E. lia. }
  split.
  - subst a1. rewrite ?E.
    replace (first :: ks ++ s :: r) with ((first :: ks) ++ s :: r)
      by reflexivity.
    replace (1 + List.length ks)%nat with (List.length (first :: ks))
      by reflexivity.
    rewrite SetAt_after. f_equal.
    + cbn. rewrite <- app_assoc. reflexivity.
    + cbn. rewrite length_app. cbn. lia.
  - split; [exact Sub |]. split; [lia |].
    intro R0. destruct (Z0 R0 ltac:(lra) eq_refl) as (-> & ->).
    split; [reflexivity |].
    destruct r; [reflexivity | cbn in Lr; lia].
Qed.

(** X30.  [SimplifyContour] only removes points: the points that remain
    are a subsequence of the points given, the array keeps its size, and
    the returned count does not exceed it.  A contour of fewer than three
    points is returned as it is, and so is every contour when the
    resolution area is zero or negative.  An open contour keeps its first
    and its last point. *)
Theorem SimplifyContour_keeps
        (a : list TPoint) (closed : bool) (res : double) :
  let kept := Simplified a closed res in
  Subsequence kept a /\
  List.length (fst (SimplifyContour a closed res)) = List.length a /\
  (snd (SimplifyContour a closed res) <= List.length a)%nat /\
  ((List.length a < 3)%nat -> kept = a) /\
  (res <= 0 -> kept = a) /\
  (closed = false ->
   forall first middle last,
     a = first :: middle ++ [last] ->
     exists ks, kept = first :: ks ++ [last] /\ Subsequence ks middle).
Proof.
  intro kept. subst kept. unfold Simplified.
  destruct (Nat.lt_ge_cases (List.length a) 3) as [Short | Long].
  - (* fewer than three points *)
    rewrite (SimplifyContour_short a closed res Short). cbn [fst snd].
    rewrite firstn_all.
    repeat split; try reflexivity; try apply Subsequence_refl; try lia.
    intros _ first middle last E. exists middle.
    split; [exact E | apply Subsequence_refl].
  - destruct closed.
    + (* closed *)
      destruct (SimplifyContour_closed a res Long)
        as (ks & stale' & -> & Sub & Len & Z0).
      cbn [fst snd]. rewrite firstn_exact, length_app.
      split; [exact Sub |]. split; [exact Len |]. split; [lia |].
      split; [intro; exfalso; lia |].
      split; [intro R0; now destruct (Z0 R0) | discriminate].
    + (* open *)
      destruct a as [| first rest]; [cbn in Long; lia |].
      destruct (@exists_last _ rest) as (middle & last & ->);
        [destruct rest; [cbn in Long; lia | discriminate] |].
      assert (M : (1 <= List.length middle)%nat).
      { cbn in Long. rewrite length_app in Long. cbn in Long. lia. }
      destruct (SimplifyContour_open first last middle res M)
        as (ks & r & -> & Sub & Len & Z0).
      cbn [fst snd]. rewrite firstn_exact.
      assert (K : Subsequence (first :: ks ++ [last])
                              (first :: middle ++ [last])).
      { constructor. apply Subsequence_app;
          [exact Sub | apply Subsequence_refl]. }
      pose proof (Subsequence_length _ _ Sub) as SL.
      split; [exact K |].
      split; [repeat (cbn [List.length]; rewrite ?length_app);
              cbn [List.length]; lia |].
      split; [repeat (cbn [List.length]; rewrite ?length_app);
              cbn [List.length]; lia |].
      split; [intro; exfalso; lia |].
      split.
      * intro R0. destruct (Z0 R0) as (-> & _). reflexivity.
      * intros _ first' middle' last' E. injection E as <- E.
        apply app_inj_tail in E. destruct E as (<- & <-).
        exists ks. split; [reflexivity | exact Sub].
Qed.

Lemma SimplifyContour_keeps_witness :
  exists ks,
    Simplified [(0, 0); (5, 1); (10, 0); (10, 10)]%Z false 100
    = (0, 0)%Z :: ks ++ [(10, 10)%Z] /\
    Subsequence ks [(5, 1); (10, 0)]%Z.
Proof.
  refine (proj2 (proj2 (proj2 (proj2 (proj2
            (SimplifyContour_keeps
               [(0, 0); (5, 1); (10, 0); (10, 10)]%Z false 100)))))
            eq_refl (0, 0)%Z [(5, 1); (10, 0)]%Z (10, 10)%Z eq_refl).
Defined.

Example Simplified_example :
  Simplified [(0, 0); (5, 1); (10, 0); (10, 10)]%Z false 100 
  = [(0, 0); (10, 10)]%Z.
Proof. reflexivity. Qed.

End SimplifyFacts.
